(** * Capitalyx: the achievement engine of [App]

    A shallow embedding of the client-side gamification core of the
    Capitalyx application (the [App] component and the [useFinancialData]
    hook): the merged achievement view, the evaluation pass [runEngine],
    the catalog auto-restore guarded by [isRestoringRef], and the effect
    that debounces the pass with [setTimeout]/[clearTimeout].

    Conventions.
    - A JavaScript string is a [string] holding its UTF-8 bytes; [===] on
      strings is equality, [includes] is the substring test.
    - A JavaScript [number] is the rational value of a finite IEEE 754
      double, a [Q]; array lengths are [nat].  The only arithmetic of the
      engine is [(count / 5) * 100], and each of its two operations rounds
      its exact result to the nearest double, ties to even ([toDouble]).
    - Optional fields ([conditionType?], [aiUsageCount?], ...) are
      [option]s; [x || d] is the default of an option (and of a falsy
      value).
    - Time is a natural number of milliseconds. *)

From Stdlib Require Import QArith Qminmax Qround Qabs Qpower Lqa.
From Stdlib Require SpecFloat.
From stdpp Require Import gmap strings list fin_maps pretty.

(** ** Data model (types.ts)

    The records keep the fields the engine and the merge read, and a few
    more for identification; fields that play no part here ([createdAt],
    [iconUrl], [photoURL], ...) are left out. *)

Inductive TransactionType := INCOME | EXPENSE.

Definition TransactionType_eqb (a b : TransactionType) : bool :=
  match a, b with
  | INCOME, INCOME | EXPENSE, EXPENSE => true
  | _, _ => false
  end.

Record Transaction := {
  t_id : string;
  t_description : string;
  t_amount : Q;
  t_type : TransactionType;
  t_category : string;
  t_date : string;
}.

Record UserProfile := {
  uid : string;
  displayName : option string;
  email : option string;
  isAdministrator : option bool;
}.

Record UserStats := {
  st_hasUsedAI : option bool;   (* the field [hasUsedAI]; the engine does not read it *)
  aiUsageCount : option Q;
  hasSimulatedFuture : option bool;
  hasUsedCalendar : option bool;
}.

Inductive AchievementCondition :=
  | transaction_count | income_count | expense_count
  | total_balance | manual | ai_usage.

Record Achievement := {
  id : string;
  title : string;
  description : string;
  conditionType : option AchievementCondition;
  conditionValue : option Q;
  isUnlocked : bool;
  unlockedAt : option string;
  progress : option Q;
  isSystem : option bool;
}.

(** An entry of the per-user ledger [userAchievements : Record<string, any>]:
    the three fields the merge reads, each possibly missing. *)
Record UnlockRecord := {
  u_isUnlocked : option bool;
  u_unlockedAt : option string;
  u_progress : option Q;
}.

Abbreviation Ledger := (gmap string UnlockRecord).

(** ** JavaScript idioms *)

(** [b || false] and the truthiness of an optional boolean. *)
Definition truthy (b : option bool) : bool := default false b.

(** [n || 0] on an optional number: [undefined] and [0] both give [0]. *)
Definition num_or_0 (n : option Q) : Q :=
  match n with
  | Some q => if Qeq_bool q 0 then 0%Q else q
  | None => 0%Q
  end.

(** [s.includes(p)]: [p] occurs in [s] as a contiguous substring. *)
Fixpoint includes (p s : string) : bool :=
  if String.prefix p s then true
  else match s with
       | EmptyString => false
       | String _ s' => includes p s'
       end.

(** ** Double arithmetic

    The result of [/] and of [*] on numbers is the exact quotient or
    product rounded to the nearest double, ties to the even significand.
    A double has 53 significant bits and its last place is never below
    [2^-1074].  An array has fewer than [2^32] elements, so the quotients
    and products of the engine stay far below [2^1024], where a result
    would become [Infinity]; that case is not represented. *)

Definition pow2 (e : Z) : Q := (2 ^ e)%Q.

(** The exponent of the largest power of two not above a positive
    rational. *)
Definition ilog2 (x : Q) : Z :=
  let e := (Z.log2 (Qnum x) - Z.log2 (Zpos (Qden x)))%Z in
  if Qle_bool (pow2 e) x then e else (e - 1)%Z.

(** Rounding to the nearest integer, ties to the even one. *)
Definition roundHalfEven (y : Q) : Z :=
  let f := Qfloor y in
  match (y - inject_Z f ?= 1 # 2)%Q with
  | Lt => f
  | Gt => (f + 1)%Z
  | Eq => if Z.even f then f else (f + 1)%Z
  end.

(** The exponent of the unit in the last place of the doubles around a
    positive [x]. *)
Definition ulpExp (x : Q) : Z := Z.max (ilog2 x - 52) (-1074).

Definition roundPos (x : Q) : Q :=
  (inject_Z (roundHalfEven (x / pow2 (ulpExp x))) * pow2 (ulpExp x))%Q.

(** The double nearest to [x]. *)
Definition toDouble (x : Q) : Q :=
  match Qnum x with
  | Z0 => 0%Q
  | Zpos _ => roundPos x
  | Zneg _ => (- roundPos (- x))%Q
  end.

(** The maximal [length] of an array. *)
Definition maxArrayLength : Z := 4294967295.

(** ** Achievement Merge View ([mergedAchievements] of useFinancialData) *)

Definition mergeOne (userAchievements : Ledger) (ach : Achievement) : Achievement :=
  {| id := id ach;
     title := title ach;
     description := description ach;
     conditionType := conditionType ach;
     conditionValue := conditionValue ach;
     isUnlocked := truthy (userAchievements !! id ach ≫= u_isUnlocked);
     unlockedAt := userAchievements !! id ach ≫= u_unlockedAt;
     progress := Some (num_or_0 (userAchievements !! id ach ≫= u_progress));
     isSystem := isSystem ach |}.

Definition merge (globalAchievements : list Achievement)
    (userAchievements : Ledger) : list Achievement :=
  map (mergeOne userAchievements) globalAchievements.

(** ** Effects of the engine

    The calls the effect makes to its collaborators, in the order they are
    issued.  [console.log] is not recorded. *)

Inductive ToastType := success | error | info | warning.

Inductive Action :=
  | unlockUserAchievement (uid id : string) (progress : Q)
  | showToast (message : string) (type : ToastType)
  | restoreDefaultAchievements.

(** What [runEngine] closes over: the values of the render that scheduled it
    ([user] is known to be non-null there). *)
Record Closure := {
  c_user : UserProfile;
  c_transactions : list Transaction;
  c_userStats : UserStats;
  c_achievements : list Achievement;
}.

(** A [runEngine] invocation suspended at
    [await unlockUserAchievement(user.uid, ach.id, 100)]. *)
Record Pass := {
  p_closure : Closure;
  p_awaiting : Achievement;
  p_rest : list Achievement;
}.

Definition Qlt_bool (x y : Q) : bool := negb (Qle_bool y x).

(** What the engine needs of the JavaScript runtime:
    [String.prototype.toLowerCase]. *)
Class Runtime := { toLowerCase : string → string }.

Section Engine.

Context {rt : Runtime}.

(** *** The supporting predicates, recomputed at the start of a pass *)

Definition incomeCount (transactions : list Transaction) : nat :=
  length (List.filter (λ t, TransactionType_eqb (t_type t) INCOME) transactions).

Definition expenseCount (transactions : list Transaction) : nat :=
  length (List.filter (λ t, TransactionType_eqb (t_type t) EXPENSE) transactions).

Definition hasSalary (transactions : list Transaction) : bool :=
  existsb (λ t, String.eqb (t_category t) "Salário"
                || includes "salário" (toLowerCase (t_description t)))
          transactions.

Definition hasUsedBeta (userStats : UserStats) : bool :=
  truthy (hasSimulatedFuture userStats) || truthy (hasUsedCalendar userStats).

Definition hasUsedAI (userStats : UserStats) : bool :=
  Qlt_bool 0 (num_or_0 (aiUsageCount userStats)).

(** *** The body of the [for] loop *)

(** [(count / 5) * 100]: the quotient is rounded, then the product. *)
Definition count_progress (count : nat) : Q :=
  toDouble (toDouble (inject_Z (Z.of_nat count) / 5) * 100).

Definition bool_progress (b : bool) : Q := if b then 100 else 0.

Definition currentProgress (c : Closure) (ach : Achievement) : Q :=
  if String.eqb (title ach) "Mestre das Receitas"
  then count_progress (incomeCount (c_transactions c))
  else if String.eqb (title ach) "Controlador de Gastos"
  then count_progress (expenseCount (c_transactions c))
  else if String.eqb (title ach) "Trabalhador Honesto"
  then bool_progress (hasSalary (c_transactions c))
  else if String.eqb (title ach) "Explorador Beta"
  then bool_progress (hasUsedBeta (c_userStats c))
  else if String.eqb (title ach) "Capitalyx AI"
  then bool_progress (hasUsedAI (c_userStats c))
  else 0.

(** [currentProgress >= 100] *)
Definition complete (c : Closure) (ach : Achievement) : bool :=
  Qle_bool 100 (currentProgress c ach).

Definition unlockCall (c : Closure) (ach : Achievement) : Action :=
  unlockUserAchievement (uid (c_user c)) (id ach) 100.

Definition unlockToast (ach : Achievement) : Action :=
  showToast ("Conquista desbloqueada: " +:+ title ach) success.

(** The loop from a given position up to its next [await]: the unlock
    call it issues there and the suspended pass, or nothing when the loop
    runs off the end of the captured array. *)
Fixpoint runLoop (c : Closure) (achs : list Achievement)
    : list Action * option Pass :=
  match achs with
  | [] => ([], None)
  | ach :: rest =>
      if isUnlocked ach then runLoop c rest
      else if complete c ach
      then ([unlockCall c ach],
            Some {| p_closure := c; p_awaiting := ach; p_rest := rest |})
      else runLoop c rest
  end.

(** The awaited write settles.  Resolved: the toast is shown and the loop
    goes on.  Rejected: the exception leaves [runEngine]; nothing catches
    it and the rest of the array is not visited. *)
Definition resume (p : Pass) (ok : bool) : list Action * option Pass :=
  if ok then
    let '(acts, st) := runLoop (p_closure p) (p_rest p) in
    (unlockToast (p_awaiting p) :: acts, st)
  else ([], None).

(** A whole pass as one function: the actions [runEngine] issues over the
    captured array when its successive writes settle as [outcomes] say
    ([true] resolved, [false] rejected; when the list runs out the pass
    is still waiting for its write). *)
Fixpoint runEngine (c : Closure) (outcomes : list bool)
    (achs : list Achievement) : list Action :=
  match achs with
  | [] => []
  | ach :: rest =>
      if isUnlocked ach then runEngine c outcomes rest
      else if complete c ach
      then unlockCall c ach ::
           match outcomes with
           | true :: outcomes' => unlockToast ach :: runEngine c outcomes' rest
           | false :: _ => []
           | [] => []
           end
      else runEngine c outcomes rest
  end.

End Engine.

(** The same expression over the binary64 operations of the Standard
    Library's specification of IEEE 754 ([SpecFloat], precision 53,
    exponent bound 1024), and the rational value of its result. *)
Definition binary64 (m : Z) : SpecFloat.spec_float :=
  SpecFloat.binary_normalize 53 1024 m 0 false.

Definition count_progress_binary64 (count : nat) : SpecFloat.spec_float :=
  SpecFloat.SFmul 53 1024
    (SpecFloat.SFdiv 53 1024 (binary64 (Z.of_nat count)) (binary64 5))
    (binary64 100).

Definition binary64_value (f : SpecFloat.spec_float) : option Q :=
  match f with
  | SpecFloat.S754_zero _ => Some 0%Q
  | SpecFloat.S754_finite s m e =>
      Some ((if s then -1 else 1) * inject_Z (Zpos m) * pow2 e)%Q
  | _ => None
  end.

(** The titles the [if]/[else if] chain of the loop compares against. *)
Definition recognizedTitles : list string :=
  ["Mestre das Receitas"; "Controlador de Gastos"; "Trabalhador Honesto";
   "Explorador Beta"; "Capitalyx AI"].

Section PassRuns.

Context {rt : Runtime}.

(** The loop leaves an entry alone when it is unlocked or incomplete. *)
Definition skipped (c : Closure) (ach : Achievement) : bool :=
  isUnlocked ach || negb (complete c ach).

(** A suspended pass driven by the outcomes of its successive writes. *)
Fixpoint drain (st : option Pass) (outcomes : list bool) : list Action :=
  match st, outcomes with
  | Some p, ok :: outcomes' =>
      (resume p ok).1 ++ drain (resume p ok).2 outcomes'
  | _, _ => []
  end.

End PassRuns.

(** ** The ledger as the store keeps it *)

(** The unlock calls among the actions of a pass, as (identifier, progress). *)
Definition unlockWrites (acts : list Action) : list (string * Q) :=
  omap (λ a, match a with
             | unlockUserAchievement _ i p => Some (i, p)
             | _ => None
             end) acts.

(** The progress the ledger holds for an achievement (0 when there is no
    record), as the merged view reads it. *)
Definition persistedProgress (ledger : Ledger) (i : string) : Q :=
  num_or_0 (ledger !! i ≫= u_progress).

(** The ledger after the writes [ws] have been applied by a store
    [persist]. *)
Definition persistAll (persist : Ledger → string → Q → Ledger)
    (ledger : Ledger) (ws : list (string * Q)) : Ledger :=
  foldl (λ l w, persist l w.1 w.2) ledger ws.

(** ** The application state seen by the achievement effect *)

(** The values the effect reads, as of the latest render that re-ran it.
    The dependency list is [transactions, userStats, achievements,
    user?.uid, rawGlobalAchievements.length]: a render that replaces any of
    these re-runs the effect, and a render that only replaces [user] by an
    object with the same uid does not, so whether a user is present is
    always up to date here. *)
Record Snapshot := {
  user : option UserProfile;
  transactions : list Transaction;
  userStats : UserStats;
  rawGlobalAchievements : list Achievement;
  userAchievements : Ledger;
}.

(** [achievements], the memoised merged view of the render. *)
Definition achievements (d : Snapshot) : list Achievement :=
  merge (rawGlobalAchievements d) (userAchievements d).

(** A pending [setTimeout(runEngine, 3000)]. *)
Record Timer := {
  timerId : nat;
  deadline : nat;
  callback : Closure;
}.

Record AppState := {
  now : nat;                      (* the clock, in ms *)
  data : Snapshot;
  isRestoringRef : bool;          (* [isRestoringRef.current] *)
  repairsInFlight : nat;          (* unsettled [restoreDefaultAchievements()] promises *)
  cooldownTimers : list nat;      (* deadlines of the pending 2000 ms resets of the flag *)
  nextTimerId : nat;
  engineTimers : list Timer;      (* pending 3000 ms timers of [runEngine] *)
  effectCleanup : option nat;     (* the timer the effect's cleanup will clear *)
  passes : list Pass;             (* [runEngine] invocations suspended on a write *)
}.

Definition emptyStats : UserStats :=
  {| st_hasUsedAI := None; aiUsageCount := None;
     hasSimulatedFuture := None; hasUsedCalendar := None |}.

(** The state after mount: [useState] initial values, [useRef(false)], the
    first effect run returned at [if (!user) return]. *)
Definition initial : AppState :=
  {| now := 0;
     data := {| user := None; transactions := []; userStats := emptyStats;
                rawGlobalAchievements := []; userAchievements := ∅ |};
     isRestoringRef := false;
     repairsInFlight := 0;
     cooldownTimers := [];
     nextTimerId := 0;
     engineTimers := [];
     effectCleanup := None;
     passes := [] |}.

(** The values a [runEngine] created in a render with user [u] closes over. *)
Definition closureOf (u : UserProfile) (d : Snapshot) : Closure :=
  {| c_user := u;
     c_transactions := transactions d;
     c_userStats := userStats d;
     c_achievements := achievements d |}.

Definition clearTimeout (tid : nat) (ts : list Timer) : list Timer :=
  List.filter (λ t, negb (timerId t =? tid)) ts.

(** The drift test of the auto-restore: the guard is clear, the observed
    catalog is non-empty and its size is not 5. *)
Definition driftDetected (s : AppState) : bool :=
  negb (isRestoringRef s)
  && (0 <? length (rawGlobalAchievements (data s)))
  && negb (length (rawGlobalAchievements (data s)) =? 5).

(** The body of the effect, run on the state of the new render. *)
Definition achievementEffect (s : AppState) : AppState * list Action :=
  match user (data s) with
  | None =>
      (* if (!user) return; *)
      ({| now := now s; data := data s;
          isRestoringRef := isRestoringRef s;
          repairsInFlight := repairsInFlight s;
          cooldownTimers := cooldownTimers s;
          nextTimerId := nextTimerId s;
          engineTimers := engineTimers s;
          effectCleanup := None;
          passes := passes s |}, [])
  | Some u =>
      let drift := driftDetected s in
      let flag := if drift then true else isRestoringRef s in
      let inflight := if drift then S (repairsInFlight s) else repairsInFlight s in
      let acts := if drift then [restoreDefaultAchievements] else [] in
      if length (achievements (data s)) =? 0 then
        (* if (achievements.length === 0) return; *)
        ({| now := now s; data := data s;
            isRestoringRef := flag;
            repairsInFlight := inflight;
            cooldownTimers := cooldownTimers s;
            nextTimerId := nextTimerId s;
            engineTimers := engineTimers s;
            effectCleanup := None;
            passes := passes s |}, acts)
      else
        (* const timer = setTimeout(runEngine, 3000);
           return () => clearTimeout(timer); *)
        let timer :=
          {| timerId := nextTimerId s;
             deadline := now s + 3000;
             callback := closureOf u (data s) |} in
        ({| now := now s; data := data s;
            isRestoringRef := flag;
            repairsInFlight := inflight;
            cooldownTimers := cooldownTimers s;
            nextTimerId := S (nextTimerId s);
            engineTimers := engineTimers s ++ [timer];
            effectCleanup := Some (nextTimerId s);
            passes := passes s |}, acts)
  end.

(** A render at time [t] in which a dependency of the effect changed:
    React runs the cleanup the previous effect returned (none after an
    early [return]), then the effect on the new values. *)
Definition commit (t : nat) (d : Snapshot) (s : AppState)
    : AppState * list Action :=
  achievementEffect
    {| now := t; data := d;
       isRestoringRef := isRestoringRef s;
       repairsInFlight := repairsInFlight s;
       cooldownTimers := cooldownTimers s;
       nextTimerId := nextTimerId s;
       engineTimers := match effectCleanup s with
                       | Some tid => clearTimeout tid (engineTimers s)
                       | None => engineTimers s
                       end;
       effectCleanup := None;
       passes := passes s |}.

(** What happens to the application, with the time it happens at. *)
Inductive Event :=
  | Commit (t : nat) (d : Snapshot)            (* a render that re-runs the effect *)
  | FireEngine (t : nat) (tid : nat)           (* a 3000 ms timer calls runEngine *)
  | SettleUnlock (t : nat) (i : nat) (ok : bool)  (* the write of the i-th suspended pass settles *)
  | SettleRepair (t : nat) (ok : bool)         (* a restoreDefaultAchievements() promise settles *)
  | FireCooldown (t : nat) (i : nat).          (* the i-th 2000 ms timer resets the flag *)

Definition eventTime (e : Event) : nat :=
  match e with
  | Commit t _ | FireEngine t _ | SettleUnlock t _ _
  | SettleRepair t _ | FireCooldown t _ => t
  end.

(** What a run records: the renders, the starts of evaluation passes and
    the calls to the collaborators. *)
Inductive Label :=
  | LCommit
  | LPass (c : Closure)
  | LAct (a : Action)
  | LRepairSettled (ok : bool).

Definition isPass (l : Label) : bool :=
  match l with LPass _ => true | _ => false end.

Definition isSchedule (l : Label) : bool :=
  match l with LCommit | LPass _ => true | _ => false end.

Definition isRepairEvent (l : Label) : bool :=
  match l with
  | LAct restoreDefaultAchievements | LRepairSettled _ => true
  | _ => false
  end.

Definition isRestore (l : Label) : bool :=
  match l with LAct restoreDefaultAchievements => true | _ => false end.

Abbreviation Trace := (list (nat * Label)).

Definition stamp (t : nat) (acts : list Action) : Trace :=
  map (λ a, (t, LAct a)) acts.

(** The Catalog Integrity Monitor read off the flag, the pending repair
    promises and the pending resets: idle, repairing, or cooling down until
    the reset that is due at [until]. *)
Inductive MonitorPhase := Idle | Repairing | Cooldown (until : nat).

Definition monitorPhase (s : AppState) : option MonitorPhase :=
  match isRestoringRef s, repairsInFlight s, cooldownTimers s with
  | false, 0, [] => Some Idle
  | true, 1, [] => Some Repairing
  | true, 0, [d] => Some (Cooldown d)
  | _, _, _ => None
  end.

(** The earliest time at which the monitor can invoke the repair again. *)
Definition repairBound (s : AppState) : nat :=
  match monitorPhase s with
  | Some Idle => now s
  | Some Repairing => now s + 2000
  | Some (Cooldown d) => d
  | None => 0
  end.

(** The earliest time at which an evaluation pass can start. *)
Definition passBound (s : AppState) : nat :=
  match engineTimers s with
  | [] => now s + 3000
  | tm :: _ => deadline tm
  end.

(** At most one engine timer is pending; it is the one the cleanup of the
    last effect clears, and it carries the closure of the current render. *)
Definition engineOK (s : AppState) : Prop :=
  match engineTimers s with
  | [] => True
  | [tm] =>
      effectCleanup s = Some (timerId tm)
      ∧ deadline tm ≤ now s + 3000
      ∧ achievements (data s) ≠ []
      ∧ ∃ u, user (data s) = Some u ∧ callback tm = closureOf u (data s)
  | _ => False
  end.

(** A suspended pass stands at an entry of the array it captured. *)
Definition passOK (p : Pass) : Prop :=
  ∃ pre, c_achievements (p_closure p) = pre ++ p_awaiting p :: p_rest p.

Record Inv (s : AppState) : Prop := {
  inv_monitor : is_Some (monitorPhase s);
  inv_engine : engineOK s;
  inv_passes : Forall passOK (passes s);
}.

(** Labels satisfying [P] are followed, at least [gap] ms later, by the
    labels satisfying [Q]. *)
Definition spaced (gap : nat) (P Q : Label → bool) (tr : Trace) : Prop :=
  ∀ i j ti tj li lj,
    i < j → tr !! i = Some (ti, li) → tr !! j = Some (tj, lj) →
    P li = true → Q lj = true → ti + gap ≤ tj.

(** A step from [s] to [s'] with trace [tr] respects the bound: the bound
    does not decrease, the [Q] labels of the step come no earlier than the
    bound before it, the bound after it lies at least [gap] ms after the
    [P] labels of the step. *)
Definition respects (gap : nat) (P Q : Label → bool) (bound : AppState → nat)
    (s : AppState) (tr : Trace) (s' : AppState) : Prop :=
  bound s ≤ bound s'
  ∧ (∀ t l, (t, l) ∈ tr → Q l = true → bound s ≤ t)
  ∧ (∀ t l, (t, l) ∈ tr → P l = true → t + gap ≤ bound s')
  ∧ spaced gap P Q tr.

(** ** The transition system *)

Section Machine.

Context {rt : Runtime}.

(** The timer [tid] is due: its callback starts an evaluation pass, which
    runs up to its first [await]. *)
Definition fireEngine (t tid : nat) (s : AppState) : option (AppState * Trace) :=
  match List.find (λ tm, timerId tm =? tid) (engineTimers s) with
  | Some tm =>
      if deadline tm <=? t then
        let '(acts, st) :=
          runLoop (callback tm) (c_achievements (callback tm)) in
        Some ({| now := t; data := data s;
                 isRestoringRef := isRestoringRef s;
                 repairsInFlight := repairsInFlight s;
                 cooldownTimers := cooldownTimers s;
                 nextTimerId := nextTimerId s;
                 engineTimers := clearTimeout tid (engineTimers s);
                 effectCleanup := effectCleanup s;
                 passes := passes s ++ option_list st |},
              (t, LPass (callback tm)) :: stamp t acts)
      else None
  | None => None
  end.

(** The write awaited by the [i]-th suspended pass settles. *)
Definition settleUnlock (t i : nat) (ok : bool) (s : AppState)
    : option (AppState * Trace) :=
  match passes s !! i with
  | Some p =>
      let '(acts, st) := resume p ok in
      Some ({| now := t; data := data s;
               isRestoringRef := isRestoringRef s;
               repairsInFlight := repairsInFlight s;
               cooldownTimers := cooldownTimers s;
               nextTimerId := nextTimerId s;
               engineTimers := engineTimers s;
               effectCleanup := effectCleanup s;
               passes := take i (passes s) ++ option_list st
                         ++ drop (S i) (passes s) |},
            stamp t acts)
  | None => None
  end.

(** [.finally(() => setTimeout(() => isRestoringRef.current = false, 2000))]:
    whatever the outcome of the repair, the reset of the flag is scheduled
    2000 ms after the promise settles. *)
Definition settleRepair (t : nat) (ok : bool) (s : AppState)
    : option (AppState * Trace) :=
  match repairsInFlight s with
  | S n =>
      Some ({| now := t; data := data s;
               isRestoringRef := isRestoringRef s;
               repairsInFlight := n;
               cooldownTimers := cooldownTimers s ++ [t + 2000];
               nextTimerId := nextTimerId s;
               engineTimers := engineTimers s;
               effectCleanup := effectCleanup s;
               passes := passes s |}, [(t, LRepairSettled ok)])
  | O => None
  end.

Definition fireCooldown (t i : nat) (s : AppState) : option (AppState * Trace) :=
  match cooldownTimers s !! i with
  | Some d =>
      if d <=? t then
        Some ({| now := t; data := data s;
                 isRestoringRef := false;
                 repairsInFlight := repairsInFlight s;
                 cooldownTimers := delete i (cooldownTimers s);
                 nextTimerId := nextTimerId s;
                 engineTimers := engineTimers s;
                 effectCleanup := effectCleanup s;
                 passes := passes s |}, [])
      else None
  | None => None
  end.

(** One event; [None] when it cannot happen in [s] (time does not go
    back, a timer does not fire before its deadline, only a pending
    promise settles). *)
Definition step (s : AppState) (e : Event) : option (AppState * Trace) :=
  if now s <=? eventTime e then
    match e with
    | Commit t d =>
        let '(s', acts) := commit t d s in
        Some (s', (t, LCommit) :: stamp t acts)
    | FireEngine t tid => fireEngine t tid s
    | SettleUnlock t i ok => settleUnlock t i ok s
    | SettleRepair t ok => settleRepair t ok s
    | FireCooldown t i => fireCooldown t i s
    end
  else None.

Fixpoint exec (s : AppState) (es : list Event) : option (AppState * Trace) :=
  match es with
  | [] => Some (s, [])
  | e :: es' =>
      match step s e with
      | Some (s', tr) =>
          match exec s' es' with
          | Some (s'', tr') => Some (s'', tr ++ tr')
          | None => None
          end
      | None => None
      end
  end.

End Machine.

(** ** What a view shows of one achievement *)









(** A lower-casing that agrees with the built-in on the strings whose
    characters lie in U+0000..U+00FF (Basic Latin and the Latin-1
    Supplement, which hold the letters of Portuguese): it maps [A]..[Z]
    to [a]..[z] and, in the two-byte sequences led by 0xC3, U+00C0..U+00DE
    other than the multiplication sign U+00D7 to U+00E0..U+00FE; every
    other byte is left alone.  It stands for the built-in in the closed
    examples. *)
Definition asciiLower (a : Ascii.ascii) : Ascii.ascii :=
  let n := Ascii.nat_of_ascii a in
  if (65 <=? n) && (n <=? 90) then Ascii.ascii_of_nat (n + 32) else a.

Definition latin1Lower (b : Ascii.ascii) : Ascii.ascii :=
  let n := Ascii.nat_of_ascii b in
  if (128 <=? n) && (n <=? 158) && negb (n =? 151)
  then Ascii.ascii_of_nat (n + 32) else b.

Fixpoint toLowerCase_latin1 (s : string) : string :=
  match s with
  | EmptyString => EmptyString
  | String a s' =>
      if Ascii.nat_of_ascii a =? 195 then
        match s' with
        | EmptyString => String a EmptyString
        | String b s'' =>
            String a (String (latin1Lower b) (toLowerCase_latin1 s''))
        end
      else String (asciiLower a) (toLowerCase_latin1 s')
  end.

#[export] Instance latin1Runtime : Runtime :=
  {| toLowerCase := toLowerCase_latin1 |}.

(** ** Sample data for the closed examples *)

Module Samples.

Definition ach (i t : string) (ct : option AchievementCondition)
    (cv : option Q) : Achievement :=
  {| id := i; title := t; description := "";
     conditionType := ct; conditionValue := cv;
     isUnlocked := false; unlockedAt := None; progress := None;
     isSystem := Some true |}.

Definition tx (ty : TransactionType) (cat desc : string) : Transaction :=
  {| t_id := "t"; t_description := desc; t_amount := 10;
     t_type := ty; t_category := cat; t_date := "2024-05-01" |}.

Definition alice : UserProfile :=
  {| uid := "alice"; displayName := Some "Alice"; email := None;
     isAdministrator := None |}.

Definition incomes (n : nat) : list Transaction :=
  repeat (tx INCOME "Outros" "venda") n.

Definition closure (txs : list Transaction) (achs : list Achievement) : Closure :=
  {| c_user := alice; c_transactions := txs; c_userStats := emptyStats;
     c_achievements := achs |}.

(** A catalog of the canonical size. *)
Definition catalog5 : list Achievement :=
  [ach "a1" "Mestre das Receitas" (Some income_count) (Some 5%Q);
   ach "a2" "Trabalhador Honesto" (Some manual) None;
   ach "a3" "Controlador de Gastos" (Some expense_count) (Some 5%Q);
   ach "a4" "Explorador Beta" (Some manual) None;
   ach "a5" "Capitalyx AI" (Some ai_usage) (Some 1%Q)].

Definition salaries (n : nat) : list Transaction :=
  repeat (tx INCOME "Salário" "pagamento") n.

Definition snapshot (u : option UserProfile) (txs : list Transaction)
    (catalog : list Achievement) (ledger : Ledger) : Snapshot :=
  {| user := u; transactions := txs; userStats := emptyStats;
     rawGlobalAchievements := catalog; userAchievements := ledger |}.

Definition unlockedRecord : UnlockRecord :=
  {| u_isUnlocked := Some true; u_unlockedAt := Some "2024-05-02";
     u_progress := Some 100%Q |}.

Definition halfRecord : UnlockRecord :=
  {| u_isUnlocked := Some false; u_unlockedAt := None;
     u_progress := Some 40%Q |}.

(** A catalog that has lost two entries. *)
Definition catalog3 : list Achievement := take 3 catalog5.

(** Alice with five salary records: "Mestre das Receitas" (a1) and
    "Trabalhador Honesto" (a2) are both complete. *)
Definition salaried (ledger : Ledger) : Snapshot :=
  snapshot (Some alice) (salaries 5) catalog5 ledger.

(** The same data after the user has signed out: [useFinancialData] keeps
    the last values of its state, only [user] is null. *)
Definition signedOut : Snapshot :=
  snapshot None (salaries 5) catalog5 ∅.

Definition drifted : Snapshot :=
  snapshot (Some alice) [] catalog3 ∅.

(** A pass starts on the salaried data and is suspended on the write for
    a1 when a fresher ledger arrives in which a2 is already unlocked. *)
Definition raceRun : list Event :=
  [Commit 0 (salaried ∅); FireEngine 3000 0;
   Commit 3050 (salaried {["a2" := unlockedRecord]})].

(** A pass is suspended on the write for a1 when the user signs out. *)
Definition signOutRun : list Event :=
  [Commit 0 (salaried ∅); FireEngine 3000 0; Commit 3050 signedOut].

(** Drift on every render: the repair fails, the flag is reset 2000 ms
    after the failure, the next render repairs again. *)
Definition driftRun : list Event :=
  [Commit 0 drifted; Commit 100 drifted; SettleRepair 500 false;
   Commit 600 drifted; FireCooldown 2500 0; Commit 2600 drifted].

(** A burst of three updates, then the one pass of the last of them. *)
Definition burstRun : list Event :=
  [Commit 0 (salaried ∅); Commit 500 (salaried ∅); Commit 1000 (salaried ∅);
   FireEngine 4000 2].





(** The catalog has lost two entries while nobody is signed in. *)
Definition signedOutDrifted : Snapshot :=
  snapshot None (salaries 5) catalog3 ∅.

(** A store that records the write as an unlocked entry. *)
Definition store (ledger : Ledger) (i : string) (p : Q) : Ledger :=
  <[i := {| u_isUnlocked := Some true; u_unlockedAt := Some "2024-05-03";
            u_progress := Some p |}]> ledger.

End Samples.

(** ** A pass as a whole *)

Section PassShape.

Context {rt : Runtime}.

(** The entries a pass acts on: locked in the captured array and complete
    on the captured data. *)
Definition eligible (c : Closure) (ach : Achievement) : bool :=
  negb (isUnlocked ach) && complete c ach.

(** What a pass issues when every one of its writes resolves: for each
    eligible entry, in order, the unlock call and then the toast. *)
Definition fullActions (c : Closure) (achs : list Achievement) : list Action :=
  flat_map (λ ach, [unlockCall c ach; unlockToast ach])
           (List.filter (eligible c) achs).

End PassShape.

(** The number of writes that resolved before the first one that was
    rejected or has not settled. *)
Fixpoint resolvedWrites (outcomes : list bool) : nat :=
  match outcomes with
  | true :: outcomes' => S (resolvedWrites outcomes')
  | _ => 0
  end.

(** The closure of a later render that has [more] records after the ones
    of [c]. *)
Definition withMoreTransactions (c : Closure) (more : list Transaction) : Closure :=
  {| c_user := c_user c;
     c_transactions := c_transactions c ++ more;
     c_userStats := c_userStats c;
     c_achievements := c_achievements c |}.

(** ** The toast hook ([useToast]) *)

Module Toast.

Record ToastMessage := {
  toast_id : string;
  toast_message : string;
  toast_type : ToastType;
}.

Record State := {
  now : nat;
  toast : option ToastMessage;         (* the [toast] state *)
  timers : list (nat * string);        (* pending 5000 ms timers: deadline, captured id *)
}.

Definition initial : State := {| now := 0; toast := None; timers := [] |}.

(** [showToast(message, type)] called at time [t]: the id is
    [Date.now().toString()]. *)
Definition showToast (t : nat) (message : string) (type : ToastType)
    (s : State) : State :=
  {| now := t;
     toast := Some {| toast_id := pretty t; toast_message := message;
                      toast_type := type |};
     timers := timers s ++ [(t + 5000, pretty t)] |}.

(** [setToast(current => current?.id === id ? null : current)] *)
Definition dismiss (i : string) (current : option ToastMessage)
    : option ToastMessage :=
  match current with
  | Some m => if String.eqb (toast_id m) i then None else Some m
  | None => None
  end.

Definition closeToast (t : nat) (s : State) : State :=
  {| now := t; toast := None; timers := timers s |}.

Inductive Event :=
  | Show (t : nat) (message : string) (type : ToastType)
  | Fire (t : nat) (k : nat)          (* the k-th pending timer runs *)
  | Close (t : nat).

Definition eventTime (e : Event) : nat :=
  match e with Show t _ _ | Fire t _ | Close t => t end.

Definition step (s : State) (e : Event) : option State :=
  if now s <=? eventTime e then
    match e with
    | Show t message type => Some (showToast t message type s)
    | Fire t k =>
        match timers s !! k with
        | Some (d, i) =>
            if d <=? t then
              Some {| now := t; toast := dismiss i (toast s);
                      timers := delete k (timers s) |}
            else None
        | None => None
        end
    | Close t => Some (closeToast t s)
    end
  else None.

Fixpoint exec (s : State) (es : list Event) : option State :=
  match es with
  | [] => Some s
  | e :: es' =>
      match step s e with
      | Some s' => exec s' es'
      | None => None
      end
  end.

(** Every pending timer was set 5000 ms before its deadline, at the time
    its id spells; the visible toast was shown at the time its id spells
    and its own timer is still pending. *)
Record Inv (s : State) : Prop := {
  inv_timers :
    ∀ d i, (d, i) ∈ timers s → ∃ t0, i = pretty t0 ∧ d = t0 + 5000 ∧ t0 ≤ now s;
  inv_toast :
    ∀ m, toast s = Some m →
         ∃ t0, toast_id m = pretty t0 ∧ t0 ≤ now s
               ∧ (t0 + 5000, pretty t0) ∈ timers s;
}.

End Toast.

(** ** The authentication hook ([useAuthSystem])

    The part of the hook that keeps [user]: the [onAuthStateChanged]
    listener, the profile subscription it opens, and [performLogout].  The
    records carry the fields of [UserProfile] kept above; the [loading],
    [processing] and [error] flags and the sign-in and registration
    helpers, which only forward to Firebase, are not modelled, and neither
    are calls of the [setUser] the hook hands out. *)

Module Auth.

Record FirebaseUser := {
  fu_uid : string;
  fu_displayName : option string;
  fu_email : option string;
}.

(** A profile snapshot of the database: each key may be missing. *)
Record DbProfile := {
  db_displayName : option (option string);
  db_isAdministrator : option bool;
}.

Inductive Action :=
  | saveUserProfileToDB (firebaseUser : FirebaseUser)
  | firebaseLogout.

Record State := {
  now : nat;
  user : option UserProfile;
  isProfileLoaded : bool;                     (* [isProfileLoaded.current] *)
  loginTimeRef : nat;                         (* [loginTimeRef.current] *)
  profileSubscription : option FirebaseUser;  (* the open profile subscription *)
  logoutsPending : nat;                       (* unsettled [firebaseLogout()] promises *)
}.

Definition initial : State :=
  {| now := 0; user := None; isProfileLoaded := false; loginTimeRef := 0;
     profileSubscription := None; logoutsPending := 0 |}.

(** [s || d] on an optional string: [null] and the empty string give [d]. *)
Definition str_or (s : option string) (d : string) : string :=
  match s with
  | Some EmptyString | None => d
  | Some x => x
  end.

(** [basicUser] and [newProfile]: both are built from the Firebase user in
    the same way. *)
Definition basicUser (firebaseUser : FirebaseUser) : UserProfile :=
  {| uid := fu_uid firebaseUser;
     displayName := Some (str_or (fu_displayName firebaseUser) "Usuário");
     email := fu_email firebaseUser;
     isAdministrator := Some false |}.

(** The listener of [onAuthStateChanged]. *)
Definition authStateChanged (t : nat) (firebaseUser : option FirebaseUser)
    (s : State) : State :=
  match firebaseUser with
  | Some fu =>
      {| now := t;
         (* setUser(prev => prev?.uid === firebaseUser.uid ? prev : basicUser) *)
         user := Some match user s with
                      | Some prev =>
                          if String.eqb (uid prev) (fu_uid fu) then prev
                          else basicUser fu
                      | None => basicUser fu
                      end;
         isProfileLoaded := isProfileLoaded s;
         loginTimeRef := t;
         profileSubscription := Some fu;
         logoutsPending := logoutsPending s |}
  | None =>
      {| now := t; user := None; isProfileLoaded := false; loginTimeRef := 0;
         profileSubscription := None; logoutsPending := logoutsPending s |}
  end.

(** The callback of [subscribeToUserProfile] for the Firebase user [fu] of
    the open subscription. *)
Definition profileSnapshot (t : nat) (fu : FirebaseUser)
    (dbProfile : option DbProfile) (s : State) : State * list Action :=
  match dbProfile with
  | Some p =>
      (* { ...prev, ...dbProfile, uid, email, isAdministrator: ... || false } *)
      ({| now := t;
          user := Some {| uid := fu_uid fu;
                          displayName := match db_displayName p with
                                         | Some v => v
                                         | None => user s ≫= displayName
                                         end;
                          email := fu_email fu;
                          isAdministrator := Some (truthy (db_isAdministrator p)) |};
          isProfileLoaded := true;
          loginTimeRef := loginTimeRef s;
          profileSubscription := profileSubscription s;
          logoutsPending := logoutsPending s |}, [])
  | None =>
      if isProfileLoaded s then
        ({| now := t; user := user s; isProfileLoaded := true;
            loginTimeRef := loginTimeRef s;
            profileSubscription := profileSubscription s;
            logoutsPending := logoutsPending s |}, [])
      else
        ({| now := t; user := Some (basicUser fu); isProfileLoaded := true;
            loginTimeRef := loginTimeRef s;
            profileSubscription := profileSubscription s;
            logoutsPending := logoutsPending s |}, [saveUserProfileToDB fu])
  end.

(** [performLogout] up to its [await]. *)
Definition performLogout (t : nat) (s : State) : State * list Action :=
  if (Z.of_nat t - Z.of_nat (loginTimeRef s) <? 5000)%Z then
    ({| now := t; user := user s; isProfileLoaded := isProfileLoaded s;
        loginTimeRef := loginTimeRef s;
        profileSubscription := profileSubscription s;
        logoutsPending := logoutsPending s |}, [])
  else
    ({| now := t; user := user s; isProfileLoaded := isProfileLoaded s;
        loginTimeRef := loginTimeRef s;
        profileSubscription := profileSubscription s;
        logoutsPending := S (logoutsPending s) |}, [firebaseLogout]).

(** [await firebaseLogout()] settles: resolved, [setUser(null)] runs;
    rejected, the exception leaves [performLogout]. *)
Definition logoutSettled (t : nat) (ok : bool) (s : State) : option State :=
  match logoutsPending s with
  | S n =>
      Some {| now := t;
              user := if ok then None else user s;
              isProfileLoaded := isProfileLoaded s;
              loginTimeRef := loginTimeRef s;
              profileSubscription := profileSubscription s;
              logoutsPending := n |}
  | O => None
  end.

Inductive Event :=
  | AuthStateChanged (t : nat) (firebaseUser : option FirebaseUser)
  | ProfileSnapshot (t : nat) (dbProfile : option DbProfile)
  | LogoutClick (t : nat)
  | LogoutSettled (t : nat) (ok : bool).

Definition eventTime (e : Event) : nat :=
  match e with
  | AuthStateChanged t _ | ProfileSnapshot t _
  | LogoutClick t | LogoutSettled t _ => t
  end.

Abbreviation Trace := (list (nat * Action)).

Definition stamp (t : nat) (acts : list Action) : Trace :=
  map (λ a, (t, a)) acts.

(** One event; a profile snapshot is delivered only while the profile
    subscription is open. *)
Definition step (s : State) (e : Event) : option (State * Trace) :=
  if now s <=? eventTime e then
    match e with
    | AuthStateChanged t fu => Some (authStateChanged t fu s, [])
    | ProfileSnapshot t db =>
        match profileSubscription s with
        | Some fu =>
            Some ((profileSnapshot t fu db s).1,
                  stamp t (profileSnapshot t fu db s).2)
        | None => None
        end
    | LogoutClick t =>
        Some ((performLogout t s).1, stamp t (performLogout t s).2)
    | LogoutSettled t ok =>
        match logoutSettled t ok s with
        | Some s' => Some (s', [])
        | None => None
        end
    end
  else None.

Fixpoint exec (s : State) (es : list Event) : option (State * Trace) :=
  match es with
  | [] => Some (s, [])
  | e :: es' =>
      match step s e with
      | Some (s', tr) =>
          match exec s' es' with
          | Some (s'', tr') => Some (s'', tr ++ tr')
          | None => None
          end
      | None => None
      end
  end.

Definition isAuthEvent (e : Event) : bool :=
  match e with AuthStateChanged _ _ => true | _ => false end.

Definition isSignOut (e : Event) : bool :=
  match e with AuthStateChanged _ None => true | _ => false end.

Definition isSave (a : Action) : bool :=
  match a with saveUserProfileToDB _ => true | firebaseLogout => false end.

(** The user, when set, has the uid of the Firebase user of the open
    subscription. *)
Definition uidOk (s : State) : Prop :=
  ∀ u, user s = Some u →
       ∃ fu, profileSubscription s = Some fu ∧ uid u = fu_uid fu.

Definition isAdmin (s : State) : Prop :=
  ∃ u, user s = Some u ∧ isAdministrator u = Some true.

(** A profile snapshot that carries [isAdministrator: true]. *)
Definition adminSnapshot (e : Event) : Prop :=
  ∃ t p, e = ProfileSnapshot t (Some p) ∧ db_isAdministrator p = Some true.

End Auth.

(** ** The subscriptions of [useFinancialData] *)

Module Streams.

Inductive Kind :=
  | Transactions | Goals | Stats | Recurring | CustomCategories
  | GlobalAchievements | UserAchievements.

(** An open subscription: its unsubscribe handle, the collection, and the
    uid it is scoped by ([subscribeToAchievements] takes none). *)
Record Subscription := {
  sub_handle : nat;
  sub_kind : Kind;
  sub_uid : option string;
}.

Record State := {
  subscriptions : list Subscription;   (* the open subscriptions *)
  effectCleanup : list nat;            (* what the cleanup of the effect unsubscribes *)
  nextHandle : nat;
}.

Definition initial : State :=
  {| subscriptions := []; effectCleanup := []; nextHandle := 0 |}.

(** The seven [subscribeTo...] calls, in the order of the source. *)
Definition subscribeAll (uid : string) (h : nat) : list Subscription :=
  [{| sub_handle := h; sub_kind := Transactions; sub_uid := Some uid |};
   {| sub_handle := h + 1; sub_kind := Goals; sub_uid := Some uid |};
   {| sub_handle := h + 2; sub_kind := Stats; sub_uid := Some uid |};
   {| sub_handle := h + 3; sub_kind := Recurring; sub_uid := Some uid |};
   {| sub_handle := h + 4; sub_kind := CustomCategories; sub_uid := Some uid |};
   {| sub_handle := h + 5; sub_kind := GlobalAchievements; sub_uid := None |};
   {| sub_handle := h + 6; sub_kind := UserAchievements; sub_uid := Some uid |}].

Definition unsubscribe (handles : list nat) (subs : list Subscription)
    : list Subscription :=
  List.filter (λ sub, negb (existsb (Nat.eqb (sub_handle sub)) handles)) subs.

(** [user && user.uid]: a user with a non-empty uid. *)
Definition activeUid (user : option UserProfile) : option string :=
  match user with
  | Some u => if String.eqb (uid u) "" then None else Some (uid u)
  | None => None
  end.

(** The body of the effect. *)
Definition dataEffect (user : option UserProfile) (s : State) : State :=
  match activeUid user with
  | Some i =>
      {| subscriptions := subscriptions s ++ subscribeAll i (nextHandle s);
         effectCleanup := sub_handle <$> subscribeAll i (nextHandle s);
         nextHandle := nextHandle s + 7 |}
  | None =>
      {| subscriptions := subscriptions s; effectCleanup := [];
         nextHandle := nextHandle s |}
  end.

(** A render that re-runs the effect: the cleanup of the previous run,
    then the body. *)
Definition commit (s : State) (user : option UserProfile) : State :=
  dataEffect user
    {| subscriptions := unsubscribe (effectCleanup s) (subscriptions s);
       effectCleanup := [];
       nextHandle := nextHandle s |}.

End Streams.

(** ** The error boundary (index.tsx) *)

Module Boundary.

(** A JavaScript [Error], as far as the boundary reads it. *)
Record Error := { err_message : string }.

Record State := { hasError : bool; error : option Error }.

Definition initial : State := {| hasError := false; error := None |}.

Definition getDerivedStateFromError (e : Error) : State :=
  {| hasError := true; error := Some e |}.

Inductive View := Fallback (message : string) | Children.

(** [render]: the text shown is [error?.message || "Erro desconhecido"]. *)
Definition render (s : State) : View :=
  if hasError s
  then Fallback (Auth.str_or (err_message <$> error s) "Erro desconhecido")
  else Children.

(** The state after a series of errors caught one after the other. *)
Definition caught (errors : list Error) : State :=
  foldl (λ _ e, getDerivedStateFromError e) initial errors.

End Boundary.

(** ** What [App] renders *)

Inductive Screen :=
  | MaintenanceScreen
  | AuthSpinner
  | LoginScreen
  | MainLayout (adminPanel : bool).

(** The chain of early returns at the end of [App], in the order of the
    source, and whether the main layout includes the admin panel. *)
Definition screen (isMaintenance authLoading : bool)
    (user : option UserProfile) (activeTab : string) : Screen :=
  (* if (isMaintenance && user && !user.isAdministrator) *)
  if isMaintenance
     && match user with
        | Some u => negb (truthy (isAdministrator u))
        | None => false
        end
  then MaintenanceScreen
  (* if (authLoading && !user) *)
  else if authLoading && negb (bool_decide (is_Some user))
  then AuthSpinner
  else match user with
       | None => LoginScreen   (* if (!user) *)
       | Some u =>
           (* activeTab === 'admin' && user.isAdministrator && <AdminPanel/> *)
           MainLayout (String.eqb activeTab "admin"
                       && truthy (isAdministrator u))
       end.

(** ** More sample data *)

Module MoreSamples.

Definition bob : Auth.FirebaseUser :=
  {| Auth.fu_uid := "bob"; Auth.fu_displayName := None;
     Auth.fu_email := Some "bob@example.org" |}.

Definition adminProfile : Auth.DbProfile :=
  {| Auth.db_displayName := Some (Some "Bob");
     Auth.db_isAdministrator := Some true |}.

(** Bob signs in and the first snapshot of his profile arrives. *)
Definition bobRun : list Auth.Event :=
  [Auth.AuthStateChanged 1000 (Some bob);
   Auth.ProfileSnapshot 1100 (Some adminProfile)].

(** The catalog has drifted, the repair has failed at 500. *)
Definition coolingRun : list Event :=
  [Commit 0 Samples.drifted; SettleRepair 500 false].

End MoreSamples.

(** * Properties *)

(** ** Rounding to a double *)

Lemma pow2_pos e : (0 < pow2 e)%Q.
Proof. by apply Qpower_0_lt. Qed.

Lemma pow2_add a b : pow2 (a + b) == pow2 a * pow2 b.
Proof. unfold pow2. by apply Qpower_plus. Qed.

Lemma pow2_le a b : (a ≤ b)%Z → (pow2 a <= pow2 b)%Q.
Proof. intros H. by apply Qpower_le_compat_l. Qed.

Lemma pow2_lt_inv a b : (pow2 a < pow2 b)%Q → (a < b)%Z.
Proof. intros H. by eapply Qpower_lt_compat_l_inv. Qed.

Lemma pow2_Z a : (0 ≤ a)%Z → pow2 a == inject_Z (2 ^ a).
Proof. intros H. unfold pow2. by rewrite Zpower_Qpower. Qed.

Lemma pow2_sub a b : pow2 (a - b) == pow2 a / pow2 b.
Proof.
  unfold pow2. rewrite Qpower_minus; [reflexivity|done].
Qed.

Lemma inject_Z_pos b : (0 < b)%Z → (0 < inject_Z b)%Q.
Proof. intros H. change 0%Q with (inject_Z 0). by rewrite <- Zlt_Qlt. Qed.

Lemma Qfrac_le (a b c d : Z) :
  (0 < b)%Z → (0 < d)%Z → (a * d ≤ c * b)%Z →
  (inject_Z a / inject_Z b <= inject_Z c / inject_Z d)%Q.
Proof.
  intros Hb Hd H.
  apply Qle_shift_div_l; [by apply inject_Z_pos|].
  unfold Qdiv. rewrite <- Qmult_assoc, (Qmult_comm (/ _)), Qmult_assoc.
  apply Qle_shift_div_r; [by apply inject_Z_pos|].
  rewrite <- !inject_Z_mult. by rewrite <- Zle_Qle.
Qed.

Lemma Qfrac_lt (a b c d : Z) :
  (0 < b)%Z → (0 < d)%Z → (a * d < c * b)%Z →
  (inject_Z a / inject_Z b < inject_Z c / inject_Z d)%Q.
Proof.
  intros Hb Hd H.
  apply Qlt_shift_div_l; [by apply inject_Z_pos|].
  unfold Qdiv. rewrite <- Qmult_assoc, (Qmult_comm (/ _)), Qmult_assoc.
  apply Qlt_shift_div_r; [by apply inject_Z_pos|].
  rewrite <- !inject_Z_mult. by rewrite <- Zlt_Qlt.
Qed.

Lemma Qpos_num x : (0 < x)%Q → (0 < Qnum x)%Z.
Proof. unfold Qlt. simpl. lia. Qed.

(** [ilog2] is the floor of the binary logarithm. *)
Lemma ilog2_spec x :
  (0 < x)%Q → (pow2 (ilog2 x) <= x)%Q ∧ (x < pow2 (ilog2 x + 1))%Q.
Proof.
  intros Hx. pose proof (Qpos_num x Hx) as Hn.
  pose proof (Z.log2_spec (Qnum x) Hn) as [Hn1 Hn2].
  pose proof (Z.log2_spec (Zpos (Qden x)) eq_refl) as [Hd1 Hd2].
  pose proof (Z.log2_nonneg (Qnum x)) as Hln.
  pose proof (Z.log2_nonneg (Zpos (Qden x))) as Hld.
  set (ln := Z.log2 (Qnum x)) in *. set (ld := Z.log2 (Zpos (Qden x))) in *.
  assert (Hxq : x == inject_Z (Qnum x) / inject_Z (Zpos (Qden x))).
  { destruct x as [n d]. apply Qmake_Qdiv. }
  assert (Hpn : (0 < 2 ^ ln)%Z) by (apply Z.pow_pos_nonneg; lia).
  assert (Hpd : (0 < 2 ^ ld)%Z) by (apply Z.pow_pos_nonneg; lia).
  assert (Hlow : (pow2 (ln - ld - 1) <= x)%Q).
  { replace (ln - ld - 1)%Z with (ln - (ld + 1))%Z by lia.
    rewrite pow2_sub, !pow2_Z by lia. rewrite Hxq.
    apply Qfrac_le; [apply Z.pow_pos_nonneg; lia|done|].
    replace (Z.succ ld) with (ld + 1)%Z in Hd2 by lia. nia. }
  assert (Hup : (x < pow2 (ln - ld + 1))%Q).
  { replace (ln - ld + 1)%Z with (ln + 1 - ld)%Z by lia.
    rewrite pow2_sub, !pow2_Z by lia. rewrite Hxq.
    apply Qfrac_lt; [done..|].
    replace (Z.succ ln) with (ln + 1)%Z in Hn2 by lia. nia. }
  unfold ilog2. fold ln ld.
  destruct (Qle_bool (pow2 (ln - ld)) x) eqn:E.
  - apply Qle_bool_iff in E. done.
  - split; [done|].
    replace (ln - ld - 1 + 1)%Z with (ln - ld)%Z by lia.
    apply Qnot_le_lt. intros H. apply Qle_bool_iff in H. congruence.
Qed.

Lemma ilog2_ge a x : (0 < x)%Q → (pow2 a <= x)%Q → (a ≤ ilog2 x)%Z.
Proof.
  intros Hx Ha. destruct (ilog2_spec x Hx) as [_ Hup].
  assert (a < ilog2 x + 1)%Z; [|lia].
  apply pow2_lt_inv. by eapply Qle_lt_trans.
Qed.

Lemma roundHalfEven_floor y :
  (Qfloor y ≤ roundHalfEven y ≤ Qfloor y + 1)%Z.
Proof.
  unfold roundHalfEven.
  destruct (y - inject_Z (Qfloor y) ?= 1 # 2)%Q; [|lia..].
  destruct (Z.even (Qfloor y)); lia.
Qed.

Lemma roundHalfEven_ge k y : (inject_Z k <= y)%Q → (k ≤ roundHalfEven y)%Z.
Proof.
  intros H. apply Qfloor_resp_le in H. rewrite Qfloor_Z in H.
  pose proof (roundHalfEven_floor y). lia.
Qed.

Lemma roundHalfEven_le k y : (y <= inject_Z k)%Q → (roundHalfEven y ≤ k)%Z.
Proof.
  intros H. pose proof (Qfloor_le y) as Hf.
  assert (Hfk : (Qfloor y ≤ k)%Z).
  { apply Qfloor_resp_le in H. by rewrite Qfloor_Z in H. }
  assert (Hup : (0 < y - inject_Z (Qfloor y))%Q → (Qfloor y + 1 ≤ k)%Z).
  { intros Hpos. assert (Qfloor y < k)%Z; [|lia].
    rewrite Zlt_Qlt. lra. }
  unfold roundHalfEven.
  destruct (Qcompare_spec (y - inject_Z (Qfloor y)) (1 # 2)) as [E|E|E].
  - destruct (Z.even (Qfloor y)); [done|]. apply Hup. rewrite E. reflexivity.
  - done.
  - apply Hup. lra.
Qed.

Lemma roundHalfEven_near y :
  (Qabs (inject_Z (roundHalfEven y) - y) <= 1 # 2)%Q.
Proof.
  pose proof (Qfloor_le y) as Hf. pose proof (Qlt_floor y) as Hc.
  rewrite inject_Z_plus in Hc. change (inject_Z 1) with 1%Q in Hc.
  apply Qabs_Qle_condition. unfold roundHalfEven.
  destruct (Qcompare_spec (y - inject_Z (Qfloor y)) (1 # 2)) as [E|E|E].
  - destruct (Z.even (Qfloor y));
      [|rewrite inject_Z_plus; change (inject_Z 1) with 1%Q]; lra.
  - lra.
  - rewrite inject_Z_plus. change (inject_Z 1) with 1%Q. lra.
Qed.

Lemma scaled_le k x e :
  (inject_Z k * pow2 e <= x)%Q → (inject_Z k <= x / pow2 e)%Q.
Proof. intros H. apply Qle_shift_div_l; [apply pow2_pos|done]. Qed.

Lemma scaled_ge k x e :
  (x <= inject_Z k * pow2 e)%Q → (x / pow2 e <= inject_Z k)%Q.
Proof. intros H. apply Qle_shift_div_r; [apply pow2_pos|done]. Qed.

Lemma roundPos_ge_scaled k x :
  (inject_Z k * pow2 (ulpExp x) <= x)%Q →
  (inject_Z k * pow2 (ulpExp x) <= roundPos x)%Q.
Proof.
  intros H. unfold roundPos.
  apply Qmult_le_compat_r; [|apply Qlt_le_weak, pow2_pos].
  rewrite <- Zle_Qle. by apply roundHalfEven_ge, scaled_le.
Qed.

Lemma roundPos_le_scaled k x :
  (x <= inject_Z k * pow2 (ulpExp x))%Q →
  (roundPos x <= inject_Z k * pow2 (ulpExp x))%Q.
Proof.
  intros H. unfold roundPos.
  apply Qmult_le_compat_r; [|apply Qlt_le_weak, pow2_pos].
  rewrite <- Zle_Qle. by apply roundHalfEven_le, scaled_ge.
Qed.

(** A double [m * 2^a] below [x] is below the rounding of [x]. *)
Lemma roundPos_ge m a x :
  (0 < x)%Q → (0 < m < 2 ^ 53)%Z → (-1074 ≤ a)%Z →
  (inject_Z m * pow2 a <= x)%Q →
  (inject_Z m * pow2 a <= roundPos x)%Q.
Proof.
  intros Hx Hm Ha Hle.
  destruct (Z_le_gt_dec (ulpExp x) a) as [Hex|Hex].
  - assert (Heq : inject_Z (m * 2 ^ (a - ulpExp x)) * pow2 (ulpExp x)
                  == inject_Z m * pow2 a).
    { rewrite inject_Z_mult, <- pow2_Z by lia.
      rewrite <- Qmult_assoc, <- pow2_add.
      by replace (a - ulpExp x + ulpExp x)%Z with a by lia. }
    rewrite <- Heq in *. by apply roundPos_ge_scaled.
  - assert (He : ulpExp x = (ilog2 x - 52)%Z) by (unfold ulpExp in *; lia).
    destruct (ilog2_spec x Hx) as [Hlow _].
    assert (Heq : inject_Z (2 ^ 52) * pow2 (ulpExp x) == pow2 (ilog2 x)).
    { rewrite <- pow2_Z by lia. rewrite <- pow2_add.
      by replace (52 + ulpExp x)%Z with (ilog2 x) by lia. }
    eapply Qle_trans; [|apply (roundPos_ge_scaled (2 ^ 52)); by rewrite Heq].
    rewrite Heq.
    eapply Qle_trans; [|apply (pow2_le (53 + a)); lia].
    rewrite pow2_add, (pow2_Z 53) by lia.
    apply Qmult_le_compat_r; [|apply Qlt_le_weak, pow2_pos].
    rewrite <- Zle_Qle. lia.
Qed.

(** A double [m * 2^a] above [x] is above the rounding of [x]. *)
Lemma roundPos_le m a x :
  (0 < x)%Q → (0 < m < 2 ^ 53)%Z → (-1074 ≤ a)%Z →
  (x <= inject_Z m * pow2 a)%Q →
  (roundPos x <= inject_Z m * pow2 a)%Q.
Proof.
  intros Hx Hm Ha Hle.
  assert (Hex : (ulpExp x ≤ a)%Z).
  { destruct (ilog2_spec x Hx) as [Hlow _].
    assert (Hlt : (pow2 (ilog2 x) < pow2 (53 + a))%Q).
    { eapply Qle_lt_trans; [apply Hlow|].
      eapply Qle_lt_trans; [apply Hle|].
      rewrite pow2_add, (pow2_Z 53) by lia.
      apply Qmult_lt_compat_r; [apply pow2_pos|].
      rewrite <- Zlt_Qlt. lia. }
    apply pow2_lt_inv in Hlt. unfold ulpExp. lia. }
  assert (Heq : inject_Z (m * 2 ^ (a - ulpExp x)) * pow2 (ulpExp x)
                == inject_Z m * pow2 a).
  { rewrite inject_Z_mult, <- pow2_Z by lia.
    rewrite <- Qmult_assoc, <- pow2_add.
    by replace (a - ulpExp x + ulpExp x)%Z with a by lia. }
  rewrite <- Heq in *. by apply roundPos_le_scaled.
Qed.

Lemma toDouble_pos x : (0 < x)%Q → toDouble x = roundPos x.
Proof.
  intros Hx%Qpos_num. unfold toDouble. by destruct (Qnum x).
Qed.

Lemma toDouble_ge m a x :
  (0 < m < 2 ^ 53)%Z → (-1074 ≤ a)%Z →
  (inject_Z m * pow2 a <= x)%Q →
  (inject_Z m * pow2 a <= toDouble x)%Q.
Proof.
  intros Hm Ha Hle.
  assert (Hx : (0 < x)%Q).
  { eapply Qlt_le_trans; [|apply Hle].
    apply Qmult_lt_0_compat; [apply inject_Z_pos; lia|apply pow2_pos]. }
  rewrite toDouble_pos by done. by apply roundPos_ge.
Qed.

Lemma toDouble_exact m a x :
  (0 < m < 2 ^ 53)%Z → (-1074 ≤ a)%Z →
  x == inject_Z m * pow2 a → toDouble x == x.
Proof.
  intros Hm Ha Heq.
  assert (Hx : (0 < x)%Q).
  { rewrite Heq.
    apply Qmult_lt_0_compat; [apply inject_Z_pos; lia|apply pow2_pos]. }
  rewrite toDouble_pos by done. apply Qle_antisym.
  - rewrite Heq at 2. apply roundPos_le; [done..|]. rewrite Heq. apply Qle_refl.
  - rewrite Heq at 1. apply roundPos_ge; [done..|]. rewrite Heq. apply Qle_refl.
Qed.

(** The relative error of a rounding in the normal range is at most
    [2^-53]. *)
Lemma toDouble_error x :
  (pow2 (-1022) <= x)%Q →
  (Qabs (toDouble x - x) <= x * pow2 (-53))%Q.
Proof.
  intros Hn.
  assert (Hx : (0 < x)%Q) by (eapply Qlt_le_trans; [apply pow2_pos|done]).
  rewrite toDouble_pos by done.
  pose proof (ilog2_ge _ _ Hx Hn) as He.
  destruct (ilog2_spec x Hx) as [Hlow _].
  assert (Hu : ulpExp x = (ilog2 x - 52)%Z) by (unfold ulpExp; lia).
  pose proof (pow2_pos (ulpExp x)) as Hp.
  pose proof (roundHalfEven_near (x / pow2 (ulpExp x))) as Hr.
  set (r := inject_Z (roundHalfEven (x / pow2 (ulpExp x)))) in *.
  assert (Hd : roundPos x - x == (r - x / pow2 (ulpExp x)) * pow2 (ulpExp x)).
  { unfold roundPos. fold r. field. intros H0. rewrite H0 in Hp.
    by apply Qlt_irrefl in Hp. }
  rewrite Hd, Qabs_Qmult, (Qabs_pos (pow2 _)) by by apply Qlt_le_weak.
  eapply Qle_trans.
  { apply Qmult_le_compat_r; [apply Hr|by apply Qlt_le_weak]. }
  assert (Hs : (1 # 2) * pow2 (ulpExp x) == pow2 (ilog2 x) * pow2 (-53)).
  { rewrite <- pow2_add, Hu.
    replace (ilog2 x + -53)%Z with (-1 + (ilog2 x - 52))%Z by lia.
    rewrite pow2_add. reflexivity. }
  rewrite Hs.
  apply Qmult_le_compat_r; [done|apply Qlt_le_weak, pow2_pos].
Qed.


(** ** The merged view *)

Lemma merge_length catalog (ledger : Ledger) :
  length (merge catalog ledger) = length catalog.
Proof. unfold merge. apply length_map. Qed.

Lemma merge_lookup catalog (ledger : Ledger) i :
  merge catalog ledger !! i = mergeOne ledger <$> catalog !! i.
Proof. unfold merge. apply list_lookup_fmap. Qed.

Lemma elem_of_merge catalog (ledger : Ledger) m :
  m ∈ merge catalog ledger ↔ ∃ ach, m = mergeOne ledger ach ∧ ach ∈ catalog.
Proof. unfold merge. apply list_elem_of_fmap. Qed.

Lemma mergeOne_ext (l1 l2 : Ledger) ach :
  l1 !! id ach = l2 !! id ach → mergeOne l1 ach = mergeOne l2 ach.
Proof. intros H. unfold mergeOne. by rewrite H. Qed.

Lemma num_or_0_carries q : (num_or_0 (Some q) == q)%Q.
Proof.
  simpl. destruct (Qeq_bool q 0) eqn:E; [|reflexivity].
  apply Qeq_bool_iff in E. by rewrite E.
Qed.

(** C6: [merge] is total and deterministic.  The merged view has exactly one
    entry per catalog entry, in catalog order; an entry whose identifier
    has a ledger record carries the record's unlocked flag, timestamp and
    progress (a missing field reads as locked, no timestamp, 0), an entry
    without a record is locked with progress 0 and no timestamp; the
    result depends on the ledger only through the records of the catalog's
    identifiers, so equal inputs give equal views. *)
Theorem merge_total_deterministic (catalog : list Achievement) (ledger : Ledger) :
  length (merge catalog ledger) = length catalog
  ∧ (∀ i ach, catalog !! i = Some ach →
       ∃ m, merge catalog ledger !! i = Some m
            ∧ id m = id ach ∧ title m = title ach
            ∧ description m = description ach
            ∧ conditionType m = conditionType ach
            ∧ conditionValue m = conditionValue ach
            ∧ isSystem m = isSystem ach
            ∧ (∀ r, ledger !! id ach = Some r →
                 isUnlocked m = truthy (u_isUnlocked r)
                 ∧ (∀ b, u_isUnlocked r = Some b → isUnlocked m = b)
                 ∧ unlockedAt m = u_unlockedAt r
                 ∧ progress m = Some (num_or_0 (u_progress r))
                 ∧ (∀ q, u_progress r = Some q → (num_or_0 (u_progress r) == q)%Q))
            ∧ (ledger !! id ach = None →
                 isUnlocked m = false ∧ unlockedAt m = None
                 ∧ progress m = Some 0%Q))
  ∧ (∀ ledger' : Ledger,
       (∀ ach, ach ∈ catalog → ledger' !! id ach = ledger !! id ach) →
       merge catalog ledger' = merge catalog ledger).
Proof.
  split; [apply merge_length|]. split.
  - intros i ach Hi. exists (mergeOne ledger ach).
    rewrite merge_lookup, Hi. simpl.
    split_and!; try done.
    + intros r Hr. rewrite Hr. simpl. split_and!; try done.
      * intros b Hb. by rewrite Hb.
      * intros q Hq. rewrite Hq. apply num_or_0_carries.
    + intros Hnone. by rewrite Hnone.
  - intros ledger' Hagree. unfold merge.
    apply map_ext_in. intros ach Hin.
    apply mergeOne_ext, Hagree. by apply list_elem_of_In.
Qed.

(** ** The loop over the captured achievements *)

Lemma quotient_ge (k : Z) (n : nat) :
  (5 * k ≤ Z.of_nat n)%Z → (inject_Z k <= inject_Z (Z.of_nat n) / 5)%Q.
Proof.
  intros H. unfold Qle, Qdiv, Qmult, Qinv, inject_Z. simpl.
  rewrite Pos.mul_1_l. lia.
Qed.

Lemma count_complete n : Qle_bool 100 (count_progress n) = (5 <=? n).
Proof.
  unfold count_progress. destruct (Nat.leb_spec 5 n) as [H|H].
  - apply Qle_bool_iff.
    assert (Hq : (1 <= toDouble (inject_Z (Z.of_nat n) / 5))%Q).
    { apply (toDouble_ge 1 0); [lia..|].
      change (inject_Z 1 * pow2 0)%Q with (inject_Z 1).
      apply quotient_ge. lia. }
    apply (toDouble_ge 25 2); [lia..|].
    change (inject_Z 25 * pow2 2)%Q with ((1 * 100)%Q).
    apply Qmult_le_compat_r; [done|discriminate].
  - do 5 (destruct n as [|n]; [by vm_compute|]). lia.
Qed.

(** The value is not capped: from 6 records on it exceeds 100. *)
Lemma count_progress_uncapped n : 6 ≤ n → (100 < count_progress n)%Q.
Proof.
  intros H. unfold count_progress.
  assert (Hq : (9 # 8 <= toDouble (inject_Z (Z.of_nat n) / 5))%Q).
  { apply (toDouble_ge 9 (-3)); [lia..|].
    change (inject_Z 9 * pow2 (-3))%Q with (9 # 8)%Q.
    unfold Qle, Qdiv, Qmult, Qinv, inject_Z. simpl. lia. }
  eapply Qlt_le_trans; [|apply (toDouble_ge 225 (-1)); [lia..|]].
  - reflexivity.
  - apply Qle_trans with ((9 # 8) * 100)%Q; [discriminate|].
    apply Qmult_le_compat_r; [done|discriminate].
Qed.

(** On a multiple of 5 both roundings are exact. *)
Lemma count_progress_exact (k : nat) :
  (Z.of_nat (5 * k) ≤ maxArrayLength)%Z →
  count_progress (5 * k) == 100 * inject_Z (Z.of_nat (5 * k)) / 5.
Proof.
  unfold maxArrayLength. intros Hk. destruct k as [|k]; [reflexivity|].
  set (n := S k) in *. unfold count_progress.
  assert (Hx : inject_Z (Z.of_nat (5 * n)) / 5 == inject_Z (Z.of_nat n)).
  { rewrite Nat2Z.inj_mul, inject_Z_mult. change (inject_Z (Z.of_nat 5)) with 5%Q.
    field. }
  assert (Hq : toDouble (inject_Z (Z.of_nat (5 * n)) / 5) == inject_Z (Z.of_nat n)).
  { rewrite (toDouble_exact (Z.of_nat n) 0); [done|lia|lia|].
    rewrite Hx. change (pow2 0) with 1%Q. ring. }
  assert (Hy : toDouble (inject_Z (Z.of_nat (5 * n)) / 5) * 100
               == inject_Z (100 * Z.of_nat n) * pow2 0).
  { rewrite Hq, inject_Z_mult. change (pow2 0) with 1%Q.
    change (inject_Z 100) with 100%Q. ring. }
  rewrite (toDouble_exact (100 * Z.of_nat n) 0); [|lia|lia|done].
  rewrite Hq, Nat2Z.inj_mul, inject_Z_mult.
  change (inject_Z (Z.of_nat 5)) with 5%Q. field.
Qed.

(** In general the value is [100 * count / 5] up to the two roundings: the
    relative error is at most [2^-51]. *)
Lemma count_progress_error n :
  (Qabs (count_progress n - 100 * inject_Z (Z.of_nat n) / 5)
   <= 100 * inject_Z (Z.of_nat n) / 5 * pow2 (-51))%Q.
Proof.
  destruct n as [|n]; [by vm_compute|].
  set (X := (inject_Z (Z.of_nat (S n)) / 5)%Q).
  assert (HX : (1 # 5 <= X)%Q).
  { unfold X, Qle, Qdiv, Qmult, Qinv, inject_Z. simpl. lia. }
  unfold count_progress. fold X.
  set (q := toDouble X).
  assert (Hq : (Qabs (q - X) <= X * pow2 (-53))%Q).
  { apply toDouble_error. eapply Qle_trans; [|apply HX]. by vm_compute. }
  assert (Hq8 : (1 # 8 <= q)%Q).
  { apply (toDouble_ge 1 (-3)); [lia..|].
    eapply Qle_trans; [|apply HX]. by vm_compute. }
  assert (Hp : (Qabs (toDouble (q * 100) - q * 100) <= q * 100 * pow2 (-53))%Q).
  { apply toDouble_error.
    apply Qle_trans with ((1 # 8) * 100)%Q; [by vm_compute|].
    apply Qmult_le_compat_r; [done|discriminate]. }
  set (p := toDouble (q * 100)) in *.
  apply Qabs_Qle_condition in Hq, Hp. apply Qabs_Qle_condition.
  replace (pow2 (-53)) with (1 # 9007199254740992)%Q in * by reflexivity.
  replace (pow2 (-51)) with (1 # 2251799813685248)%Q by reflexivity.
  assert (HXX : 100 * inject_Z (Z.of_nat (S n)) / 5 == 100 * X)
    by (unfold X; field).
  rewrite !HXX. lra.
Qed.

Lemma count_progress_rounds : ¬ count_progress 11 == 100 * 11 / 5.
Proof. intros H. vm_compute in H. discriminate H. Qed.

Lemma bool_complete b : Qle_bool 100 (bool_progress b) = b.
Proof. by destruct b. Qed.

(** On the first two thousand counts the rounding above gives the value
    the binary64 operations of the Standard Library give. *)
Example count_progress_is_binary64 :
  forallb (λ n, match binary64_value (count_progress_binary64 n) with
                | Some q => Qeq_bool q (count_progress n)
                | None => false
                end) (seq 0 2000) = true.
Proof. by vm_compute. Qed.

Section EngineFacts.

Context {rt : Runtime}.


Lemma currentProgress_title c a b :
  title a = title b → currentProgress c a = currentProgress c b.
Proof. intros H. unfold currentProgress. by rewrite H. Qed.

Lemma currentProgress_unrecognized c ach :
  title ach ∉ recognizedTitles → currentProgress c ach = 0%Q.
Proof.
  intros H. unfold currentProgress.
  repeat match goal with
  | |- context [String.eqb (title ach) ?t] =>
      destruct (String.eqb_spec (title ach) t) as [E|_];
      [exfalso; apply H; rewrite E; unfold recognizedTitles;
       repeat first [apply list_elem_of_here | apply list_elem_of_further] |]
  end.
  reflexivity.
Qed.

Lemma runEngine_skip c ach :
  skipped c ach = true →
  ∀ pre post outcomes,
    runEngine c outcomes (pre ++ ach :: post) = runEngine c outcomes (pre ++ post).
Proof.
  intros Hskip. induction pre as [|x pre IH]; intros post outcomes; simpl.
  - unfold skipped in Hskip.
    destruct (isUnlocked ach); [done|]. simpl in Hskip.
    destruct (complete c ach); [done|done].
  - destruct (isUnlocked x); [apply IH|].
    destruct (complete c x); [|apply IH].
    destruct outcomes as [|[|] outcomes']; try done.
    by rewrite IH.
Qed.

Lemma drain_None outcomes : drain None outcomes = [].
Proof. by destruct outcomes. Qed.

(** The whole-pass function is the small-step pass run to the end of its
    outcomes. *)
Lemma runEngine_small_steps c achs :
  ∀ outcomes,
    runEngine c outcomes achs
    = (runLoop c achs).1 ++ drain (runLoop c achs).2 outcomes.
Proof.
  induction achs as [|x achs IH]; intros outcomes; simpl.
  { by rewrite drain_None. }
  destruct (isUnlocked x); [apply IH|].
  destruct (complete c x); [|apply IH].
  simpl. f_equal.
  destruct outcomes as [|[|] outcomes']; simpl; try done.
  - unfold resume. simpl.
    destruct (runLoop c achs) as [acts st] eqn:E. simpl.
    f_equal. by rewrite IH.
  - by rewrite drain_None.
Qed.

Lemma runLoop_actions c achs : (runLoop c achs).1 = runEngine c [] achs.
Proof.
  rewrite runEngine_small_steps.
  destruct (runLoop c achs) as [acts [p|]]; simpl; by rewrite app_nil_r.
Qed.

(** Every unlock call of a pass comes from a captured entry that is
    locked and complete; it carries the captured uid and progress 100. *)
Lemma runEngine_unlock_inv c achs :
  ∀ outcomes u i p,
    unlockUserAchievement u i p ∈ runEngine c outcomes achs →
    ∃ ach, ach ∈ achs ∧ id ach = i ∧ isUnlocked ach = false
           ∧ complete c ach = true ∧ u = uid (c_user c) ∧ p = 100%Q.
Proof.
  induction achs as [|x achs IH]; intros outcomes u i p Hin; simpl in Hin.
  - by apply elem_of_nil in Hin.
  - assert (Hrest : ∀ os, unlockUserAchievement u i p ∈ runEngine c os achs →
              ∃ ach, ach ∈ x :: achs ∧ id ach = i ∧ isUnlocked ach = false
                     ∧ complete c ach = true ∧ u = uid (c_user c) ∧ p = 100%Q).
    { intros os H. destruct (IH _ _ _ _ H) as (a & Ha & Hrest).
      exists a. split; [by apply list_elem_of_further|done]. }
    destruct (isUnlocked x) eqn:Hu; [by eapply Hrest|].
    destruct (complete c x) eqn:Hc; [|by eapply Hrest].
    apply elem_of_cons in Hin as [Heq|Hin].
    + unfold unlockCall in Heq. injection Heq as -> -> ->.
      exists x. split_and!; try done. apply list_elem_of_here.
    + destruct outcomes as [|[|] outcomes'].
      * by apply elem_of_nil in Hin.
      * apply elem_of_cons in Hin as [Heq|Hin]; [discriminate|].
        by eapply Hrest.
      * by apply elem_of_nil in Hin.
Qed.

Lemma runEngine_no_restore c achs :
  ∀ outcomes, restoreDefaultAchievements ∉ runEngine c outcomes achs.
Proof.
  induction achs as [|x achs IH]; intros outcomes Hin; simpl in Hin.
  - by apply elem_of_nil in Hin.
  - destruct (isUnlocked x); [by eapply IH|].
    destruct (complete c x); [|by eapply IH].
    apply elem_of_cons in Hin as [Heq|Hin]; [discriminate|].
    destruct outcomes as [|[|] outcomes'].
    + by apply elem_of_nil in Hin.
    + apply elem_of_cons in Hin as [Heq|Hin]; [discriminate|by eapply IH].
    + by apply elem_of_nil in Hin.
Qed.

End EngineFacts.

Section EngineClaims.

Context {rt : Runtime}.

Lemma complete_false_skip c ach rest outcomes :
  complete c ach = false →
  runEngine c outcomes (ach :: rest) = runEngine c outcomes rest.
Proof. intros Hc. simpl. rewrite Hc. by destruct (isUnlocked ach). Qed.

(** C1 (amended): for a merged achievement that is not yet unlocked the
    pass computes the progress from the achievement's title.  "Mestre das
    Receitas" gets [(incomeCount / 5) * 100] and "Controlador de Gastos"
    gets [(expenseCount / 5) * 100], in double arithmetic: the divisor is
    the constant 5 and the value is not capped at 100.  The value is
    100 * count / 5 up to the two roundings, with a relative error of at
    most 2^-51; it is exactly 100 * count / 5 when the count is a multiple
    of 5, it is not for 11 records, and it exceeds 100 from 6 records on.
    The entry is complete exactly from 5 records on.  "Trabalhador
    Honesto", "Explorador Beta" and "Capitalyx AI" get 100 when the
    salary, beta and AI predicate holds and 0 otherwise.  The condition
    type and the condition threshold of the entry are not consulted:
    entries with the same title get the same progress.  An incomplete
    entry is passed over, a complete one starts with the unlock call
    carrying progress 100. *)
Theorem progress_by_title (c : Closure) (ach : Achievement) :
  (title ach = "Mestre das Receitas" →
     currentProgress c ach = count_progress (incomeCount (c_transactions c))
     ∧ complete c ach = (5 <=? incomeCount (c_transactions c)))
  ∧ (title ach = "Controlador de Gastos" →
     currentProgress c ach = count_progress (expenseCount (c_transactions c))
     ∧ complete c ach = (5 <=? expenseCount (c_transactions c)))
  ∧ (∀ count : nat,
       (Qabs (count_progress count - 100 * inject_Z (Z.of_nat count) / 5)
        <= 100 * inject_Z (Z.of_nat count) / 5 * pow2 (-51))%Q
       ∧ (∀ k, count = 5 * k → (Z.of_nat count ≤ maxArrayLength)%Z →
            (count_progress count == 100 * inject_Z (Z.of_nat count) / 5)%Q)
       ∧ (6 ≤ count → (100 < count_progress count)%Q)
       ∧ Qle_bool 100 (count_progress count) = (5 <=? count))
  ∧ ¬ (count_progress 11 == 100 * 11 / 5)%Q
  ∧ (title ach = "Trabalhador Honesto" →
     currentProgress c ach = (if hasSalary (c_transactions c) then 100 else 0)%Q
     ∧ complete c ach = hasSalary (c_transactions c))
  ∧ (title ach = "Explorador Beta" →
     currentProgress c ach = (if hasUsedBeta (c_userStats c) then 100 else 0)%Q
     ∧ complete c ach = hasUsedBeta (c_userStats c))
  ∧ (title ach = "Capitalyx AI" →
     currentProgress c ach = (if hasUsedAI (c_userStats c) then 100 else 0)%Q
     ∧ complete c ach = hasUsedAI (c_userStats c))
  ∧ (∀ ach', title ach' = title ach →
     currentProgress c ach' = currentProgress c ach)
  ∧ (isUnlocked ach = false →
     ∀ rest outcomes,
       (complete c ach = false →
          runEngine c outcomes (ach :: rest) = runEngine c outcomes rest)
       ∧ (complete c ach = true →
          ∃ tail, runEngine c outcomes (ach :: rest)
                  = unlockUserAchievement (uid (c_user c)) (id ach) 100 :: tail)).
Proof.
  split_and!.
  - intros Ht. unfold complete, currentProgress. rewrite Ht. simpl.
    split; [done | apply count_complete].
  - intros Ht. unfold complete, currentProgress. rewrite Ht. simpl.
    split; [done | apply count_complete].
  - intros count. split_and!.
    + apply count_progress_error.
    + intros k -> Hk. by apply count_progress_exact.
    + apply count_progress_uncapped.
    + apply count_complete.
  - apply count_progress_rounds.
  - intros Ht. unfold complete, currentProgress. rewrite Ht. simpl.
    split; [done | apply bool_complete].
  - intros Ht. unfold complete, currentProgress. rewrite Ht. simpl.
    split; [done | apply bool_complete].
  - intros Ht. unfold complete, currentProgress. rewrite Ht. simpl.
    split; [done | apply bool_complete].
  - intros ach' Ht. by apply currentProgress_title.
  - intros Hu rest outcomes. split.
    + apply complete_false_skip.
    + intros Hc. simpl. rewrite Hu, Hc. eauto.
Qed.

(** C9 (amended): an achievement whose title is none of the five titles
    the loop recognises gets progress 0 and is never complete; the pass
    issues no call for it and goes on with the remaining achievements
    exactly as if the entry were not in the list, whatever the outcomes
    of the other writes. *)
Theorem unrecognized_title_is_noop (c : Closure) (ach : Achievement) :
  title ach ∉ recognizedTitles →
  currentProgress c ach = 0%Q
  ∧ complete c ach = false
  ∧ (∀ outcomes, runEngine c outcomes [ach] = [])
  ∧ (∀ outcomes pre post,
       runEngine c outcomes (pre ++ ach :: post)
       = runEngine c outcomes (pre ++ post)).
Proof.
  intros Ht.
  assert (Hp : currentProgress c ach = 0%Q) by by apply currentProgress_unrecognized.
  assert (Hc : complete c ach = false) by (unfold complete; by rewrite Hp).
  split_and!; try done.
  - intros outcomes. by rewrite complete_false_skip.
  - intros outcomes pre post. apply runEngine_skip.
    unfold skipped. rewrite Hc. by destruct (isUnlocked ach).
Qed.

End EngineClaims.

(** C1 (counterexample): three locked achievements with a count-style
    condition.  With threshold 10 and 5 income records the formula
    min(100, 100 * 5 / 10) gives 50, the pass computes 100 and unlocks.
    With threshold 5 and 10 income records the formula gives 100, the pass
    computes 200.  With condition transaction-count, threshold 1 and one
    record the formula gives 100, the pass computes 0 and does nothing. *)
Lemma progress_formula_counterexample :
  (conditionType (Samples.ach "a1" "Mestre das Receitas" (Some income_count) (Some 10%Q))
     = Some income_count
   ∧ incomeCount (Samples.incomes 5) = 5
   ∧ ¬ (currentProgress (Samples.closure (Samples.incomes 5) [])
          (Samples.ach "a1" "Mestre das Receitas" (Some income_count) (Some 10%Q))
        == Qmin 100 (100 * 5 / 10))%Q
   ∧ runEngine (Samples.closure (Samples.incomes 5) []) [true]
       [Samples.ach "a1" "Mestre das Receitas" (Some income_count) (Some 10%Q)]
     = [unlockUserAchievement "alice" "a1" 100;
        showToast "Conquista desbloqueada: Mestre das Receitas" success])
  ∧ (incomeCount (Samples.incomes 10) = 10
     ∧ ¬ (currentProgress (Samples.closure (Samples.incomes 10) [])
            (Samples.ach "a1" "Mestre das Receitas" (Some income_count) (Some 5%Q))
          == Qmin 100 (100 * 10 / 5))%Q)
  ∧ (length (Samples.incomes 1) = 1
     ∧ ¬ (currentProgress (Samples.closure (Samples.incomes 1) [])
            (Samples.ach "a6" "Primeiro Passo" (Some transaction_count) (Some 1%Q))
          == Qmin 100 (100 * 1 / 1))%Q
     ∧ runEngine (Samples.closure (Samples.incomes 1) []) [true]
         [Samples.ach "a6" "Primeiro Passo" (Some transaction_count) (Some 1%Q)]
       = []).
Proof.
  split_and!; try reflexivity.
  - intros Heq. vm_compute in Heq. discriminate.
  - intros Heq. vm_compute in Heq. discriminate.
  - intros Heq. vm_compute in Heq. discriminate.
Qed.

(** The salary predicate lower-cases the description before the search
    and compares the category as it is. *)
Example hasSalary_samples :
  hasSalary [Samples.tx INCOME "Outros" "SALÁRIO MENSAL"] = true
  ∧ hasSalary [Samples.tx INCOME "Outros" "Meu Salário"] = true
  ∧ hasSalary [Samples.tx INCOME "salário" "pagamento"] = false
  ∧ hasSalary [Samples.tx EXPENSE "Salário" "pagamento"] = true.
Proof. split_and!; vm_compute; reflexivity. Qed.

(** C9 (counterexample): the condition type total-balance is none of the
    kinds the pass evaluates, yet an entry of that type titled "Mestre das
    Receitas" is unlocked by a pass that sees 5 income records. *)
Lemma unrecognized_condition_counterexample :
  conditionType (Samples.ach "b1" "Mestre das Receitas" (Some total_balance) None)
    = Some total_balance
  ∧ runEngine (Samples.closure (Samples.incomes 5) []) [true]
      [Samples.ach "b1" "Mestre das Receitas" (Some total_balance) None]
    = [unlockUserAchievement "alice" "b1" 100;
       showToast "Conquista desbloqueada: Mestre das Receitas" success].
Proof. split; reflexivity. Qed.

(** ** Spacing of labels in a trace *)

Section Spaced.

Variables (gap : nat) (P Q : Label → bool).

Lemma spaced_nil : spaced gap P Q [].
Proof. intros i j ti tj li lj _ Hi. by rewrite lookup_nil in Hi. Qed.

Lemma spaced_no_Q tr :
  (∀ t l, (t, l) ∈ tr → Q l = false) → spaced gap P Q tr.
Proof.
  intros HQ i j ti tj li lj _ _ Hj _ Hq.
  apply list_elem_of_lookup_2 in Hj. rewrite (HQ _ _ Hj) in Hq. done.
Qed.

Lemma spaced_cons x tr :
  (P x.2 = true → ∀ t l, (t, l) ∈ tr → Q l = true → x.1 + gap ≤ t) →
  spaced gap P Q tr → spaced gap P Q (x :: tr).
Proof.
  intros Hx Htr i j ti tj li lj Hij Hi Hj Hp Hq.
  destruct j as [|j]; [lia|]. simpl in Hj.
  destruct i as [|i]; simpl in Hi.
  - injection Hi as ->. apply (Hx Hp tj lj); [|done].
    by eapply list_elem_of_lookup_2.
  - apply (Htr i j ti tj li lj); [lia|done..].
Qed.

Lemma spaced_app tr1 tr2 :
  spaced gap P Q tr1 → spaced gap P Q tr2 →
  (∀ ti li tj lj, (ti, li) ∈ tr1 → (tj, lj) ∈ tr2 →
     P li = true → Q lj = true → ti + gap ≤ tj) →
  spaced gap P Q (tr1 ++ tr2).
Proof.
  intros H1 H2 Hx i j ti tj li lj Hij Hi Hj Hp Hq.
  destruct (decide (j < length tr1)) as [Hj1|Hj1].
  - rewrite lookup_app_l in Hi by lia. rewrite lookup_app_l in Hj by lia.
    by apply (H1 i j ti tj li lj).
  - rewrite lookup_app_r in Hj by lia.
    destruct (decide (i < length tr1)) as [Hi1|Hi1].
    + rewrite lookup_app_l in Hi by lia.
      apply (Hx ti li tj lj); [by eapply list_elem_of_lookup_2 | by eapply list_elem_of_lookup_2 | done..].
    + rewrite lookup_app_r in Hi by lia.
      apply (H2 (i - length tr1) (j - length tr1) ti tj li lj); [lia|done..].
Qed.

End Spaced.


(** ** One step of the machine *)

Section Steps.

Context {rt : Runtime}.

Lemma clearTimeout_own tm : clearTimeout (timerId tm) [tm] = [].
Proof. unfold clearTimeout. simpl. by rewrite Nat.eqb_refl. Qed.

Lemma stamp_elem t acts t' l :
  (t', l) ∈ stamp t acts ↔ t' = t ∧ ∃ a, l = LAct a ∧ a ∈ acts.
Proof.
  unfold stamp. rewrite list_elem_of_fmap. split.
  - intros (a & Heq & Ha). injection Heq as -> ->. eauto.
  - intros (-> & a & -> & Ha). eauto.
Qed.

Lemma monitor_cases s :
  is_Some (monitorPhase s) →
  (isRestoringRef s = false ∧ repairsInFlight s = 0 ∧ cooldownTimers s = [])
  ∨ (isRestoringRef s = true ∧ repairsInFlight s = 1 ∧ cooldownTimers s = [])
  ∨ (isRestoringRef s = true ∧ repairsInFlight s = 0
     ∧ ∃ d, cooldownTimers s = [d]).
Proof.
  unfold monitorPhase. intros [ph Hph].
  destruct (isRestoringRef s), (repairsInFlight s) as [|[|n]],
    (cooldownTimers s) as [|d [|d' l]]; try discriminate Hph.
  - right; right. split_and!; [reflexivity..|]. by exists d.
  - right; left. by split_and!.
  - left. by split_and!.
Qed.

Lemma engine_cases s :
  engineOK s →
  engineTimers s = []
  ∨ ∃ tm u, engineTimers s = [tm]
      ∧ effectCleanup s = Some (timerId tm)
      ∧ deadline tm ≤ now s + 3000
      ∧ achievements (data s) ≠ []
      ∧ user (data s) = Some u ∧ callback tm = closureOf u (data s).
Proof.
  unfold engineOK. destruct (engineTimers s) as [|tm [|tm' l]]; [eauto|..].
  - intros (H1 & H2 & H3 & u & H4 & H5). right. exists tm, u. done.
  - done.
Qed.

(** The cleanup of the previous effect leaves no engine timer pending. *)
Lemma cleanup_clears s :
  engineOK s →
  match effectCleanup s with
  | Some tid => clearTimeout tid (engineTimers s)
  | None => engineTimers s
  end = [].
Proof.
  intros [E|(tm & u & E & Hc & _)]%engine_cases; rewrite E.
  - by destruct (effectCleanup s).
  - rewrite Hc. apply clearTimeout_own.
Qed.

Lemma commit_state t d s s' acts :
  engineOK s → commit t d s = (s', acts) →
  now s' = t ∧ data s' = d ∧ passes s' = passes s
  ∧ cooldownTimers s' = cooldownTimers s
  ∧ match user d with
    | None =>
        acts = [] ∧ isRestoringRef s' = isRestoringRef s
        ∧ repairsInFlight s' = repairsInFlight s
        ∧ engineTimers s' = [] ∧ effectCleanup s' = None
    | Some u =>
        let drift :=
          negb (isRestoringRef s)
          && (0 <? length (rawGlobalAchievements d))
          && negb (length (rawGlobalAchievements d) =? 5) in
        acts = (if drift then [restoreDefaultAchievements] else [])
        ∧ isRestoringRef s' = (drift || isRestoringRef s)
        ∧ repairsInFlight s' = (if drift then S (repairsInFlight s)
                                else repairsInFlight s)
        ∧ match achievements d with
          | [] => engineTimers s' = [] ∧ effectCleanup s' = None
          | _ :: _ =>
              engineTimers s' = [{| timerId := nextTimerId s;
                                    deadline := t + 3000;
                                    callback := closureOf u d |}]
              ∧ effectCleanup s' = Some (nextTimerId s)
          end
    end.
Proof.
  intros He Hc. unfold commit, achievementEffect in Hc. simpl in Hc.
  rewrite (cleanup_clears s He) in Hc.
  destruct (user d) as [u|].
  - unfold driftDetected in Hc. simpl in Hc.
    destruct (achievements d) as [|a l] eqn:Ea; simpl in Hc;
      injection Hc as <- <-; simpl; split_and!; try done;
      by destruct (negb (isRestoringRef s) && _ && _).
  - injection Hc as <- <-. done.
Qed.

Lemma fireEngine_state t tid s s' tr :
  engineOK s → fireEngine t tid s = Some (s', tr) →
  ∃ tm u,
    engineTimers s = [tm] ∧ timerId tm = tid ∧ deadline tm ≤ t
    ∧ user (data s) = Some u ∧ callback tm = closureOf u (data s)
    ∧ achievements (data s) ≠ []
    ∧ tr = (t, LPass (callback tm))
           :: stamp t (runLoop (callback tm) (c_achievements (callback tm))).1
    ∧ now s' = t ∧ data s' = data s
    ∧ isRestoringRef s' = isRestoringRef s
    ∧ repairsInFlight s' = repairsInFlight s
    ∧ cooldownTimers s' = cooldownTimers s
    ∧ engineTimers s' = []
    ∧ effectCleanup s' = effectCleanup s
    ∧ passes s' = passes s
         ++ option_list (runLoop (callback tm) (c_achievements (callback tm))).2.
Proof.
  intros He Hf. unfold fireEngine in Hf.
  destruct (engine_cases s He) as [E|(tm & u & E & Hc & Hd & Hne & Hu & Hcb)];
    rewrite E in Hf; simpl in Hf; [done|].
  destruct (Nat.eqb_spec (timerId tm) tid) as [Hid|Hid]; [|done].
  destruct (Nat.leb_spec (deadline tm) t) as [Hdl|Hdl]; [|done].
  destruct (runLoop (callback tm) (c_achievements (callback tm))) as [acts st] eqn:Er.
  injection Hf as <- <-. exists tm, u. rewrite Er. subst tid.
  unfold clearTimeout. simpl. rewrite E. simpl.
  by split_and!.
Qed.

Lemma settleUnlock_state t i ok s s' tr :
  settleUnlock t i ok s = Some (s', tr) →
  ∃ p,
    passes s !! i = Some p
    ∧ tr = stamp t (resume p ok).1
    ∧ now s' = t ∧ data s' = data s
    ∧ isRestoringRef s' = isRestoringRef s
    ∧ repairsInFlight s' = repairsInFlight s
    ∧ cooldownTimers s' = cooldownTimers s
    ∧ engineTimers s' = engineTimers s
    ∧ effectCleanup s' = effectCleanup s
    ∧ passes s' = take i (passes s) ++ option_list (resume p ok).2
                  ++ drop (S i) (passes s).
Proof.
  intros Hf. unfold settleUnlock in Hf.
  destruct (passes s !! i) as [p|]; [|done].
  destruct (resume p ok) as [acts st] eqn:Er.
  injection Hf as <- <-. exists p. rewrite Er. by simpl.
Qed.

Lemma settleRepair_state t ok s s' tr :
  settleRepair t ok s = Some (s', tr) →
  ∃ n,
    repairsInFlight s = S n
    ∧ tr = [(t, LRepairSettled ok)]
    ∧ now s' = t ∧ data s' = data s
    ∧ isRestoringRef s' = isRestoringRef s
    ∧ repairsInFlight s' = n
    ∧ cooldownTimers s' = cooldownTimers s ++ [t + 2000]
    ∧ engineTimers s' = engineTimers s
    ∧ effectCleanup s' = effectCleanup s
    ∧ passes s' = passes s.
Proof.
  intros Hf. unfold settleRepair in Hf.
  destruct (repairsInFlight s) as [|n]; [done|].
  injection Hf as <- <-. by exists n.
Qed.

Lemma fireCooldown_state t i s s' tr :
  fireCooldown t i s = Some (s', tr) →
  ∃ d,
    cooldownTimers s !! i = Some d ∧ d ≤ t
    ∧ tr = []
    ∧ now s' = t ∧ data s' = data s
    ∧ isRestoringRef s' = false
    ∧ repairsInFlight s' = repairsInFlight s
    ∧ cooldownTimers s' = delete i (cooldownTimers s)
    ∧ engineTimers s' = engineTimers s
    ∧ effectCleanup s' = effectCleanup s
    ∧ passes s' = passes s.
Proof.
  intros Hf. unfold fireCooldown in Hf.
  destruct (cooldownTimers s !! i) as [d|] eqn:Ed; [|done].
  destruct (Nat.leb_spec d t) as [Hd|Hd]; [|done].
  injection Hf as <- <-. by exists d.
Qed.

Lemma step_time s e s' tr :
  step s e = Some (s', tr) → now s ≤ eventTime e.
Proof.
  unfold step. by destruct (Nat.leb_spec (now s) (eventTime e)).
Qed.

Lemma step_event s e s' tr :
  step s e = Some (s', tr) →
  match e with
  | Commit t d => ∃ acts, commit t d s = (s', acts)
                          ∧ tr = (t, LCommit) :: stamp t acts
  | FireEngine t tid => fireEngine t tid s = Some (s', tr)
  | SettleUnlock t i ok => settleUnlock t i ok s = Some (s', tr)
  | SettleRepair t ok => settleRepair t ok s = Some (s', tr)
  | FireCooldown t i => fireCooldown t i s = Some (s', tr)
  end.
Proof.
  unfold step. destruct (now s <=? eventTime e); [|done].
  destruct e; try done.
  destruct (commit t d s) as [s1 acts]. intros [= <- <-]. eauto.
Qed.

Lemma runLoop_pass c achs acts p :
  runLoop c achs = (acts, Some p) →
  p_closure p = c
  ∧ ∃ pre, achs = pre ++ p_awaiting p :: p_rest p
           ∧ isUnlocked (p_awaiting p) = false
           ∧ complete c (p_awaiting p) = true.
Proof.
  revert acts p. induction achs as [|x achs IH]; intros acts p Hr; simpl in Hr.
  - discriminate Hr.
  - assert (Hrest : runLoop c achs = (acts, Some p) →
              p_closure p = c
              ∧ ∃ pre, x :: achs = pre ++ p_awaiting p :: p_rest p
                       ∧ isUnlocked (p_awaiting p) = false
                       ∧ complete c (p_awaiting p) = true).
    { intros H0. destruct (IH _ _ H0) as (Hc & pre & -> & Hu & Hcm).
      split; [done|]. by exists (x :: pre). }
    destruct (isUnlocked x) eqn:Hu; [by apply Hrest|].
    destruct (complete c x) eqn:Hc; [|by apply Hrest].
    injection Hr as <- <-. simpl. split; [done|]. by exists [].
Qed.

Lemma resume_passOK p ok acts p' :
  passOK p → resume p ok = (acts, Some p') → passOK p'.
Proof.
  intros [pre Hpre] Hr. unfold resume in Hr. destruct ok; [|discriminate Hr].
  destruct (runLoop (p_closure p) (p_rest p)) as [acts' st] eqn:Er.
  injection Hr as <- ->.
  destruct (runLoop_pass _ _ _ _ Er) as (Hcl & pre' & Hrest & _).
  exists (pre ++ p_awaiting p :: pre').
  rewrite Hcl, Hpre, Hrest, <- app_assoc. done.
Qed.

Lemma step_Inv s e s' tr : Inv s → step s e = Some (s', tr) → Inv s'.
Proof.
  intros [Hm He Hps] Hs. pose proof (step_time _ _ _ _ Hs) as Ht.
  apply step_event in Hs.
  apply monitor_cases in Hm.
  destruct e as [t d|t tid|t i ok|t ok|t i]; simpl in Ht.
  - destruct Hs as (acts & Hc & ->).
    apply commit_state in Hc; [|done]. clear He.
    destruct Hc as (Hn & Hd & Hp & Hcd & Hrest).
    split; [| |by rewrite Hp].
    + unfold monitorPhase. rewrite Hcd.
      destruct (user d) as [u|].
      * destruct Hrest as (_ & -> & -> & _).
        destruct Hm as [(-> & -> & ->)|[(-> & -> & ->)|(-> & -> & d0 & ->)]];
          simpl; [|eauto..].
        destruct ((0 <? _) && _); simpl; eauto.
      * destruct Hrest as (_ & -> & -> & _).
        destruct Hm as [(-> & -> & ->)|[(-> & -> & ->)|(-> & -> & d0 & ->)]];
          simpl; eauto.
    + unfold engineOK.
      destruct (user d) as [u|] eqn:Eu.
      * destruct Hrest as (_ & _ & _ & Hrest).
        destruct (achievements d) as [|a l] eqn:Ea.
        -- by destruct Hrest as [-> _].
        -- destruct Hrest as [-> ->]. simpl. rewrite Hn, Hd, Ea.
           split_and!; [done|lia|done|]. eauto.
      * by destruct Hrest as (_ & _ & _ & -> & _).
  - apply fireEngine_state in Hs; [|done].
    destruct Hs as (tm & u & _ & _ & _ & _ & _ & _ & _ & Hn & Hd & Hf & Hi & Hc & Het & _ & Hp).
    split.
    + unfold monitorPhase. rewrite Hf, Hi, Hc.
      destruct Hm as [(-> & -> & ->)|[(-> & -> & ->)|(-> & -> & d0 & ->)]]; simpl; eauto.
    + unfold engineOK. by rewrite Het.
    + rewrite Hp. apply Forall_app. split; [done|].
      destruct (runLoop (callback tm) (c_achievements (callback tm)))
        as [acts [p|]] eqn:Er; simpl; [|done].
      apply Forall_singleton.
      destruct (runLoop_pass _ _ _ _ Er) as (Hcl & pre & Hpre & _).
      exists pre. by rewrite Hcl.
  - apply settleUnlock_state in Hs.
    destruct Hs as (p & Hlk & _ & Hn & Hd & Hf & Hi & Hc & Het & Hcl & Hp).
    split.
    + unfold monitorPhase. rewrite Hf, Hi, Hc.
      destruct Hm as [(-> & -> & ->)|[(-> & -> & ->)|(-> & -> & d0 & ->)]]; simpl; eauto.
    + unfold engineOK in *. rewrite Het, Hcl, Hn, Hd.
      destruct (engineTimers s) as [|tm [|tm' l]]; [done| |done].
      destruct He as (? & ? & ? & ?). split_and!; [done|lia|done..].
    + rewrite Hp. apply Forall_app. split; [by apply Forall_take|].
      apply Forall_app. split; [|by apply Forall_drop].
      destruct (resume p ok) as [acts [p'|]] eqn:Er; simpl; [|done].
      apply Forall_singleton. eapply resume_passOK; [|done].
      eapply Forall_lookup_1; done.
  - apply settleRepair_state in Hs.
    destruct Hs as (n & Hin & _ & Hn & Hd & Hf & Hi & Hc & Het & Hcl & Hp).
    split; [| |by rewrite Hp].
    + unfold monitorPhase. rewrite Hf, Hi, Hc.
      destruct Hm as [(-> & Hz & ->)|[(-> & Hz & ->)|(-> & Hz & d0 & ->)]];
        rewrite Hz in Hin; try discriminate Hin.
      injection Hin as <-. simpl. eauto.
    + unfold engineOK in *. rewrite Het, Hcl, Hn, Hd.
      destruct (engineTimers s) as [|tm [|tm' l]]; [done| |done].
      destruct He as (? & ? & ? & ?). split_and!; [done|lia|done..].
  - apply fireCooldown_state in Hs.
    destruct Hs as (d & Hl & Hle & _ & Hn & Hd & Hf & Hi & Hc & Het & Hcl & Hp).
    split; [| |by rewrite Hp].
    + unfold monitorPhase. rewrite Hf, Hi, Hc.
      destruct Hm as [(_ & Hz & Hcd)|[(_ & Hz & Hcd)|(_ & Hz & d0 & Hcd)]];
        rewrite Hcd in *; rewrite Hz; try (by rewrite lookup_nil in Hl).
      destruct i as [|i]; simpl in *; [eauto|].
      by rewrite lookup_nil in Hl.
    + unfold engineOK in *. rewrite Het, Hcl, Hn, Hd.
      destruct (engineTimers s) as [|tm [|tm' l]]; [done| |done].
      destruct He as (? & ? & ? & ?). split_and!; [done|lia|done..].
Qed.

Lemma runLoop_no_restore c achs :
  restoreDefaultAchievements ∉ (runLoop c achs).1.
Proof. rewrite runLoop_actions. apply runEngine_no_restore. Qed.

Lemma resume_no_restore p ok :
  restoreDefaultAchievements ∉ (resume p ok).1.
Proof.
  unfold resume. destruct ok; simpl; [|apply not_elem_of_nil].
  pose proof (runLoop_no_restore (p_closure p) (p_rest p)) as Hr.
  destruct (runLoop (p_closure p) (p_rest p)) as [acts st]. simpl in *.
  intros [Heq|Hin]%elem_of_cons; [discriminate|done].
Qed.

Lemma stamp_no_schedule t acts t' l :
  (t', l) ∈ stamp t acts → isSchedule l = false ∧ isPass l = false.
Proof. intros (_ & a & -> & _)%stamp_elem. done. Qed.

Lemma stamp_no_repair t acts t' l :
  restoreDefaultAchievements ∉ acts →
  (t', l) ∈ stamp t acts → isRepairEvent l = false ∧ isRestore l = false.
Proof.
  intros Hno (_ & a & -> & Ha)%stamp_elem.
  by destruct a.
Qed.

Lemma repairBound_step_mono s s' :
  monitorPhase s' = monitorPhase s → now s ≤ now s' →
  repairBound s ≤ repairBound s'.
Proof.
  intros Hp Hn. unfold repairBound. rewrite Hp.
  destruct (monitorPhase s) as [[| |d]|]; lia.
Qed.

Lemma monitorPhase_fields s s' :
  isRestoringRef s' = isRestoringRef s →
  repairsInFlight s' = repairsInFlight s →
  cooldownTimers s' = cooldownTimers s →
  monitorPhase s' = monitorPhase s.
Proof. intros H1 H2 H3. unfold monitorPhase. by rewrite H1, H2, H3. Qed.

(** A step whose trace holds no repair event and that leaves the monitor
    alone respects the repair bound. *)
Lemma respects_repair_quiet s tr s' :
  monitorPhase s' = monitorPhase s → now s ≤ now s' →
  (∀ t l, (t, l) ∈ tr → isRepairEvent l = false ∧ isRestore l = false) →
  respects 2000 isRepairEvent isRestore repairBound s tr s'.
Proof.
  intros Hp Hn Hq. unfold respects. split_and!.
  - by apply repairBound_step_mono.
  - intros t l Hin Hr. destruct (Hq _ _ Hin) as [_ E]. congruence.
  - intros t l Hin Hr. destruct (Hq _ _ Hin) as [E _]. congruence.
  - apply spaced_no_Q. intros t l Hin. by destruct (Hq _ _ Hin).
Qed.

Lemma step_respects_repair s e s' tr :
  Inv s → step s e = Some (s', tr) →
  respects 2000 isRepairEvent isRestore repairBound s tr s'.
Proof.
  intros [Hm He _] Hs. pose proof (step_time _ _ _ _ Hs) as Ht.
  apply step_event in Hs.
  apply monitor_cases in Hm.
  destruct e as [t d|t tid|t i ok|t ok|t i]; simpl in Ht.
  - destruct Hs as (acts & Hc & ->).
    apply commit_state in Hc; [|done]. clear He.
    destruct Hc as (Hn & Hd & Hp & Hcd & Hrest).
    assert (Hquiet : acts = [] →
              isRestoringRef s' = isRestoringRef s →
              repairsInFlight s' = repairsInFlight s →
              respects 2000 isRepairEvent isRestore repairBound s
                ((t, LCommit) :: stamp t acts) s').
    { intros -> Hf Hi. apply respects_repair_quiet.
      - by apply monitorPhase_fields.
      - lia.
      - intros t' l [[= -> ->]|Hin]%elem_of_cons; [done|].
        by apply elem_of_nil in Hin. }
    destruct (user d) as [u|]; [|by destruct Hrest as (? & ? & ? & _); auto].
    destruct Hrest as (Ha & Hf & Hi & _).
    destruct (negb (isRestoringRef s) && _ && _) eqn:Edrift;
      [|apply Hquiet; [done| |done]; by destruct (isRestoringRef s)].
    destruct Hm as [(Hf0 & Hi0 & Hc0)|[(Hf0 & _)|(Hf0 & _)]];
      try (rewrite Hf0 in Edrift; discriminate Edrift).
    subst acts. simpl.
    assert (Hb : repairBound s = now s).
    { unfold repairBound, monitorPhase. by rewrite Hf0, Hi0, Hc0. }
    assert (Hb' : repairBound s' = t + 2000).
    { unfold repairBound, monitorPhase. rewrite Hf, Hi, Hcd, Hi0, Hc0, Hn. done. }
    unfold respects. rewrite Hb, Hb'. split_and!.
    + lia.
    + intros t' l [[= -> ->]|[[= -> ->]|Hin]%elem_of_cons]%elem_of_cons; [done|lia|].
      by apply elem_of_nil in Hin.
    + intros t' l [[= -> ->]|[[= -> ->]|Hin]%elem_of_cons]%elem_of_cons; [done|lia|].
      by apply elem_of_nil in Hin.
    + apply spaced_cons; [done|]. apply spaced_cons; [|apply spaced_nil].
      intros _ t' l Hin. by apply elem_of_nil in Hin.
  - apply fireEngine_state in Hs; [|done].
    destruct Hs as (tm & u & _ & _ & _ & _ & _ & _ & -> & Hn & Hd & Hf & Hi & Hc & _).
    apply respects_repair_quiet; [by apply monitorPhase_fields|lia|].
    intros t' l [[= -> ->]|Hin]%elem_of_cons; [done|].
    eapply stamp_no_repair; [|done]. apply runLoop_no_restore.
  - apply settleUnlock_state in Hs.
    destruct Hs as (p & _ & -> & Hn & Hd & Hf & Hi & Hc & _).
    apply respects_repair_quiet; [by apply monitorPhase_fields|lia|].
    intros t' l Hin. eapply stamp_no_repair; [|done]. apply resume_no_restore.
  - apply settleRepair_state in Hs.
    destruct Hs as (n & Hin & -> & Hn & Hd & Hf & Hi & Hc & _).
    destruct Hm as [(Hf0 & Hz & Hc0)|[(Hf0 & Hz & Hc0)|(Hf0 & Hz & d0 & Hc0)]];
      rewrite Hz in Hin; try discriminate Hin.
    injection Hin as <-.
    assert (Hb : repairBound s = now s + 2000).
    { unfold repairBound, monitorPhase. by rewrite Hf0, Hz, Hc0. }
    assert (Hb' : repairBound s' = t + 2000).
    { unfold repairBound, monitorPhase. by rewrite Hf, Hi, Hc, Hf0, Hc0. }
    unfold respects. rewrite Hb, Hb'. split_and!.
    + lia.
    + intros t' l [[= -> ->]|Hin]%elem_of_cons; [done|].
      by apply elem_of_nil in Hin.
    + intros t' l [[= -> ->]|Hin]%elem_of_cons; [lia|].
      by apply elem_of_nil in Hin.
    + apply spaced_no_Q. intros t' l [[= -> ->]|Hin]%elem_of_cons; [done|].
      by apply elem_of_nil in Hin.
  - apply fireCooldown_state in Hs.
    destruct Hs as (d & Hl & Hle & -> & Hn & Hd & Hf & Hi & Hc & _).
    destruct Hm as [(_ & Hz & Hcd)|[(_ & Hz & Hcd)|(Hf0 & Hz & d0 & Hcd)]];
      rewrite Hcd in Hl; try (by rewrite lookup_nil in Hl).
    destruct i as [|i]; simpl in Hl; [|by rewrite lookup_nil in Hl].
    injection Hl as ->.
    assert (Hb : repairBound s = d).
    { unfold repairBound, monitorPhase. by rewrite Hf0, Hz, Hcd. }
    assert (Hb' : repairBound s' = t).
    { unfold repairBound, monitorPhase. rewrite Hf, Hi, Hc, Hz, Hcd, Hn. done. }
    unfold respects. rewrite Hb, Hb'. split_and!.
    + lia.
    + intros t' l Hin. by apply elem_of_nil in Hin.
    + intros t' l Hin. by apply elem_of_nil in Hin.
    + apply spaced_nil.
Qed.

Lemma passBound_le s : engineOK s → passBound s ≤ now s + 3000.
Proof.
  intros [E|(tm & u & E & _ & Hd & _)]%engine_cases;
    unfold passBound; rewrite E; [done|lia].
Qed.

(** A step that starts no pass, is no render and leaves the timers alone
    respects the pass bound. *)
Lemma respects_engine_quiet s tr s' :
  engineTimers s' = engineTimers s → now s ≤ now s' →
  (∀ t l, (t, l) ∈ tr → isSchedule l = false ∧ isPass l = false) →
  respects 3000 isSchedule isPass passBound s tr s'.
Proof.
  intros He Hn Hq. unfold respects. split_and!.
  - unfold passBound. rewrite He. destruct (engineTimers s); lia.
  - intros t l Hin Hr. destruct (Hq _ _ Hin) as [_ E]. congruence.
  - intros t l Hin Hr. destruct (Hq _ _ Hin) as [E _]. congruence.
  - apply spaced_no_Q. intros t l Hin. by destruct (Hq _ _ Hin).
Qed.

Lemma step_respects_engine s e s' tr :
  Inv s → step s e = Some (s', tr) →
  respects 3000 isSchedule isPass passBound s tr s'.
Proof.
  intros [Hm He _] Hs. pose proof (step_time _ _ _ _ Hs) as Ht.
  pose proof (passBound_le s He) as Hle.
  apply step_event in Hs.
  destruct e as [t d|t tid|t i ok|t ok|t i]; simpl in Ht.
  - destruct Hs as (acts & Hc & ->).
    apply commit_state in Hc; [|done].
    destruct Hc as (Hn & Hd & Hp & Hcd & Hrest).
    assert (Hb' : passBound s' = t + 3000).
    { unfold passBound. destruct (user d) as [u|].
      - destruct Hrest as (_ & _ & _ & Hrest).
        destruct (achievements d); destruct Hrest as [-> _]; [lia|done].
      - destruct Hrest as (_ & _ & _ & -> & _). lia. }
    unfold respects. rewrite Hb'. split_and!.
    + lia.
    + intros t' l [[= -> ->]|Hin]%elem_of_cons; [done|].
      apply stamp_no_schedule in Hin as [_ E]. congruence.
    + intros t' l [[= -> ->]|Hin]%elem_of_cons; [lia|].
      apply stamp_no_schedule in Hin as [E _]. congruence.
    + apply spaced_no_Q.
      intros t' l [[= -> ->]|Hin]%elem_of_cons; [done|].
      by apply stamp_no_schedule in Hin as [_ E].
  - apply fireEngine_state in Hs; [|done].
    destruct Hs as (tm & u & E & _ & Hdl & _ & _ & _ & -> & Hn & _ & _ & _ & _ & Het & _).
    assert (Hb : passBound s = deadline tm) by (unfold passBound; by rewrite E).
    assert (Hb' : passBound s' = t + 3000).
    { unfold passBound. rewrite Het. lia. }
    unfold respects. rewrite Hb, Hb'. split_and!.
    + lia.
    + intros t' l [[= -> ->]|Hin]%elem_of_cons; [lia|].
      apply stamp_no_schedule in Hin as [_ E']. congruence.
    + intros t' l [[= -> ->]|Hin]%elem_of_cons; [lia|].
      apply stamp_no_schedule in Hin as [E' _]. congruence.
    + apply spaced_cons; [|apply spaced_no_Q].
      * intros _ t' l Hin Hq.
        apply stamp_no_schedule in Hin as [_ E']. congruence.
      * intros t' l Hin. by apply stamp_no_schedule in Hin as [_ E'].
  - apply settleUnlock_state in Hs.
    destruct Hs as (p & _ & -> & Hn & _ & _ & _ & _ & Het & _).
    apply respects_engine_quiet; [done|lia|].
    intros t' l Hin. by eapply stamp_no_schedule.
  - apply settleRepair_state in Hs.
    destruct Hs as (n & _ & -> & Hn & _ & _ & _ & _ & Het & _).
    apply respects_engine_quiet; [done|lia|].
    intros t' l [[= -> ->]|Hin]%elem_of_cons; [done|].
    by apply elem_of_nil in Hin.
  - apply fireCooldown_state in Hs.
    destruct Hs as (d & _ & _ & -> & Hn & _ & _ & _ & _ & Het & _).
    apply respects_engine_quiet; [done|lia|].
    intros t' l Hin. by apply elem_of_nil in Hin.
Qed.

Lemma initial_Inv : Inv initial.
Proof. split; [by eexists | done | apply Forall_nil_2]. Qed.

End Steps.

(** ** Runs of the machine *)

(** A bound that every step respects is respected by every run. *)
Section Bounded.

Context {rt : Runtime}.
Variables (gap : nat) (P Q : Label → bool) (bound : AppState → nat).

Local Abbreviation respects := (respects gap P Q bound).

Hypothesis step_respects :
  ∀ s e s' tr, Inv s → step s e = Some (s', tr) → respects s tr s'.

Lemma exec_Inv es :
  ∀ s s' tr, Inv s → exec s es = Some (s', tr) → Inv s'.
Proof.
  induction es as [|e es IH]; intros s s' tr HI Hex; simpl in Hex.
  - by injection Hex as <- <-.
  - destruct (step s e) as [[s1 tr1]|] eqn:Hs; [|done].
    destruct (exec s1 es) as [[s2 tr2]|] eqn:He; [|done].
    injection Hex as <- <-. eapply IH; [|done]. by eapply step_Inv.
Qed.

Lemma exec_respects es :
  ∀ s s' tr, Inv s → exec s es = Some (s', tr) → respects s tr s'.
Proof.
  induction es as [|e es IH]; intros s s' tr HI Hex; simpl in Hex.
  - injection Hex as <- <-. unfold respects. split_and!; [lia| | |apply spaced_nil].
    + intros t l Hin. by apply elem_of_nil in Hin.
    + intros t l Hin. by apply elem_of_nil in Hin.
  - destruct (step s e) as [[s1 tr1]|] eqn:Hs; [|done].
    destruct (exec s1 es) as [[s2 tr2]|] eqn:He; [|done].
    injection Hex as <- <-.
    destruct (step_respects _ _ _ _ HI Hs) as (Hb1 & Hq1 & Hp1 & Hsp1).
    assert (HI1 : Inv s1) by by eapply step_Inv.
    destruct (IH _ _ _ HI1 He) as (Hb2 & Hq2 & Hp2 & Hsp2).
    unfold respects. split_and!.
    + lia.
    + intros t l Hin Hq. apply elem_of_app in Hin as [Hin|Hin].
      * by eapply Hq1.
      * specialize (Hq2 _ _ Hin Hq). lia.
    + intros t l Hin Hp. apply elem_of_app in Hin as [Hin|Hin].
      * specialize (Hp1 _ _ Hin Hp). lia.
      * by eapply Hp2.
    + apply spaced_app; [done..|].
      intros ti li tj lj Hi Hj Hp Hq.
      specialize (Hp1 _ _ Hi Hp). specialize (Hq2 _ _ Hj Hq). lia.
Qed.

End Bounded.

Section Runs.

Context {rt : Runtime}.

Lemma reachable_Inv es s tr : exec initial es = Some (s, tr) → Inv s.
Proof. intros Hex. eapply exec_Inv; [apply initial_Inv | done]. Qed.

Lemma run_repair_spaced es s tr :
  exec initial es = Some (s, tr) → spaced 2000 isRepairEvent isRestore tr.
Proof.
  intros Hex.
  apply (exec_respects 2000 isRepairEvent isRestore repairBound
           step_respects_repair es initial s tr initial_Inv Hex).
Qed.

Lemma run_pass_spaced es s tr :
  exec initial es = Some (s, tr) → spaced 3000 isSchedule isPass tr.
Proof.
  intros Hex.
  apply (exec_respects 3000 isSchedule isPass passBound
           step_respects_engine es initial s tr initial_Inv Hex).
Qed.

Lemma idle_iff_flag s :
  Inv s → (isRestoringRef s = false ↔ monitorPhase s = Some Idle).
Proof.
  intros [Hm _ _]. apply monitor_cases in Hm. unfold monitorPhase.
  destruct Hm as [(-> & -> & ->)|[(-> & -> & ->)|(-> & -> & d0 & ->)]]; done.
Qed.

Lemma busy_iff_flag s :
  Inv s →
  (isRestoringRef s = true
   ↔ monitorPhase s = Some Repairing ∨ ∃ d, monitorPhase s = Some (Cooldown d)).
Proof.
  intros [Hm _ _]. apply monitor_cases in Hm. unfold monitorPhase.
  destruct Hm as [(-> & -> & ->)|[(-> & -> & ->)|(-> & -> & d0 & ->)]];
    split; try done; eauto.
  intros [?|[? ?]]; done.
Qed.

(** Every unlock call a suspended pass issues when it is resumed is for an
    entry of the array it captured, locked there and complete on the
    captured data. *)
Lemma resume_unlock_captured p ok u a q :
  passOK p →
  unlockUserAchievement u a q ∈ (resume p ok).1 →
  ∃ ach, ach ∈ c_achievements (p_closure p) ∧ id ach = a
         ∧ isUnlocked ach = false ∧ complete (p_closure p) ach = true
         ∧ u = uid (c_user (p_closure p)) ∧ q = 100%Q.
Proof.
  intros [pre Hpre] Hin. unfold resume in Hin.
  destruct ok; [|by apply elem_of_nil in Hin].
  pose proof (runLoop_actions (p_closure p) (p_rest p)) as Ha.
  destruct (runLoop (p_closure p) (p_rest p)) as [acts st]. simpl in *.
  apply elem_of_cons in Hin as [Heq|Hin]; [discriminate|].
  rewrite Ha in Hin.
  apply runEngine_unlock_inv in Hin as (ach & Hach & Hrest).
  exists ach. split; [|done]. rewrite Hpre.
  apply elem_of_app. right. by apply list_elem_of_further.
Qed.

(** C4: in every run, a repair invocation is separated by at least the
    2000 ms cooldown from every earlier repair invocation and from every
    earlier completion of a repair; a completing repair finds the monitor
    repairing and puts it in cooldown until 2000 ms later with the guard
    still set, and the outcome of the repair makes no difference to the
    state reached; while the monitor is not idle a render invokes no
    repair, whatever catalog it observes. *)
Theorem repair_once_per_cooldown es s tr :
  exec initial es = Some (s, tr) →
  (∀ i j ti tj li,
     i < j → tr !! i = Some (ti, li) → isRepairEvent li = true →
     tr !! j = Some (tj, LAct restoreDefaultAchievements) →
     ti + 2000 ≤ tj)
  ∧ (∀ t ok s' tr',
       step s (SettleRepair t ok) = Some (s', tr') →
       monitorPhase s = Some Repairing
       ∧ monitorPhase s' = Some (Cooldown (t + 2000))
       ∧ isRestoringRef s' = true
       ∧ step s (SettleRepair t (negb ok))
         = Some (s', [(t, LRepairSettled (negb ok))]))
  ∧ (∀ t d s' acts,
       monitorPhase s ≠ Some Idle → commit t d s = (s', acts) →
       (restoreDefaultAchievements ∉ acts)
       ∧ monitorPhase s' = monitorPhase s).
Proof.
  intros Hex. pose proof (reachable_Inv _ _ _ Hex) as HI.
  split_and!.
  - intros i j ti tj li Hij Hi Hp Hj.
    by apply (run_repair_spaced _ _ _ Hex i j ti tj li
                (LAct restoreDefaultAchievements)).
  - intros t ok s' tr' Hs.
    pose proof (step_time _ _ _ _ Hs) as Ht. simpl in Ht.
    pose proof (step_event _ _ _ _ Hs) as Hsr. simpl in Hsr.
    destruct (settleRepair_state _ _ _ _ _ Hsr)
      as (n & Hin & -> & Hn & Hd & Hf & Hi & Hc & _).
    destruct HI as [Hm _ _]. apply monitor_cases in Hm.
    destruct Hm as [(Hf0 & Hz & Hc0)|[(Hf0 & Hz & Hc0)|(Hf0 & Hz & d0 & Hc0)]];
      rewrite Hz in Hin; try discriminate Hin.
    injection Hin as <-.
    split_and!.
    + unfold monitorPhase. by rewrite Hf0, Hz, Hc0.
    + unfold monitorPhase. by rewrite Hf, Hi, Hc, Hf0, Hc0.
    + by rewrite Hf.
    + unfold step in *. simpl in *.
      destruct (now s <=? t); [|done].
      unfold settleRepair in *. rewrite Hz in *. by injection Hs as <-.
  - intros t d s' acts Hph Hc.
    destruct HI as [Hm He _].
    apply commit_state in Hc; [|done].
    destruct Hc as (_ & _ & _ & Hcd & Hrest).
    assert (Hflag : isRestoringRef s = true).
    { apply monitor_cases in Hm. unfold monitorPhase in Hph.
      destruct Hm as [(Hf0 & Hz & Hc0)|[(Hf0 & _)|(Hf0 & _)]]; [|done..].
      rewrite Hf0, Hz, Hc0 in Hph. done. }
    rewrite Hflag in Hrest. simpl in Hrest.
    destruct (user d) as [u|].
    + destruct Hrest as (-> & Hf & Hi & _). split; [apply not_elem_of_nil|].
      apply monitorPhase_fields; [by rewrite Hf|done..].
    + destruct Hrest as (-> & Hf & Hi & _). split; [apply not_elem_of_nil|].
      apply monitorPhase_fields; [by rewrite Hf, Hflag|done..].
Qed.

(** C5 (amended): in every run, a run of the effect invokes the catalog
    repair exactly when a user is present, the guard is clear and the
    observed catalog is non-empty with a size other than 5.  The guard is
    clear exactly when the monitor is idle and set exactly while a repair
    or its cooldown is active.  A triggered repair is invoked once and
    sets the guard; otherwise nothing is invoked and the monitor stays as
    it was; an empty catalog triggers nothing, and neither does any
    catalog while no user is present. *)
Theorem repair_trigger_condition es s tr t d s' acts :
  exec initial es = Some (s, tr) →
  commit t d s = (s', acts) →
  (restoreDefaultAchievements ∈ acts
   ↔ is_Some (user d)
     ∧ isRestoringRef s = false
     ∧ rawGlobalAchievements d ≠ []
     ∧ length (rawGlobalAchievements d) ≠ 5)
  ∧ (isRestoringRef s = false ↔ monitorPhase s = Some Idle)
  ∧ (isRestoringRef s = true
     ↔ monitorPhase s = Some Repairing
       ∨ ∃ until, monitorPhase s = Some (Cooldown until))
  ∧ (restoreDefaultAchievements ∈ acts →
     acts = [restoreDefaultAchievements]
     ∧ isRestoringRef s' = true
     ∧ monitorPhase s' = Some Repairing)
  ∧ (restoreDefaultAchievements ∉ acts →
     acts = [] ∧ monitorPhase s' = monitorPhase s)
  ∧ (rawGlobalAchievements d = [] → acts = [])
  ∧ (user d = None → acts = []).
Proof.
  intros Hex Hc. pose proof (reachable_Inv _ _ _ Hex) as HI.
  pose proof (idle_iff_flag s HI) as Hidle.
  pose proof (busy_iff_flag s HI) as Hbusy.
  destruct HI as [Hm He _].
  apply commit_state in Hc; [|done].
  destruct Hc as (_ & _ & _ & Hcd & Hrest).
  assert (Hdrift :
    negb (isRestoringRef s) && (0 <? length (rawGlobalAchievements d))
      && negb (length (rawGlobalAchievements d) =? 5) = true
    ↔ isRestoringRef s = false ∧ rawGlobalAchievements d ≠ []
      ∧ length (rawGlobalAchievements d) ≠ 5).
  { rewrite !andb_true_iff, !negb_true_iff, Nat.ltb_lt, Nat.eqb_neq.
    destruct (rawGlobalAchievements d) as [|a l]; simpl.
    - split; [intros [[_ ?] _]; lia | intros (_ & ? & _); done].
    - split; [intros [[? _] ?]; done|].
      intros (? & _ & ?). split_and!; [done|lia|done]. }
  destruct (user d) as [u|].
  - destruct Hrest as (Ha & Hf & Hi & _).
    split_and!; [|done|done| | | |done].
    + rewrite Ha. destruct (negb _ && _ && _) eqn:E; split.
      * intros _. split; [by eexists|]. by apply Hdrift.
      * intros _. apply list_elem_of_here.
      * by intros Hin%elem_of_nil.
      * intros (_ & Hd). apply Hdrift in Hd. congruence.
    + intros Hin. rewrite Ha in *.
      destruct (negb _ && _ && _) eqn:E; [|by apply elem_of_nil in Hin].
      destruct (proj1 Hdrift eq_refl) as (Hf0 & _).
      apply Hidle in Hf0. unfold monitorPhase in *.
      rewrite Hf, Hi, Hcd. simpl.
      destruct (isRestoringRef s), (repairsInFlight s) as [|[|n]],
        (cooldownTimers s) as [|d0 [|d1 l]]; done.
    + intros Hnin. rewrite Ha in *.
      destruct (negb _ && _ && _) eqn:E.
      * exfalso. apply Hnin, list_elem_of_here.
      * split; [done|]. apply monitorPhase_fields; [|done..].
        by rewrite Hf.
    + intros Hnil. rewrite Ha, Hnil. simpl. by rewrite andb_false_r.
  - destruct Hrest as (-> & Hf & Hi & _).
    split_and!; [|done|done| | |done|done].
    + split; [by intros Hin%elem_of_nil|]. intros ([u Hu] & _). done.
    + by intros Hin%elem_of_nil.
    + intros _. split; [done|]. by apply monitorPhase_fields.
Qed.

(** C7: in every run, an evaluation pass starts no earlier than 3000 ms
    after every earlier render and every earlier pass start, so any
    3000 ms window holds at most one pass however many updates fall in
    it; at most one engine timer is pending at any time; a render leaves
    pending only the timer it has just scheduled, due 3000 ms later and
    closing over the render's own values: a timer of an earlier render
    never survives. *)
Theorem debounce_single_pass es s tr :
  exec initial es = Some (s, tr) →
  (∀ i j ti tj li c,
     i < j → tr !! i = Some (ti, li) → isSchedule li = true →
     tr !! j = Some (tj, LPass c) → ti + 3000 ≤ tj)
  ∧ length (engineTimers s) ≤ 1
  ∧ (∀ t d s' acts,
       commit t d s = (s', acts) →
       engineTimers s' = []
       ∨ ∃ u, user d = Some u
              ∧ engineTimers s' = [{| timerId := nextTimerId s;
                                      deadline := t + 3000;
                                      callback := closureOf u d |}]).
Proof.
  intros Hex. pose proof (reachable_Inv _ _ _ Hex) as [_ He _].
  split_and!.
  - intros i j ti tj li c Hij Hi Hp Hj.
    by apply (run_pass_spaced _ _ _ Hex i j ti tj li (LPass c)).
  - apply engine_cases in He as [->|(tm & u & -> & _)]; simpl; lia.
  - intros t d s' acts Hc.
    apply commit_state in Hc; [|done].
    destruct Hc as (_ & _ & _ & _ & Hrest).
    destruct (user d) as [u|].
    + destruct Hrest as (_ & _ & _ & Hrest).
      destruct (achievements d); destruct Hrest as [-> _]; eauto.
    + destruct Hrest as (_ & _ & _ & -> & _). eauto.
Qed.

End Runs.

Section Passes.

Context {rt : Runtime}.

Lemma merged_flag catalog (ledger : Ledger) m :
  m ∈ merge catalog ledger →
  isUnlocked m = truthy (ledger !! id m ≫= u_isUnlocked).
Proof. intros (ach & -> & _)%elem_of_merge. done. Qed.

Lemma fireEngine_pass es s tr t tid s' tr' :
  exec initial es = Some (s, tr) →
  step s (FireEngine t tid) = Some (s', tr') →
  ∃ u, user (data s) = Some u
       ∧ achievements (data s) ≠ []
       ∧ tr' = (t, LPass (closureOf u (data s)))
               :: stamp t (runEngine (closureOf u (data s)) []
                             (achievements (data s)))
       ∧ passes s' = passes s
            ++ option_list (runLoop (closureOf u (data s))
                              (achievements (data s))).2.
Proof.
  intros Hex Hs. pose proof (reachable_Inv _ _ _ Hex) as [_ He _].
  apply step_event in Hs. simpl in Hs.
  apply fireEngine_state in Hs; [|done].
  destruct Hs as (tm & u & _ & _ & _ & Hu & Hcb & Hne & -> & Hrest).
  exists u. rewrite Hcb, runLoop_actions in *. simpl.
  split_and!; try done. apply Hrest.
Qed.



Lemma runEngine_toast_inv c achs :
  ∀ outcomes msg ty,
    showToast msg ty ∈ runEngine c outcomes achs →
    ∃ ach, ach ∈ achs ∧ isUnlocked ach = false ∧ complete c ach = true
           ∧ showToast msg ty = unlockToast ach.
Proof.
  induction achs as [|x achs IH]; intros outcomes msg ty Hin; simpl in Hin.
  - by apply elem_of_nil in Hin.
  - assert (Hrest : ∀ os, showToast msg ty ∈ runEngine c os achs →
              ∃ ach, ach ∈ x :: achs ∧ isUnlocked ach = false
                     ∧ complete c ach = true
                     ∧ showToast msg ty = unlockToast ach).
    { intros os H. destruct (IH _ _ _ H) as (a & Ha & Hrest).
      exists a. split; [by apply list_elem_of_further|done]. }
    destruct (isUnlocked x) eqn:Hu; [by eapply Hrest|].
    destruct (complete c x) eqn:Hc; [|by eapply Hrest].
    apply elem_of_cons in Hin as [Heq|Hin]; [discriminate|].
    destruct outcomes as [|[|] outcomes'].
    + by apply elem_of_nil in Hin.
    + apply elem_of_cons in Hin as [Heq|Hin]; [|by eapply Hrest].
      exists x. split_and!; try done. apply list_elem_of_here.
    + by apply elem_of_nil in Hin.
Qed.















(** C2 (amended): the unlock decision reads the unlocked flag captured
    with the achievements array when the pass was scheduled.  In every
    run, a render (which may bring a fresher ledger) leaves the suspended
    passes as they are; when the write of a suspended pass settles, the
    calls it goes on to issue are a function of that pass alone, and
    every unlock call among them, like every unlock call at the start of
    a pass, is for an achievement that is locked in the captured array
    and complete on the captured data. *)
Theorem unlock_guard_reads_captured_flag es s tr :
  exec initial es = Some (s, tr) →
  (∀ t d s1 acts, commit t d s = (s1, acts) → passes s1 = passes s)
  ∧ (∀ t i ok s' tr',
       step s (SettleUnlock t i ok) = Some (s', tr') →
       ∃ p, passes s !! i = Some p
            ∧ tr' = stamp t (resume p ok).1
            ∧ ∀ t' u a q,
                (t', LAct (unlockUserAchievement u a q)) ∈ tr' →
                ∃ ach, ach ∈ c_achievements (p_closure p) ∧ id ach = a
                       ∧ isUnlocked ach = false
                       ∧ complete (p_closure p) ach = true)
  ∧ (∀ t tid s' tr',
       step s (FireEngine t tid) = Some (s', tr') →
       ∀ t' u a q,
         (t', LAct (unlockUserAchievement u a q)) ∈ tr' →
         ∃ ach, ach ∈ achievements (data s) ∧ id ach = a
                ∧ isUnlocked ach = false).
Proof.
  intros Hex. pose proof (reachable_Inv _ _ _ Hex) as HI.
  split_and!.
  - intros t d s1 acts Hc. destruct HI as [_ He _].
    apply commit_state in Hc; [|done]. by destruct Hc as (_ & _ & Hp & _).
  - intros t i ok s' tr' Hs. apply step_event in Hs. simpl in Hs.
    apply settleUnlock_state in Hs as (p & Hl & -> & _).
    exists p. split_and!; [done..|].
    intros t' u a q (_ & act & [= <-] & Hin)%stamp_elem.
    destruct HI as [_ _ Hps].
    assert (Hok : passOK p) by (eapply Forall_lookup_1; done).
    destruct (resume_unlock_captured p ok u a q Hok Hin)
      as (ach & ? & ? & ? & ? & _).
    by exists ach.
  - intros t tid s' tr' Hs t' u a q Hin.
    destruct (fireEngine_pass _ _ _ _ _ _ _ Hex Hs) as (u0 & _ & _ & -> & _).
    apply elem_of_cons in Hin as [Heq|Hin]; [discriminate|].
    apply stamp_elem in Hin as (_ & act & [= <-] & Hin).
    apply runEngine_unlock_inv in Hin as (ach & ? & ? & ? & _).
    by exists ach.
Qed.

(** C10 (amended): in every run, a render without a user calls no
    collaborator (no repair, no unlock write), leaves the monitor as it
    was and leaves no evaluation pass scheduled; a render whose merged
    achievement set is empty schedules no pass either and calls nothing
    but, possibly, the repair.  Hence no pass is pending while the user is
    absent or the merged set is empty, and a pass only ever starts with a
    user present and a non-empty merged set. *)
Theorem no_user_no_pass es s tr :
  exec initial es = Some (s, tr) →
  (∀ t d s' acts,
     user d = None → commit t d s = (s', acts) →
     acts = [] ∧ engineTimers s' = []
     ∧ monitorPhase s' = monitorPhase s)
  ∧ (∀ t d s' acts,
       achievements d = [] → commit t d s = (s', acts) →
       acts = [] ∧ engineTimers s' = [])
  ∧ (user (data s) = None ∨ achievements (data s) = [] →
     engineTimers s = [])
  ∧ (∀ t tid s' tr',
       step s (FireEngine t tid) = Some (s', tr') →
       is_Some (user (data s)) ∧ achievements (data s) ≠ []).
Proof.
  intros Hex. pose proof (reachable_Inv _ _ _ Hex) as [Hm He _].
  split_and!.
  - intros t d s' acts Hu Hc.
    apply commit_state in Hc; [|done]. rewrite Hu in Hc.
    destruct Hc as (_ & _ & _ & Hcd & -> & Hf & Hi & -> & _).
    split_and!; try done. by apply monitorPhase_fields.
  - intros t d s' acts Ha Hc.
    apply commit_state in Hc; [|done]. rewrite Ha in Hc.
    destruct Hc as (_ & _ & _ & _ & Hrest).
    assert (Hlen : length (rawGlobalAchievements d) = 0).
    { unfold achievements in Ha. by rewrite <- (merge_length _ (userAchievements d)), Ha. }
    destruct (user d) as [u|].
    + destruct Hrest as (-> & _ & _ & -> & _). rewrite Hlen. simpl.
      by rewrite andb_false_r.
    + by destruct Hrest as (-> & _ & _ & -> & _).
  - intros Hno.
    apply engine_cases in He as [E|(tm & u & _ & _ & _ & Hne & Hu & _)];
      [done|].
    destruct Hno as [Hno|Hno]; congruence.
  - intros t tid s' tr' Hs.
    destruct (fireEngine_pass _ _ _ _ _ _ _ Hex Hs) as (u & Hu & Hne & _).
    split; [by exists u|done].
Qed.

End Passes.

(** ** What a pass writes, against what the ledger holds *)

Section Store.

Context {rt : Runtime}.

(** The unlock-write collaborator is not part of this component; it is
    taken as the function [persist ledger id progress] giving the ledger
    of the pass's user after the write, with the contract that the
    written entry holds the progress it was given and the other entries
    are untouched. *)
Variable persist : Ledger → string → Q → Ledger.

Hypothesis persist_written :
  ∀ (ledger : Ledger) i p, (persistedProgress (persist ledger i p) i == p)%Q.
Hypothesis persist_others :
  ∀ (ledger : Ledger) i p j, j ≠ i → persist ledger i p !! j = ledger !! j.

Lemma unlockWrites_elem acts i p :
  (i, p) ∈ unlockWrites acts ↔ ∃ u, unlockUserAchievement u i p ∈ acts.
Proof.
  unfold unlockWrites. rewrite list_elem_of_omap. split.
  - intros (a & Ha & Hw). destruct a; try discriminate Hw.
    injection Hw as -> ->. eauto.
  - intros (u & Hu). by exists (unlockUserAchievement u i p).
Qed.

Lemma persistedProgress_others (ledger : Ledger) i p j :
  j ≠ i → persistedProgress (persist ledger i p) j = persistedProgress ledger j.
Proof. intros Hne. unfold persistedProgress. by rewrite persist_others. Qed.

Lemma persistAll_monotone ws :
  ∀ ledger : Ledger,
    (∀ i, (persistedProgress ledger i <= 100)%Q) →
    (∀ i p, (i, p) ∈ ws → p = 100%Q) →
    ∀ i, (persistedProgress ledger i
          <= persistedProgress (persistAll persist ledger ws) i)%Q.
Proof.
  induction ws as [|[j p] ws IH]; intros ledger Hb Hw i; simpl.
  - apply Qle_refl.
  - assert (Hp : p = 100%Q) by (apply (Hw j); apply list_elem_of_here).
    subst p.
    assert (Hb' : ∀ k, (persistedProgress (persist ledger j 100) k <= 100)%Q).
    { intros k. destruct (decide (k = j)) as [->|Hne].
      - rewrite persist_written. apply Qle_refl.
      - by rewrite persistedProgress_others. }
    eapply Qle_trans; [|apply IH; [done|]].
    + destruct (decide (i = j)) as [->|Hne].
      * rewrite persist_written. apply Hb.
      * rewrite persistedProgress_others by done. apply Qle_refl.
    + intros k q Hin. apply (Hw k). by apply list_elem_of_further.
Qed.

(** C8: every progress value a pass hands to the unlock write is 100, so
    it is not lower than the progress the ledger holds for that
    achievement (types.ts: [progress?: number; // 0 to 100]); whichever of
    the writes of a pass reach the store, the persisted progress of every
    achievement after the pass is at least what it was before. *)
Theorem progress_never_lowered (c : Closure) (outcomes : list bool)
    (achs : list Achievement) (ledger : Ledger) (ws : list (string * Q)) :
  (∀ i, (persistedProgress ledger i <= 100)%Q) →
  ws `sublist_of` unlockWrites (runEngine c outcomes achs) →
  (∀ i p, (i, p) ∈ unlockWrites (runEngine c outcomes achs) →
          p = 100%Q ∧ (persistedProgress ledger i <= p)%Q)
  ∧ (∀ i, (persistedProgress ledger i
           <= persistedProgress (persistAll persist ledger ws) i)%Q).
Proof.
  intros Hb Hsub.
  assert (Hw : ∀ i p, (i, p) ∈ unlockWrites (runEngine c outcomes achs) →
                      p = 100%Q).
  { intros i p (u & Hin)%unlockWrites_elem.
    by apply runEngine_unlock_inv in Hin as (_ & _ & _ & _ & _ & _ & ->). }
  split.
  - intros i p Hin. rewrite (Hw i p Hin). split; [done|apply Hb].
  - apply persistAll_monotone; [done|].
    intros i p Hin. apply (Hw i). by eapply elem_of_sublist.
Qed.

End Store.

(** * Closed instances *)

(** C2 (counterexample): a pass starts on Alice's salaried data and is
    suspended on the write for a1.  A render then brings a ledger in which
    a2 is unlocked, so the freshest merged view shows a2 unlocked.  When the
    write for a1 resolves, the pass nevertheless issues the unlock write
    for a2. *)
Lemma fresh_flag_ignored_counterexample :
  ∃ s tr s',
    exec initial Samples.raceRun = Some (s, tr)
    ∧ map isUnlocked
        (List.filter (λ m, String.eqb (id m) "a2") (achievements (data s)))
      = [true]
    ∧ step s (SettleUnlock 3100 0 true)
      = Some (s',
              [(3100, LAct (showToast
                              "Conquista desbloqueada: Mestre das Receitas"
                              success));
               (3100, LAct (unlockUserAchievement "alice" "a2" 100))]).
Proof.
  eexists _, _, _. split; [vm_compute; reflexivity|].
  split; vm_compute; reflexivity.
Qed.


(** C5 (counterexample): after a sign-out the guard is clear; a render
    that observes a catalog of 3 entries, non-empty and not of size 5,
    with no user present invokes no repair. *)
Lemma repair_without_user_counterexample :
  ∃ s tr s',
    exec initial [Commit 0 (Samples.salaried ∅); Commit 100 Samples.signedOut]
    = Some (s, tr)
    ∧ isRestoringRef s = false
    ∧ length (rawGlobalAchievements Samples.signedOutDrifted) = 3
    ∧ commit 200 Samples.signedOutDrifted s = (s', []).
Proof.
  eexists _, _, _. split; [vm_compute; reflexivity|].
  split_and!; vm_compute; reflexivity.
Qed.

(** C10 (counterexample): a pass is suspended on the write for a1 when the
    user signs out.  When that write resolves, with no user present, the
    pass shows its toast and issues the unlock write for a2. *)
Lemma write_after_sign_out_counterexample :
  ∃ s tr s',
    exec initial Samples.signOutRun = Some (s, tr)
    ∧ user (data s) = None
    ∧ step s (SettleUnlock 3100 0 true)
      = Some (s',
              [(3100, LAct (showToast
                              "Conquista desbloqueada: Mestre das Receitas"
                              success));
               (3100, LAct (unlockUserAchievement "alice" "a2" 100))]).
Proof.
  eexists _, _, _. split; [vm_compute; reflexivity|].
  split; vm_compute; reflexivity.
Qed.

Lemma unrecognized_title_is_noop_witness :
  ("Primeiro Passo" ∉ recognizedTitles)
  ∧ runEngine (Samples.closure (Samples.salaries 5) []) [true; true]
      [Samples.ach "a1" "Mestre das Receitas" (Some income_count) (Some 5%Q);
       Samples.ach "a6" "Primeiro Passo" (Some transaction_count) (Some 1%Q);
       Samples.ach "a2" "Trabalhador Honesto" (Some manual) None]
    = runEngine (Samples.closure (Samples.salaries 5) []) [true; true]
        [Samples.ach "a1" "Mestre das Receitas" (Some income_count) (Some 5%Q);
         Samples.ach "a2" "Trabalhador Honesto" (Some manual) None].
Proof.
  assert (Hno : "Primeiro Passo" ∉ recognizedTitles).
  { intros Hin. unfold recognizedTitles in Hin.
    repeat (apply elem_of_cons in Hin as [Hin|Hin]; [discriminate Hin|]).
    by apply elem_of_nil in Hin. }
  split; [exact Hno|].
  exact (proj2 (proj2 (proj2
           (unrecognized_title_is_noop
              (Samples.closure (Samples.salaries 5) [])
              (Samples.ach "a6" "Primeiro Passo" (Some transaction_count) (Some 1%Q))
              Hno)))
           [true; true]
           [Samples.ach "a1" "Mestre das Receitas" (Some income_count) (Some 5%Q)]
           [Samples.ach "a2" "Trabalhador Honesto" (Some manual) None]).
Defined.

Lemma repair_once_per_cooldown_witness :
  ∃ s,
    exec initial Samples.driftRun
    = Some (s, [(0, LCommit); (0, LAct restoreDefaultAchievements);
                (100, LCommit); (500, LRepairSettled false);
                (600, LCommit); (2600, LCommit);
                (2600, LAct restoreDefaultAchievements)])
    ∧ 0 + 2000 ≤ 2600 ∧ 500 + 2000 ≤ 2600.
Proof.
  eassert (Hex : exec initial Samples.driftRun = Some (_, _))
    by (vm_compute; reflexivity).
  eexists. split; [exact Hex|].
  pose proof (proj1 (repair_once_per_cooldown _ _ _ Hex)) as Hsp.
  split.
  - exact (Hsp 1 6 0 2600 (LAct restoreDefaultAchievements)
             ltac:(lia) eq_refl eq_refl eq_refl).
  - exact (Hsp 3 6 500 2600 (LRepairSettled false)
             ltac:(lia) eq_refl eq_refl eq_refl).
Defined.

Lemma repair_trigger_condition_witness :
  (∃ s',
     commit 0 Samples.drifted initial = (s', [restoreDefaultAchievements])
     ∧ isRestoringRef s' = true
     ∧ monitorPhase s' = Some Repairing)
  ∧ (∃ s tr s',
       exec initial [Commit 0 Samples.drifted] = Some (s, tr)
       ∧ isRestoringRef s = true
       ∧ commit 100 Samples.drifted s = (s', [])
       ∧ monitorPhase s' = monitorPhase s).
Proof.
  split.
  - eassert (Hc : commit 0 Samples.drifted initial = (_, _))
      by (vm_compute; reflexivity).
    eexists. split; [exact Hc|].
    pose proof (repair_trigger_condition [] initial [] 0 Samples.drifted
                  _ _ eq_refl Hc) as (_ & _ & _ & Ht & _).
    apply Ht. apply list_elem_of_here.
  - eassert (Hex : exec initial [Commit 0 Samples.drifted] = Some (_, _))
      by (vm_compute; reflexivity).
    match type of Hex with
    | _ = Some (?s, _) =>
        eassert (Hc : commit 100 Samples.drifted s = (_, _))
          by (vm_compute; reflexivity)
    end.
    eexists _, _, _. split; [exact Hex|]. split; [reflexivity|].
    split; [exact Hc|].
    pose proof (repair_trigger_condition _ _ _ 100 Samples.drifted
                  _ _ Hex Hc) as (_ & _ & _ & _ & Hn & _).
    apply Hn. apply not_elem_of_nil.
Defined.


Lemma debounce_single_pass_witness :
  ∃ s,
    exec initial Samples.burstRun
    = Some (s, [(0, LCommit); (500, LCommit); (1000, LCommit);
                (4000, LPass (closureOf Samples.alice (Samples.salaried ∅)));
                (4000, LAct (unlockUserAchievement "alice" "a1" 100))])
    ∧ 1000 + 3000 ≤ 4000
    ∧ length (engineTimers s) ≤ 1.
Proof.
  eassert (Hex : exec initial Samples.burstRun = Some (_, _))
    by (vm_compute; reflexivity).
  eexists. split; [exact Hex|].
  pose proof (debounce_single_pass _ _ _ Hex) as (Hsp & Hlen & _).
  split; [|exact Hlen].
  exact (Hsp 2 3 1000 4000 LCommit
           (closureOf Samples.alice (Samples.salaried ∅))
           ltac:(lia) eq_refl eq_refl eq_refl).
Defined.

Lemma unlock_guard_reads_captured_flag_witness :
  ∃ s tr,
    exec initial Samples.raceRun = Some (s, tr)
    ∧ ∃ p, passes s !! 0 = Some p
           ∧ ∃ ach, ach ∈ c_achievements (p_closure p) ∧ id ach = "a2"
                    ∧ isUnlocked ach = false
                    ∧ complete (p_closure p) ach = true.
Proof.
  eassert (Hex : exec initial Samples.raceRun = Some (_, _))
    by (vm_compute; reflexivity).
  eexists _, _. split; [exact Hex|].
  match type of Hex with
  | _ = Some (?s, _) =>
      eassert (Hs : step s (SettleUnlock 3100 0 true) = Some (_, _))
        by (vm_compute; reflexivity)
  end.
  destruct (proj1 (proj2 (unlock_guard_reads_captured_flag _ _ _ Hex))
              _ _ _ _ _ Hs) as (p & Hp & _ & Hw).
  exists p. split; [exact Hp|].
  apply (Hw 3100 "alice" "a2" 100%Q).
  apply list_elem_of_further, list_elem_of_here.
Defined.

Lemma no_user_no_pass_witness :
  ∃ s tr,
    exec initial Samples.signOutRun = Some (s, tr)
    ∧ user (data s) = None
    ∧ engineTimers s = [].
Proof.
  eassert (Hex : exec initial Samples.signOutRun = Some (_, _))
    by (vm_compute; reflexivity).
  eexists _, _. split; [exact Hex|]. split; [reflexivity|].
  apply (proj1 (proj2 (proj2 (no_user_no_pass _ _ _ Hex)))).
  left. reflexivity.
Defined.

Lemma progress_never_lowered_witness :
  (∀ (ledger : Ledger) i p,
     (persistedProgress (Samples.store ledger i p) i == p)%Q)
  ∧ (∀ (ledger : Ledger) i p j,
       j ≠ i → Samples.store ledger i p !! j = ledger !! j)
  ∧ (∀ i, (persistedProgress {["a1" := Samples.halfRecord]} i <= 100)%Q)
  ∧ [("a1", 100%Q)]
      `sublist_of` unlockWrites
        (runEngine (Samples.closure (Samples.incomes 5) []) [true]
           [Samples.ach "a1" "Mestre das Receitas" (Some income_count) (Some 5%Q)])
  ∧ (persistedProgress {["a1" := Samples.halfRecord]} "a1"
     <= persistedProgress
          (persistAll Samples.store {["a1" := Samples.halfRecord]}
             [("a1", 100%Q)]) "a1")%Q.
Proof.
  assert (H1 : ∀ (ledger : Ledger) i p,
             (persistedProgress (Samples.store ledger i p) i == p)%Q).
  { intros ledger i p. unfold persistedProgress, Samples.store.
    rewrite lookup_insert_eq. apply num_or_0_carries. }
  assert (H2 : ∀ (ledger : Ledger) i p j,
             j ≠ i → Samples.store ledger i p !! j = ledger !! j).
  { intros ledger i p j Hne. unfold Samples.store. by apply lookup_insert_ne. }
  assert (H3 : ∀ i, (persistedProgress {["a1" := Samples.halfRecord]} i <= 100)%Q).
  { intros i. unfold persistedProgress.
    destruct (decide (i = "a1")) as [->|Hne].
    - rewrite lookup_singleton_eq. by vm_compute.
    - rewrite lookup_singleton_ne by done. by vm_compute. }
  assert (H4 : [("a1", 100%Q)]
                 `sublist_of` unlockWrites
                   (runEngine (Samples.closure (Samples.incomes 5) []) [true]
                      [Samples.ach "a1" "Mestre das Receitas"
                         (Some income_count) (Some 5%Q)])).
  { vm_compute. apply sublist_skip, sublist_nil. }
  split_and!; [exact H1|exact H2|exact H3|exact H4|].
  exact (proj2 (progress_never_lowered Samples.store H1 H2
                  (Samples.closure (Samples.incomes 5) []) [true]
                  [Samples.ach "a1" "Mestre das Receitas"
                     (Some income_count) (Some 5%Q)]
                  {["a1" := Samples.halfRecord]} [("a1", 100%Q)] H3 H4) "a1").
Defined.

(** * Scenarios *)

(** The observed catalog has 3 entries: the repair is invoked once.  The
    repaired catalog of 5 entries triggers nothing more, during the cooldown
    or after it. *)
Example scenario_repair_once :
  ∃ s,
    exec initial
      [Commit 0 Samples.drifted;
       SettleRepair 300 true;
       Commit 350 (Samples.snapshot (Some Samples.alice) [] Samples.catalog5 ∅);
       FireCooldown 2300 0;
       Commit 2400 (Samples.snapshot (Some Samples.alice) [] Samples.catalog5 ∅)]
    = Some (s, [(0, LCommit); (0, LAct restoreDefaultAchievements);
                (300, LRepairSettled true); (350, LCommit); (2400, LCommit)])
    ∧ monitorPhase s = Some Idle.
Proof. eexists. split; vm_compute; reflexivity. Qed.

(** Five income records unlock "Mestre das Receitas" once; a later pass
    that sees six records and the ledger entry does not fire again. *)
Example scenario_unlock_once :
  ∃ s,
    exec initial
      [Commit 0 (Samples.snapshot (Some Samples.alice) (Samples.incomes 5)
                   Samples.catalog5 ∅);
       FireEngine 3000 0;
       SettleUnlock 3100 0 true;
       Commit 3200 (Samples.snapshot (Some Samples.alice) (Samples.incomes 6)
                      Samples.catalog5 {["a1" := Samples.unlockedRecord]});
       FireEngine (3200 + 3000) 1]
    = Some (s,
            [(0, LCommit);
             (3000, LPass (closureOf Samples.alice
                             (Samples.snapshot (Some Samples.alice)
                                (Samples.incomes 5) Samples.catalog5 ∅)));
             (3000, LAct (unlockUserAchievement "alice" "a1" 100));
             (3100, LAct (showToast
                            "Conquista desbloqueada: Mestre das Receitas"
                            success));
             (3200, LCommit);
             (3200 + 3000,
              LPass (closureOf Samples.alice
                       (Samples.snapshot (Some Samples.alice)
                          (Samples.incomes 6) Samples.catalog5
                          {["a1" := Samples.unlockedRecord]})))])
    ∧ passes s = [].
Proof. eexists. split; vm_compute; reflexivity. Qed.

(** In a burst of updates the timers of the earlier renders are gone: only
    the timer of the last render can fire. *)
Example scenario_burst :
  exec initial [Commit 0 (Samples.salaried ∅); Commit 500 (Samples.salaried ∅);
                FireEngine 3000 0] = None
  ∧ exec initial [Commit 0 (Samples.salaried ∅); Commit 500 (Samples.salaried ∅);
                  FireEngine 3400 1] = None
  ∧ ∃ s tr,
      exec initial [Commit 0 (Samples.salaried ∅); Commit 500 (Samples.salaried ∅);
                    FireEngine 3500 1] = Some (s, tr)
      ∧ engineTimers s = [].
Proof.
  split; [vm_compute; reflexivity|]. split; [vm_compute; reflexivity|].
  eexists _, _. split; vm_compute; reflexivity.
Qed.

(** * Further properties *)

(** ** More on the evaluation pass *)

Section PassShapeFacts.

Context {rt : Runtime}.

Lemma runEngine_eligible_cons c outcomes ach rest :
  eligible c ach = true →
  runEngine c outcomes (ach :: rest)
  = unlockCall c ach ::
    match outcomes with
    | true :: outcomes' => unlockToast ach :: runEngine c outcomes' rest
    | _ => []
    end.
Proof.
  unfold eligible. intros [Hu Hc]%andb_true_iff. apply negb_true_iff in Hu.
  simpl. rewrite Hu, Hc. by destruct outcomes as [|[|] ?].
Qed.

Lemma runEngine_ineligible_cons c outcomes ach rest :
  eligible c ach = false →
  runEngine c outcomes (ach :: rest) = runEngine c outcomes rest.
Proof.
  unfold eligible. intros He. simpl.
  destruct (isUnlocked ach); [done|]. simpl in He. by rewrite He.
Qed.

Lemma runEngine_take (c : Closure) (achs : list Achievement)
    (outcomes : list bool) :
  runEngine c outcomes achs
  = take (2 * resolvedWrites outcomes + 1) (fullActions c achs).
Proof.
  revert outcomes. induction achs as [|x achs IH]; intros outcomes.
  - change (fullActions c []) with (@nil Action). by rewrite take_nil.
  - unfold fullActions. simpl List.filter.
    destruct (eligible c x) eqn:He.
    + rewrite runEngine_eligible_cons by done. simpl flat_map.
      destruct outcomes as [|[|] outcomes']; simpl resolvedWrites.
      * done.
      * replace (2 * S (resolvedWrites outcomes') + 1)
          with (S (S (2 * resolvedWrites outcomes' + 1))) by lia.
        simpl. by rewrite IH.
      * done.
    + rewrite runEngine_ineligible_cons by done. apply IH.
Qed.

(** X2: whatever the outcomes of its writes, a pass issues a prefix of the
    sequence call, toast, call, toast, ... over the eligible entries: after
    [k] resolved writes it has issued [k] call-and-toast pairs and the
    next call, and nothing beyond (a rejected write ends the pass, an
    unsettled one leaves it waiting). *)
Theorem pass_actions_prefix (c : Closure) (achs : list Achievement)
    (outcomes : list bool) :
  runEngine c outcomes achs
  = take (2 * resolvedWrites outcomes + 1) (fullActions c achs).
Proof. apply runEngine_take. Qed.

Lemma fullActions_length c achs :
  length (fullActions c achs) = 2 * length (List.filter (eligible c) achs).
Proof.
  unfold fullActions. induction (List.filter (eligible c) achs) as [|x l IH];
    simpl; [done|]. rewrite IH. lia.
Qed.

(** X1: when the writes of a pass all resolve, the pass issues, for each
    captured achievement that is locked and complete and in the order of
    the array, exactly one unlock call immediately followed by its toast,
    and nothing else. *)
Theorem pass_actions_all_resolved (c : Closure) (achs : list Achievement)
    (outcomes : list bool) :
  length (List.filter (eligible c) achs) ≤ resolvedWrites outcomes →
  runEngine c outcomes achs = fullActions c achs.
Proof.
  intros Hn. rewrite runEngine_take. apply take_ge.
  rewrite fullActions_length. lia.
Qed.

Lemma runEngine_write_ids_sublist c achs :
  ∀ outcomes,
    (unlockWrites (runEngine c outcomes achs)).*1 `sublist_of` id <$> achs.
Proof.
  induction achs as [|x achs IH]; intros outcomes.
  - simpl. done.
  - destruct (eligible c x) eqn:He.
    + rewrite runEngine_eligible_cons by done. simpl.
      apply sublist_skip.
      destruct outcomes as [|[|] outcomes']; simpl;
        [apply sublist_nil_l| |apply sublist_nil_l].
      apply IH.
    + rewrite runEngine_ineligible_cons by done. simpl.
      apply sublist_cons, IH.
Qed.

(** X3: within one pass an achievement is written at most once: the
    identifiers of the unlock calls of a pass follow the order of the
    captured array, and when the array has no repeated identifier neither
    have the calls. *)
Theorem pass_writes_each_id_once (c : Closure) (achs : list Achievement)
    (outcomes : list bool) :
  NoDup (id <$> achs) →
  NoDup (unlockWrites (runEngine c outcomes achs)).*1
  ∧ (unlockWrites (runEngine c outcomes achs)).*1 `sublist_of` id <$> achs.
Proof.
  intros Hnd. split; [|apply runEngine_write_ids_sublist].
  eapply sublist_NoDup; [done|apply runEngine_write_ids_sublist].
Qed.

Lemma counts_app (txs more : list Transaction) :
  incomeCount (txs ++ more) = incomeCount txs + incomeCount more
  ∧ expenseCount (txs ++ more) = expenseCount txs + expenseCount more.
Proof.
  unfold incomeCount, expenseCount.
  split; by rewrite List.filter_app, length_app.
Qed.

(** X4: every record is an income or an expense: the two counts of a pass
    add up to the number of records, and each count is additive over
    concatenation. *)
Theorem counts_partition (txs more : list Transaction) :
  incomeCount txs + expenseCount txs = length txs
  ∧ incomeCount (txs ++ more) = incomeCount txs + incomeCount more
  ∧ expenseCount (txs ++ more) = expenseCount txs + expenseCount more.
Proof.
  split; [|apply counts_app]. unfold incomeCount, expenseCount.
  induction txs as [|t txs IH]; simpl; [done|].
  destruct (t_type t); simpl; lia.
Qed.

(** X5: adding records never takes a completion away: an achievement that
    is complete on the data of one render is complete on the data of any
    later render that has the same records and more (and the same usage
    statistics). *)
Theorem completion_survives_more_records (c : Closure)
    (more : list Transaction) (ach : Achievement) :
  complete c ach = true →
  complete (withMoreTransactions c more) ach = true.
Proof.
  unfold complete, currentProgress, withMoreTransactions. simpl.
  destruct (counts_app (c_transactions c) more) as (Hi & He).
  repeat match goal with
  | |- context [String.eqb (title ach) ?t] =>
      destruct (String.eqb (title ach) t)
  end; try done.
  - rewrite !count_complete, Hi. intros H%Nat.leb_le. apply Nat.leb_le. lia.
  - rewrite !count_complete, He. intros H%Nat.leb_le. apply Nat.leb_le. lia.
  - rewrite !bool_complete. unfold hasSalary. rewrite existsb_app.
    intros ->. done.
Qed.

End PassShapeFacts.

(** ** The salary predicate *)

Lemma prefix_spec p s :
  String.prefix p s = true ↔ ∃ post, s = p +:+ post.
Proof.
  revert s. induction p as [|a p IH]; intros s.
  - split; [intros _; by exists s|]. intros _. by destruct s.
  - destruct s as [|b s]; simpl.
    + split; [done | intros [post Hp]; discriminate Hp].
    + destruct (Ascii.ascii_dec a b) as [->|Hne].
      * rewrite IH. split; intros [post Hp]; exists post.
        -- by rewrite Hp.
        -- by injection Hp.
      * split; [done|]. intros [post Hp]. injection Hp as -> _. done.
Qed.

Lemma includes_nil p : includes p "" = String.prefix p "".
Proof. by destruct p. Qed.

Lemma includes_cons p b s :
  includes p (String b s)
  = if String.prefix p (String b s) then true else includes p s.
Proof. done. Qed.

Lemma includes_spec p s :
  includes p s = true ↔ ∃ pre post, s = pre +:+ p +:+ post.
Proof.
  induction s as [|b s IH].
  - rewrite includes_nil, prefix_spec. split.
    + intros [post Hp]. by exists "", post.
    + intros (pre & post & Hs).
      destruct pre as [|x pre]; [|discriminate Hs]. by exists post.
  - rewrite includes_cons.
    destruct (String.prefix p (String b s)) eqn:Hp.
    + apply prefix_spec in Hp as [post Hp]. split; [|done].
      intros _. by exists "", post.
    + rewrite IH. split.
      * intros (pre & post & ->). by exists (String b pre), post.
      * intros (pre & post & Hs). destruct pre as [|x pre]; simpl in Hs.
        -- assert (String.prefix p (String b s) = true)
             by (apply prefix_spec; by exists post).
           congruence.
        -- injection Hs as -> ->. by exists pre, post.
Qed.

Section Salary.

Context {rt : Runtime}.

(** X6: the salary predicate holds exactly when some record has the
    category "Salário" or a description whose lower-cased text contains
    "salário"; in particular it fails on an empty list of records, and the
    category is compared as it is, without lower-casing. *)
Theorem hasSalary_spec (txs : list Transaction) :
  (hasSalary txs = true
   ↔ ∃ t, t ∈ txs
          ∧ (t_category t = "Salário"
             ∨ ∃ pre post,
                 toLowerCase (t_description t) = pre +:+ "salário" +:+ post))
  ∧ hasSalary [] = false.
Proof.
  split; [|done]. unfold hasSalary. rewrite existsb_exists. split.
  - intros (t & Hin & Hor). exists t. split; [by apply list_elem_of_In|].
    apply orb_true_iff in Hor as [Hc|Hd].
    + left. by apply String.eqb_eq.
    + right. by apply includes_spec.
  - intros (t & Hin & Hor). exists t. split; [by apply list_elem_of_In|].
    apply orb_true_iff. destruct Hor as [Hc|Hd].
    + left. by apply String.eqb_eq.
    + right. by apply includes_spec.
Qed.

End Salary.

(** ** More on the merged view *)




(** ** Passes over a ledger that has recorded earlier writes *)

Section Recorded.

Context {rt : Runtime}.

(** The store, as far as the unlocked flag goes: a written entry is
    recorded as unlocked, the other entries are untouched. *)
Variable persist : Ledger → string → Q → Ledger.

Hypothesis persist_unlocks :
  ∀ (ledger : Ledger) i p, persist ledger i p !! i ≫= u_isUnlocked = Some true.
Hypothesis persist_others :
  ∀ (ledger : Ledger) i p j, j ≠ i → persist ledger i p !! j = ledger !! j.

Lemma persistAll_keeps_unlocked ws :
  ∀ (ledger : Ledger) i,
    ledger !! i ≫= u_isUnlocked = Some true →
    persistAll persist ledger ws !! i ≫= u_isUnlocked = Some true.
Proof.
  induction ws as [|[j q] ws IH]; intros ledger i Hl; simpl; [done|].
  apply IH. destruct (decide (i = j)) as [->|Hne].
  - apply persist_unlocks.
  - by rewrite persist_others.
Qed.

Lemma persistAll_unlocks ws :
  ∀ (ledger : Ledger) i p,
    (i, p) ∈ ws →
    persistAll persist ledger ws !! i ≫= u_isUnlocked = Some true.
Proof.
  induction ws as [|[j q] ws IH]; intros ledger i p Hin; simpl.
  - by apply elem_of_nil in Hin.
  - apply elem_of_cons in Hin as [[= -> ->]|Hin].
    + apply persistAll_keeps_unlocked, persist_unlocks.
    + by eapply IH.
Qed.

(** X9: an achievement whose unlock write has reached the store is not
    written again: once the ledger that results from the recorded writes
    is the one merged, no pass, on whatever data and with whatever
    outcomes, issues an unlock call for that identifier. *)
Theorem recorded_unlock_not_rewritten (catalog : list Achievement)
    (ledger : Ledger) (ws : list (string * Q)) (i : string) (p : Q)
    (c : Closure) (outcomes : list bool) :
  (i, p) ∈ ws →
  ∀ u q, unlockUserAchievement u i q
         ∉ runEngine c outcomes (merge catalog (persistAll persist ledger ws)).
Proof.
  intros Hin u q Hcall.
  apply runEngine_unlock_inv in Hcall as (ach & Hach & Hid & Hlocked & _).
  apply merged_flag in Hach.
  rewrite Hid, (persistAll_unlocks ws ledger i p Hin) in Hach.
  simpl in Hach. congruence.
Qed.

End Recorded.

(** ** More on the runs of the effect *)

Section MoreRuns.

Context {rt : Runtime}.

(** X10: in every run the auto-restore is in one of three conditions:
    nothing pending and the guard clear; one repair promise pending, no
    reset timer, the guard set; or no promise, one reset timer, the guard
    set.  So at most one repair is in flight, at most one reset is pending,
    never both, and the guard is never left set with nothing pending to
    clear it. *)
Theorem monitor_tristate es s tr :
  exec initial es = Some (s, tr) →
  repairsInFlight s ≤ 1
  ∧ length (cooldownTimers s) ≤ 1
  ∧ repairsInFlight s + length (cooldownTimers s) ≤ 1
  ∧ (isRestoringRef s = true
     ↔ repairsInFlight s + length (cooldownTimers s) = 1).
Proof.
  intros Hex. destruct (reachable_Inv _ _ _ Hex) as [Hm _ _].
  apply monitor_cases in Hm.
  destruct Hm as [(-> & -> & ->)|[(-> & -> & ->)|(-> & -> & d & ->)]];
    simpl; split_and!; try lia; done.
Qed.

(** X11: the debounce does not starve the engine.  After a render with a
    user present and a non-empty merged view, the timer that render set
    cannot fire before 3000 ms have passed, and at any time from then on
    (if no other render came first) it fires and starts a pass over that
    render's own values. *)
Theorem scheduled_pass_runs es s tr t d u s' acts t' :
  exec initial es = Some (s, tr) →
  user d = Some u → achievements d ≠ [] →
  commit t d s = (s', acts) →
  (t' < t + 3000 → ∀ tid, step s' (FireEngine t' tid) = None)
  ∧ (t + 3000 ≤ t' →
     ∃ s'',
       step s' (FireEngine t' (nextTimerId s))
       = Some (s'', (t', LPass (closureOf u d))
                    :: stamp t' (runEngine (closureOf u d) []
                                   (achievements d)))
       ∧ engineTimers s'' = []).
Proof.
  intros Hex Hu Hne Hc. destruct (reachable_Inv _ _ _ Hex) as [_ He _].
  apply commit_state in Hc; [|done]. rewrite Hu in Hc.
  destruct Hc as (Hn & _ & _ & _ & _ & _ & _ & Htm0).
  assert (Htm : engineTimers s' = [{| timerId := nextTimerId s;
                                      deadline := t + 3000;
                                      callback := closureOf u d |}]).
  { destruct (achievements d); [done | by destruct Htm0]. }
  clear Htm0. split.
  - intros Hlt tid. unfold step. simpl. rewrite Hn.
    destruct (t <=? t'); [|done].
    unfold fireEngine. rewrite Htm. simpl.
    destruct (nextTimerId s =? tid); [|done].
    cbn [deadline]. destruct (Nat.leb_spec (t + 3000) t'); [lia|done].
  - intros Hle. unfold step. simpl. rewrite Hn.
    destruct (Nat.leb_spec t t'); [|lia].
    unfold fireEngine. rewrite Htm. simpl. rewrite Nat.eqb_refl.
    cbn [deadline callback]. destruct (Nat.leb_spec (t + 3000) t'); [|lia].
    pose proof (runLoop_actions (closureOf u d) (achievements d)) as Hacts.
    change (c_achievements (closureOf u d)) with (achievements d).
    destruct (runLoop (closureOf u d) (achievements d)) as [acts' st].
    simpl in Hacts. subst acts'.
    eexists. split; [reflexivity|]. simpl. done.
Qed.

(** X12: after the cooldown the repair can be invoked again.  While the
    monitor is cooling down until [until], its reset cannot fire before
    that time; at any time from then on it fires, clears the guard, calls
    nothing itself and leaves the monitor idle; the next run of the effect
    (a render in which one of its dependencies has changed) with a user
    present that still observes a non-empty catalog of a size other than 5
    invokes the repair again. *)
Theorem repair_retried_after_cooldown es s tr until t :
  exec initial es = Some (s, tr) →
  monitorPhase s = Some (Cooldown until) →
  (t < until → ∀ i, step s (FireCooldown t i) = None)
  ∧ (now s ≤ t → until ≤ t →
     ∃ s',
       step s (FireCooldown t 0) = Some (s', [])
       ∧ monitorPhase s' = Some Idle
       ∧ ∀ t2 d u s2 acts,
           user d = Some u →
           rawGlobalAchievements d ≠ [] →
           length (rawGlobalAchievements d) ≠ 5 →
           commit t2 d s' = (s2, acts) →
           acts = [restoreDefaultAchievements]
           ∧ monitorPhase s2 = Some Repairing).
Proof.
  intros Hex Hph. destruct (reachable_Inv _ _ _ Hex) as [Hm He Hps].
  assert (Hfields : isRestoringRef s = true ∧ repairsInFlight s = 0
                    ∧ cooldownTimers s = [until]).
  { apply monitor_cases in Hm. unfold monitorPhase in Hph.
    destruct Hm as [(Hf & Hi & Hc)|[(Hf & Hi & Hc)|(Hf & Hi & d & Hc)]];
      rewrite Hf, Hi, Hc in Hph; try discriminate Hph.
    injection Hph as <-. done. }
  destruct Hfields as (Hf & Hi & Hc).
  split.
  - intros Hlt i. unfold step. simpl.
    destruct (now s <=? t); [|done].
    unfold fireCooldown. rewrite Hc.
    destruct i as [|i]; simpl; [|done].
    destruct (Nat.leb_spec until t); [lia|done].
  - intros Hnow Hle.
    destruct (step s (FireCooldown t 0)) as [[s' tr']|] eqn:Hs.
    + pose proof (step_Inv _ _ _ _ (Build_Inv s Hm He Hps) Hs) as [Hm' He' _].
      apply step_event in Hs. simpl in Hs.
      apply fireCooldown_state in Hs
        as (d0 & _ & _ & -> & _ & _ & Hf' & Hi' & Hc' & _).
      rewrite Hc in Hc'. simpl in Hc'.
      assert (Hidle : monitorPhase s' = Some Idle).
      { unfold monitorPhase. by rewrite Hf', Hi', Hi, Hc'. }
      exists s'. split_and!; [done..|].
      intros t2 d u s2 acts Hu Hne Hlen Hcm.
      apply commit_state in Hcm; [|done]. rewrite Hu in Hcm.
      destruct Hcm as (_ & _ & _ & Hcd & Ha & Hf2 & Hi2 & _).
      assert (Hdrift :
        negb (isRestoringRef s') && (0 <? length (rawGlobalAchievements d))
          && negb (length (rawGlobalAchievements d) =? 5) = true).
      { rewrite Hf'. simpl. apply andb_true_iff. split.
        - apply Nat.ltb_lt. destruct (rawGlobalAchievements d); [done|simpl; lia].
        - apply negb_true_iff. by apply Nat.eqb_neq. }
      rewrite Hdrift in *. split; [done|].
      unfold monitorPhase. by rewrite Hf2, Hi2, Hcd, Hi', Hi, Hc'.
    + exfalso. unfold step in Hs. simpl in Hs.
      destruct (Nat.leb_spec (now s) t); [|lia].
      unfold fireCooldown in Hs. rewrite Hc in Hs. simpl in Hs.
      destruct (Nat.leb_spec until t); [done|lia].
Qed.

End MoreRuns.

(** ** The toast hook *)

Section ToastFacts.

Import Toast.

Lemma toast_initial_Inv : Toast.Inv Toast.initial.
Proof.
  split.
  - intros d i Hin. by apply elem_of_nil in Hin.
  - intros m Hm. discriminate Hm.
Qed.

Lemma elem_of_delete_other {A} (l : list A) k x y :
  l !! k = Some y → x ∈ l → x ≠ y → x ∈ delete k l.
Proof.
  intros Hk Hin Hne. apply list_elem_of_lookup in Hin as [j Hj].
  destruct (decide (j = k)) as [->|Hjk]; [congruence|].
  apply list_elem_of_lookup.
  destruct (decide (j < k)) as [Hlt|Hge].
  - exists j. by rewrite list_lookup_delete_lt.
  - exists (j - 1). rewrite list_lookup_delete_ge by lia.
    replace (S (j - 1)) with j by lia. done.
Qed.

Lemma toast_step_Inv s e s' :
  Toast.Inv s → Toast.step s e = Some s' → Toast.Inv s'.
Proof.
  intros [Ht Hm] Hs. unfold Toast.step in Hs.
  destruct (Nat.leb_spec (Toast.now s) (Toast.eventTime e)) as [Hle|]; [|done].
  destruct e as [t msg ty|t k|t]; simpl in *.
  - injection Hs as <-. split; simpl.
    + intros d i [Hin|Hin]%elem_of_app.
      * destruct (Ht d i Hin) as (t0 & -> & -> & Hle0).
        exists t0. split_and!; [done..|lia].
      * apply list_elem_of_singleton in Hin as [= -> ->]. by exists t.
    + intros m [= <-]. simpl. exists t. split_and!; [done..|].
      apply elem_of_app. right. apply list_elem_of_here.
  - destruct (timers s !! k) as [[d i]|] eqn:Hk; [|done].
    destruct (Nat.leb_spec d t) as [Hd|]; [|done].
    injection Hs as <-. split; simpl.
    + intros d' i' Hin%list_elem_of_delete_inv.
      destruct (Ht d' i' Hin) as (t0 & -> & -> & Hle0).
      exists t0. split_and!; [done..|lia].
    + intros m Hdm. unfold dismiss in Hdm.
      destruct (toast s) as [m0|] eqn:Hts; [|done].
      destruct (String.eqb_spec (toast_id m0) i) as [Heq|Hne]; [done|].
      injection Hdm as <-.
      destruct (Hm m0 eq_refl) as (t0 & Hid & Hle0 & Hin).
      exists t0. split_and!; [done|lia|].
      eapply elem_of_delete_other; [done..|].
      intros [= _ Hi]. congruence.
  - injection Hs as <-. split; simpl.
    + intros d i Hin. destruct (Ht d i Hin) as (t0 & -> & -> & Hle0).
      exists t0. split_and!; [done..|lia].
    + intros m Hm'. discriminate Hm'.
Qed.

Lemma toast_exec_Inv es :
  ∀ s s', Toast.Inv s → Toast.exec s es = Some s' → Toast.Inv s'.
Proof.
  induction es as [|e es IH]; intros s s' HI Hex; simpl in Hex.
  - by injection Hex as <-.
  - destruct (Toast.step s e) as [s1|] eqn:Hs; [|done].
    eapply IH; [|done]. by eapply toast_step_Inv.
Qed.

(** X13: a toast is never dismissed early.  In every run of the hook,
    when a timer fires while a toast is visible, the timer is due and was
    set 5000 ms before its deadline; it removes the toast exactly when it
    was set in the millisecond the toast was shown in (the two ids are
    then the same), so no earlier than 5000 ms after the toast was shown,
    and a timer set in any other millisecond leaves the toast exactly as
    it is. *)
Theorem toast_not_dismissed_early es s t k s' m :
  Toast.exec Toast.initial es = Some s →
  Toast.toast s = Some m →
  Toast.step s (Toast.Fire t k) = Some s' →
  ∃ t0 t1,
    Toast.toast_id m = pretty t0
    ∧ Toast.timers s !! k = Some (t1 + 5000, pretty t1)
    ∧ t1 + 5000 ≤ t
    ∧ (t1 = t0 → Toast.toast s' = None)
    ∧ (t1 ≠ t0 → Toast.toast s' = Some m).
Proof.
  intros Hex Hm Hs.
  destruct (toast_exec_Inv _ _ _ toast_initial_Inv Hex) as [Ht Hv].
  destruct (Hv m Hm) as (t0 & Hid & _ & _).
  unfold Toast.step in Hs. simpl in Hs.
  destruct (Toast.now s <=? t); [|done].
  destruct (timers s !! k) as [[d i]|] eqn:Hk; [|done].
  destruct (Nat.leb_spec d t) as [Hd|]; [|done].
  injection Hs as <-. simpl. rewrite Hm. simpl.
  destruct (Ht d i) as (t1 & -> & -> & _).
  { by eapply list_elem_of_lookup_2. }
  exists t0, t1. rewrite Hid. split_and!; [done..| |].
  - intros ->. by rewrite String.eqb_refl.
  - intros Hne.
    destruct (String.eqb_spec (pretty t0) (pretty t1)) as [Heq|]; [|done].
    apply (inj pretty) in Heq. congruence.
Qed.

(** X14: no toast stays for ever.  In every run, the visible toast has a
    timer pending that was set when it was shown, due 5000 ms after that
    time, and when that timer fires the toast is gone. *)
Theorem visible_toast_has_timer es s m :
  Toast.exec Toast.initial es = Some s →
  Toast.toast s = Some m →
  ∃ t0 k,
    Toast.toast_id m = pretty t0
    ∧ Toast.timers s !! k = Some (t0 + 5000, Toast.toast_id m)
    ∧ ∀ t, Toast.now s ≤ t → t0 + 5000 ≤ t →
           ∃ s', Toast.step s (Toast.Fire t k) = Some s'
                 ∧ Toast.toast s' = None.
Proof.
  intros Hex Hm.
  destruct (toast_exec_Inv _ _ _ toast_initial_Inv Hex) as [_ Hinv].
  destruct (Hinv m Hm) as (t0 & Hid & _ & Hin).
  apply list_elem_of_lookup in Hin as [k Hk].
  exists t0, k. rewrite Hid. split_and!; [done..|].
  intros t Hnow Hdue. unfold Toast.step. simpl.
  destruct (Nat.leb_spec (Toast.now s) t); [|lia].
  rewrite Hk. destruct (Nat.leb_spec (t0 + 5000) t); [|lia].
  eexists. split; [reflexivity|]. simpl. rewrite Hm. simpl.
  by rewrite Hid, String.eqb_refl.
Qed.

End ToastFacts.

(** ** The authentication hook *)

Section AuthFacts.

Import Auth.

Lemma auth_quiet_run es :
  ∀ s s' tr,
    Auth.exec s es = Some (s', tr) →
    forallb (λ e, negb (Auth.isAuthEvent e)) es = true →
    Auth.loginTimeRef s' = Auth.loginTimeRef s
    ∧ Auth.now s ≤ Auth.now s'
    ∧ ∀ t, (t, Auth.firebaseLogout) ∈ tr → Auth.loginTimeRef s + 5000 ≤ t.
Proof.
  induction es as [|e es IH]; intros s s' tr Hex Hq; simpl in Hex.
  - injection Hex as <- <-. split_and!; [done..|].
    intros t Hin. by apply elem_of_nil in Hin.
  - simpl in Hq. apply andb_true_iff in Hq as [He Hq].
    destruct (Auth.step s e) as [[s1 tr1]|] eqn:Hs; [|done].
    destruct (Auth.exec s1 es) as [[s2 tr2]|] eqn:Hex2; [|done].
    injection Hex as <- <-.
    destruct (IH _ _ _ Hex2 Hq) as (Hl & Hn & Htr).
    unfold Auth.step in Hs.
    destruct (Nat.leb_spec (Auth.now s) (Auth.eventTime e)) as [Hle|]; [|done].
    destruct e as [t fu|t db|t|t ok]; simpl in *; [done|..].
    + destruct (profileSubscription s) as [fu|]; [|done].
      injection Hs as <- <-.
      assert (Hlt : loginTimeRef (profileSnapshot t fu db s).1 = loginTimeRef s).
      { unfold profileSnapshot. destruct db; [done|].
        by destruct (isProfileLoaded s). }
      assert (Hnw : Auth.now (profileSnapshot t fu db s).1 = t).
      { unfold profileSnapshot. destruct db; [done|].
        by destruct (isProfileLoaded s). }
      rewrite Hlt, Hnw in *. split_and!; [done|lia|].
      intros t' [Hin|Hin]%elem_of_app; [|by apply Htr].
      unfold Auth.stamp in Hin. apply list_elem_of_fmap in Hin as (a & [= -> <-] & Ha).
      unfold profileSnapshot in Ha. destruct db.
      * by apply elem_of_nil in Ha.
      * destruct (isProfileLoaded s); simpl in Ha.
        -- by apply elem_of_nil in Ha.
        -- by apply list_elem_of_singleton in Ha.
    + injection Hs as <- <-. unfold performLogout in *.
      destruct (Z.ltb_spec (Z.of_nat t - Z.of_nat (loginTimeRef s)) 5000);
        simpl in *.
      * split_and!; [done|lia|]. intros t' Hin. by apply Htr.
      * split_and!; [done|lia|].
        intros t' [Hin|Hin]%elem_of_cons; [|by apply Htr].
        injection Hin as ->. lia.
    + unfold logoutSettled in Hs. destruct (logoutsPending s); [done|].
      injection Hs as <- <-. simpl in *. split_and!; [done|lia|].
      intros t' Hin. by apply Htr.
Qed.

(** X15: no logout in the first 5000 ms of a session.  After a sign-in
    notification at time [t1], and as long as no other auth notification
    arrives, [firebaseLogout] is never called before [t1 + 5000]: a logout
    requested earlier changes nothing (the user stays, nothing is
    pending), one requested from then on calls [firebaseLogout]. *)
Theorem logout_locked_after_sign_in s0 t1 fu es s tr t2 :
  Auth.exec s0 (Auth.AuthStateChanged t1 (Some fu) :: es) = Some (s, tr) →
  forallb (λ e, negb (Auth.isAuthEvent e)) es = true →
  Auth.now s ≤ t2 →
  (∀ t, (t, Auth.firebaseLogout) ∈ tr → t1 + 5000 ≤ t)
  ∧ (t2 < t1 + 5000 →
     ∃ s', Auth.step s (Auth.LogoutClick t2) = Some (s', [])
           ∧ Auth.user s' = Auth.user s
           ∧ Auth.logoutsPending s' = Auth.logoutsPending s)
  ∧ (t1 + 5000 ≤ t2 →
     ∃ s', Auth.step s (Auth.LogoutClick t2)
           = Some (s', [(t2, Auth.firebaseLogout)])
           ∧ Auth.logoutsPending s' = S (Auth.logoutsPending s)).
Proof.
  intros Hex Hq Hnow. simpl in Hex. unfold Auth.step in Hex at 1. simpl in Hex.
  destruct (Auth.now s0 <=? t1); [|done].
  match type of Hex with
  | match ?x with _ => _ end = _ =>
      destruct x as [[s2 tr2]|] eqn:Hex2; [|done]
  end.
  injection Hex as <- <-.
  destruct (auth_quiet_run _ _ _ _ Hex2 Hq) as (Hl & _ & Htr). simpl in *.
  split_and!; [done|..].
  - intros Hlt. unfold Auth.step. simpl.
    destruct (Nat.leb_spec (Auth.now s2) t2); [|lia].
    unfold performLogout. rewrite Hl.
    destruct (Z.ltb_spec (Z.of_nat t2 - Z.of_nat t1) 5000); [|lia].
    simpl. eauto.
  - intros Hge. unfold Auth.step. simpl.
    destruct (Nat.leb_spec (Auth.now s2) t2); [|lia].
    unfold performLogout. rewrite Hl.
    destruct (Z.ltb_spec (Z.of_nat t2 - Z.of_nat t1) 5000); [lia|].
    simpl. eauto.
Qed.

Lemma auth_step_uid_ok s e s' tr :
  Auth.uidOk s → Auth.step s e = Some (s', tr) → Auth.uidOk s'.
Proof.
  intros Hok Hs. unfold Auth.step in Hs.
  destruct (Auth.now s <=? Auth.eventTime e); [|done].
  destruct e as [t fu|t db|t|t ok]; simpl in Hs.
  - injection Hs as <- <-. destruct fu as [fu|]; simpl; [|by intros u].
    intros u [= <-]. exists fu. split; [done|].
    destruct (Auth.user s) as [prev|]; [|done].
    by destruct (String.eqb_spec (uid prev) (fu_uid fu)).
  - destruct (profileSubscription s) as [fu|] eqn:Hsub; [|done].
    injection Hs as <- <-. unfold profileSnapshot.
    destruct db as [p|]; simpl.
    + intros u [= <-]. by exists fu.
    + destruct (isProfileLoaded s); simpl.
      * intros u Hu. destruct (Hok u Hu) as (fu' & Hf & Hid).
        rewrite Hsub in Hf. injection Hf as <-. by exists fu.
      * intros u [= <-]. by exists fu.
  - injection Hs as <- <-. unfold performLogout.
    destruct (_ <? _)%Z; simpl; exact Hok.
  - unfold logoutSettled in Hs. destruct (logoutsPending s); [done|].
    injection Hs as <- <-. destruct ok; simpl; [by intros u|exact Hok].
Qed.

(** X16: the identity of the user is the one Firebase reports.  In every
    run, whenever [user] is set, a profile subscription is open and the
    user's uid is the uid of the Firebase user it was opened for: no
    profile in the database, whatever it contains, changes the uid. *)
Theorem user_uid_is_firebase_uid es s tr u :
  Auth.exec Auth.initial es = Some (s, tr) →
  Auth.user s = Some u →
  ∃ fu, Auth.profileSubscription s = Some fu ∧ uid u = Auth.fu_uid fu.
Proof.
  intros Hex. revert u.
  assert (H0 : Auth.uidOk Auth.initial) by (by intros u).
  revert Hex H0. generalize Auth.initial. revert s tr.
  induction es as [|e es IH]; intros s tr s0 Hex H0; simpl in Hex.
  - by injection Hex as <- <-.
  - destruct (Auth.step s0 e) as [[s1 tr1]|] eqn:Hs; [|done].
    destruct (Auth.exec s1 es) as [[s2 tr2]|] eqn:Hex2; [|done].
    injection Hex as <- <-. eapply IH; [done|]. by eapply auth_step_uid_ok.
Qed.

Lemma auth_step_admin s e s' tr :
  Auth.step s e = Some (s', tr) → isAdmin s' → isAdmin s ∨ adminSnapshot e.
Proof.
  intros Hs (u & Hu & Ha). unfold Auth.step in Hs.
  destruct (Auth.now s <=? Auth.eventTime e); [|done].
  destruct e as [t fu|t db|t|t ok]; simpl in Hs.
  - injection Hs as <- <-. destruct fu as [fu|]; simpl in Hu; [|done].
    injection Hu as <-.
    destruct (Auth.user s) as [prev|] eqn:Hp; [|done].
    destruct (String.eqb (uid prev) (fu_uid fu)); [|done].
    left. by exists prev.
  - destruct (profileSubscription s) as [fu|]; [|done].
    injection Hs as <- <-. unfold profileSnapshot in Hu.
    destruct db as [p|]; simpl in Hu.
    + injection Hu as <-. simpl in Ha. right. exists t, p. split; [done|].
      destruct (db_isAdministrator p) as [[|]|]; simpl in Ha; congruence.
    + destruct (isProfileLoaded s); simpl in Hu.
      * left. by exists u.
      * injection Hu as <-. done.
  - injection Hs as <- <-. unfold performLogout in Hu.
    destruct (_ <? _)%Z; simpl in Hu; left; by exists u.
  - unfold logoutSettled in Hs. destruct (logoutsPending s); [done|].
    injection Hs as <- <-. destruct ok; simpl in Hu; [done|].
    left. by exists u.
Qed.

(** X17: the administrator flag comes from the database only.  In every
    run, if the user is an administrator then some profile snapshot of the
    run carried [isAdministrator: true]; what Firebase reports about the
    account never makes an administrator. *)
Theorem admin_only_from_database es s tr u :
  Auth.exec Auth.initial es = Some (s, tr) →
  Auth.user s = Some u →
  isAdministrator u = Some true →
  ∃ t p, Auth.ProfileSnapshot t (Some p) ∈ es
         ∧ Auth.db_isAdministrator p = Some true.
Proof.
  intros Hex Hu Ha.
  assert (Hadm : isAdmin s) by (by exists u).
  clear Hu Ha.
  assert (Hgen : ∀ es s0 s tr,
            Auth.exec s0 es = Some (s, tr) → isAdmin s →
            isAdmin s0 ∨ ∃ e, e ∈ es ∧ adminSnapshot e).
  { clear. induction es as [|e es IH]; intros s0 s tr Hex Hadm; simpl in Hex.
    - injection Hex as <- <-. by left.
    - destruct (Auth.step s0 e) as [[s1 tr1]|] eqn:Hs; [|done].
      destruct (Auth.exec s1 es) as [[s2 tr2]|] eqn:Hex2; [|done].
      injection Hex as <- <-.
      destruct (IH _ _ _ Hex2 Hadm) as [H1|(e' & Hin & He')].
      + destruct (auth_step_admin _ _ _ _ Hs H1) as [H0|He]; [by left|].
        right. exists e. split; [apply list_elem_of_here|done].
      + right. exists e'. split; [by apply list_elem_of_further|done]. }
  destruct (Hgen _ _ _ _ Hex Hadm) as [(u0 & Hu0 & _)|(e & Hin & t & p & -> & Hp)].
  - discriminate Hu0.
  - by exists t, p.
Qed.

Lemma auth_loaded_run es :
  ∀ s s' tr,
    Auth.exec s es = Some (s', tr) →
    forallb (λ e, negb (Auth.isSignOut e)) es = true →
    Auth.isProfileLoaded s = true →
    ∀ t a, (t, a) ∈ tr → Auth.isSave a = false.
Proof.
  induction es as [|e es IH]; intros s s' tr Hex Hq Hl; simpl in Hex.
  - injection Hex as <- <-. intros t a Hin. by apply elem_of_nil in Hin.
  - simpl in Hq. apply andb_true_iff in Hq as [He Hq].
    destruct (Auth.step s e) as [[s1 tr1]|] eqn:Hs; [|done].
    destruct (Auth.exec s1 es) as [[s2 tr2]|] eqn:Hex2; [|done].
    injection Hex as <- <-.
    unfold Auth.step in Hs.
    destruct (Auth.now s <=? Auth.eventTime e); [|done].
    assert (Hstep : Auth.isProfileLoaded s1 = true
                    ∧ ∀ t a, (t, a) ∈ tr1 → Auth.isSave a = false).
    { destruct e as [t [fu|]|t db|t|t ok]; simpl in *; try done.
      - injection Hs as <- <-. split; [done|].
        intros t' a Hin. by apply elem_of_nil in Hin.
      - destruct (profileSubscription s) as [fu|]; [|done].
        injection Hs as <- <-. unfold profileSnapshot. rewrite Hl.
        destruct db; simpl; (split; [done|]);
          intros t' a Hin; by apply elem_of_nil in Hin.
      - injection Hs as <- <-. unfold performLogout.
        destruct (_ <? _)%Z; simpl; (split; [done|]); intros t' a Hin.
        + by apply elem_of_nil in Hin.
        + by apply list_elem_of_singleton in Hin as [= _ ->].
      - unfold logoutSettled in Hs. destruct (logoutsPending s); [done|].
        injection Hs as <- <-. split; [done|].
        intros t' a Hin. by apply elem_of_nil in Hin. }
    destruct Hstep as [Hl1 Htr1].
    intros t a [Hin|Hin]%elem_of_app; [by eapply Htr1|].
    by eapply (IH _ _ _ Hex2 Hq Hl1).
Qed.

(** X18: a profile is created at most once per session, and only by an
    empty first snapshot.  From a profile snapshot on, and until the next
    sign-out notification, no later event calls [saveUserProfileToDB]; the
    snapshot itself calls it exactly when it is empty and no snapshot had
    arrived since the last sign-out. *)
Theorem profile_saved_once s0 t db es s tr :
  Auth.exec s0 (Auth.ProfileSnapshot t db :: es) = Some (s, tr) →
  forallb (λ e, negb (Auth.isSignOut e)) es = true →
  ∃ fu tr2,
    Auth.profileSubscription s0 = Some fu
    ∧ tr = (if negb (Auth.isProfileLoaded s0) && negb (bool_decide (is_Some db))
            then [(t, Auth.saveUserProfileToDB fu)] else []) ++ tr2
    ∧ ∀ t' a, (t', a) ∈ tr2 → Auth.isSave a = false.
Proof.
  intros Hex Hq. simpl in Hex.
  destruct (Auth.step s0 (Auth.ProfileSnapshot t db)) as [[s1 tr1]|] eqn:Hs;
    [|done].
  destruct (Auth.exec s1 es) as [[s2 tr2]|] eqn:Hex2; [|done].
  injection Hex as <- <-.
  unfold Auth.step in Hs. simpl in Hs.
  destruct (Auth.now s0 <=? t); [|done].
  destruct (profileSubscription s0) as [fu|]; [|done].
  injection Hs as <- <-.
  exists fu, tr2. split; [done|].
  assert (Hl : isProfileLoaded (profileSnapshot t fu db s0).1 = true).
  { unfold profileSnapshot. destruct db; [done|].
    by destruct (isProfileLoaded s0). }
  split.
  - f_equal. unfold profileSnapshot.
    destruct db as [p|]; simpl.
    + by rewrite andb_false_r.
    + by destruct (isProfileLoaded s0).
  - by eapply auth_loaded_run.
Qed.

End AuthFacts.

(** ** The subscriptions *)

Section StreamFacts.

Import Streams.

Lemma unsubscribe_own subs :
  Streams.unsubscribe (sub_handle <$> subs) subs = [].
Proof.
  unfold Streams.unsubscribe.
  assert (H : ∀ hs, (∀ sub, sub ∈ subs → sub_handle sub ∈ hs) →
              List.filter (λ sub, negb (existsb (Nat.eqb (sub_handle sub)) hs)) subs = []).
  { induction subs as [|x subs IH]; intros hs Hall; simpl; [done|].
    assert (Hx : existsb (Nat.eqb (sub_handle x)) hs = true).
    { apply existsb_exists. exists (sub_handle x). split.
      - apply list_elem_of_In, Hall, list_elem_of_here.
      - apply Nat.eqb_refl. }
    rewrite Hx. simpl. apply IH. intros sub Hin.
    by apply Hall, list_elem_of_further. }
  apply H. intros sub Hin. by apply list_elem_of_fmap_2.
Qed.

Lemma streams_commit_spec s user :
  Streams.effectCleanup s = sub_handle <$> Streams.subscriptions s →
  Streams.subscriptions (Streams.commit s user)
  = match Streams.activeUid user with
    | Some i => Streams.subscribeAll i (Streams.nextHandle s)
    | None => []
    end
  ∧ Streams.effectCleanup (Streams.commit s user)
    = sub_handle <$> Streams.subscriptions (Streams.commit s user).
Proof.
  intros Hc. unfold Streams.commit, dataEffect. simpl.
  rewrite Hc, unsubscribe_own.
  destruct (activeUid user); simpl; done.
Qed.

Lemma streams_run_cleanup users :
  ∀ s, Streams.effectCleanup s = sub_handle <$> Streams.subscriptions s →
       Streams.effectCleanup (foldl Streams.commit s users)
       = sub_handle <$> Streams.subscriptions (foldl Streams.commit s users).
Proof.
  induction users as [|u users IH]; intros s Hc; simpl; [done|].
  apply IH. by apply streams_commit_spec.
Qed.

(** X19: the subscriptions follow the identity, with no overlap.  After
    any series of runs of the subscription effect, each preceded by the
    cleanup of the run before, the open subscriptions are exactly the
    seven of the latest run (one per collection, in the order of the
    source, scoped by that run's uid, the catalog unscoped), or none at all
    when the latest run has no user or a user with an empty uid: every
    subscription of an earlier run has been closed. *)
Theorem subscriptions_follow_identity (users : list (option UserProfile))
    (user : option UserProfile) :
  let s := foldl Streams.commit Streams.initial (users ++ [user]) in
  match Streams.activeUid user with
  | Some i =>
      ∃ h, Streams.subscriptions s = Streams.subscribeAll i h
           ∧ Streams.sub_kind <$> Streams.subscriptions s
             = [Streams.Transactions; Streams.Goals; Streams.Stats;
                Streams.Recurring; Streams.CustomCategories;
                Streams.GlobalAchievements; Streams.UserAchievements]
           ∧ ∀ sub, sub ∈ Streams.subscriptions s →
                    Streams.sub_uid sub = Some i
                    ∨ (Streams.sub_kind sub = Streams.GlobalAchievements
                       ∧ Streams.sub_uid sub = None)
  | None => Streams.subscriptions s = []
  end.
Proof.
  simpl. rewrite foldl_app. simpl.
  pose proof (streams_run_cleanup users Streams.initial eq_refl) as Hc.
  destruct (streams_commit_spec _ user Hc) as [Hs _].
  rewrite Hs. destruct (activeUid user) as [i|]; [|done].
  eexists. split_and!; [done..|].
  intros sub Hin. unfold subscribeAll in Hin.
  repeat (apply elem_of_cons in Hin as [->|Hin]; [simpl; auto|]).
  by apply elem_of_nil in Hin.
Qed.

End StreamFacts.

(** ** The error boundary *)

(** X20: once an error has been caught the boundary never renders its
    children again: after any non-empty series of caught errors it shows
    the fallback, with the message of the last error, or with "Erro
    desconhecido" when that message is empty, so the text shown is never
    empty. *)
Theorem boundary_stays_in_fallback (errors : list Boundary.Error)
    (e : Boundary.Error) :
  Boundary.render (Boundary.caught []) = Boundary.Children
  ∧ ∃ m, Boundary.render (Boundary.caught (errors ++ [e])) = Boundary.Fallback m
         ∧ m ≠ ""
         ∧ (Boundary.err_message e ≠ "" → m = Boundary.err_message e)
         ∧ (Boundary.err_message e = "" → m = "Erro desconhecido").
Proof.
  split; [done|]. unfold Boundary.caught. rewrite foldl_app. simpl.
  unfold Boundary.render. simpl.
  destruct (Boundary.err_message e) as [|a m] eqn:Hm; simpl.
  - exists "Erro desconhecido". by split_and!.
  - exists (String a m). by split_and!.
Qed.

(** ** What [App] renders *)

(** X21: who sees what.  The admin panel is part of what is rendered
    exactly when a user is present, is an administrator and the active tab
    is "admin".  The maintenance screen is shown exactly when maintenance
    is on and the user present is not an administrator (a missing flag
    counts as not an administrator).  Without a user neither the main
    layout nor the maintenance screen is ever shown. *)
Theorem screen_gating (isMaintenance authLoading : bool)
    (user : option UserProfile) (activeTab : string) :
  (screen isMaintenance authLoading user activeTab = MainLayout true
   ↔ ∃ u, user = Some u ∧ isAdministrator u = Some true
          ∧ activeTab = "admin")
  ∧ (screen isMaintenance authLoading user activeTab = MaintenanceScreen
     ↔ isMaintenance = true
       ∧ ∃ u, user = Some u ∧ isAdministrator u ≠ Some true)
  ∧ (user = None →
     screen isMaintenance authLoading user activeTab
     = if authLoading then AuthSpinner else LoginScreen).
Proof.
  unfold screen. destruct user as [u|]; simpl.
  - rewrite andb_false_r.
    destruct (isAdministrator u) as [[|]|] eqn:Ha; simpl;
      rewrite ?andb_false_r, ?andb_true_r.
    + split_and!; [| |done].
      * destruct (String.eqb_spec activeTab "admin") as [->|Hne]; split.
        -- intros _. by exists u.
        -- done.
        -- done.
        -- intros (u' & _ & _ & Ht). done.
      * split; [done|]. intros (_ & u' & [= <-] & Hn). congruence.
    + split_and!; [| |done].
      * destruct isMaintenance; simpl; (split; [done|]);
          intros (u' & [= <-] & Hn & _); congruence.
      * destruct isMaintenance; simpl; split; try done.
        -- intros _. split; [done|]. exists u. split; [done|]. congruence.
        -- intros [Hf _]. done.
    + split_and!; [| |done].
      * destruct isMaintenance; simpl; (split; [done|]);
          intros (u' & [= <-] & Hn & _); congruence.
      * destruct isMaintenance; simpl; split; try done.
        -- intros _. split; [done|]. exists u. split; [done|]. congruence.
        -- intros [Hf _]. done.
  - rewrite andb_false_r, andb_true_r. split_and!; [| |done].
    + destruct authLoading; (split; [done|]); intros (u' & Hu & _); done.
    + destruct authLoading; (split; [done|]); intros (_ & u' & Hu & _); done.
Qed.

(** * Closed instances of the further properties *)

Lemma pass_actions_all_resolved_witness :
  length (List.filter (eligible (Samples.closure (Samples.salaries 5) []))
            Samples.catalog5) ≤ resolvedWrites [true; true]
  ∧ runEngine (Samples.closure (Samples.salaries 5) []) [true; true]
      Samples.catalog5
    = [unlockUserAchievement "alice" "a1" 100;
       showToast "Conquista desbloqueada: Mestre das Receitas" success;
       unlockUserAchievement "alice" "a2" 100;
       showToast "Conquista desbloqueada: Trabalhador Honesto" success].
Proof.
  assert (H : length (List.filter
                        (eligible (Samples.closure (Samples.salaries 5) []))
                        Samples.catalog5) ≤ resolvedWrites [true; true])
    by (vm_compute; lia).
  split; [exact H|].
  exact (pass_actions_all_resolved _ _ _ H).
Defined.

Lemma pass_writes_each_id_once_witness :
  NoDup (id <$> Samples.catalog5)
  ∧ NoDup (unlockWrites
             (runEngine (Samples.closure (Samples.salaries 5) []) [true; true]
                Samples.catalog5)).*1.
Proof.
  assert (H : NoDup (id <$> Samples.catalog5)).
  { apply (bool_decide_unpack _). vm_compute. reflexivity. }
  split; [exact H|].
  exact (proj1 (pass_writes_each_id_once
                  (Samples.closure (Samples.salaries 5) [])
                  Samples.catalog5 [true; true] H)).
Defined.

Lemma completion_survives_more_records_witness :
  complete (Samples.closure (Samples.incomes 5) [])
    (Samples.ach "a1" "Mestre das Receitas" (Some income_count) (Some 5%Q))
  = true
  ∧ complete
      (withMoreTransactions (Samples.closure (Samples.incomes 5) [])
         [Samples.tx EXPENSE "Mercado" "compras"])
      (Samples.ach "a1" "Mestre das Receitas" (Some income_count) (Some 5%Q))
    = true.
Proof.
  assert (H : complete (Samples.closure (Samples.incomes 5) [])
                (Samples.ach "a1" "Mestre das Receitas" (Some income_count)
                   (Some 5%Q))
              = true) by (vm_compute; reflexivity).
  split; [exact H|].
  exact (completion_survives_more_records
           (Samples.closure (Samples.incomes 5) [])
           [Samples.tx EXPENSE "Mercado" "compras"]
           (Samples.ach "a1" "Mestre das Receitas" (Some income_count) (Some 5%Q))
           H).
Defined.

Lemma store_unlocks :
  ∀ (ledger : Ledger) i p,
    Samples.store ledger i p !! i ≫= u_isUnlocked = Some true.
Proof. intros ledger i p. unfold Samples.store. by rewrite lookup_insert_eq. Defined.

Lemma store_others :
  ∀ (ledger : Ledger) i p j,
    j ≠ i → Samples.store ledger i p !! j = ledger !! j.
Proof.
  intros ledger i p j Hne. unfold Samples.store. by apply lookup_insert_ne.
Defined.

Lemma recorded_unlock_not_rewritten_witness :
  (∀ (ledger : Ledger) i p,
     Samples.store ledger i p !! i ≫= u_isUnlocked = Some true)
  ∧ (∀ (ledger : Ledger) i p j,
       j ≠ i → Samples.store ledger i p !! j = ledger !! j)
  ∧ ("a1", 100%Q) ∈ [("a1", 100%Q)]
  ∧ (unlockUserAchievement "alice" "a1" 100
     ∉ runEngine (Samples.closure (Samples.incomes 6) []) [true; true]
         (merge Samples.catalog5
            (persistAll Samples.store ∅ [("a1", 100%Q)]))).
Proof.
  assert (Hin : ("a1", 100%Q) ∈ [("a1", 100%Q)]) by apply list_elem_of_here.
  split_and!; [exact store_unlocks|exact store_others|exact Hin|].
  exact (recorded_unlock_not_rewritten Samples.store store_unlocks store_others
           Samples.catalog5 ∅ [("a1", 100%Q)] "a1" 100%Q
           (Samples.closure (Samples.incomes 6) []) [true; true] Hin
           "alice" 100%Q).
Defined.

Lemma monitor_tristate_witness :
  ∃ s tr,
    exec initial Samples.driftRun = Some (s, tr)
    ∧ repairsInFlight s ≤ 1
    ∧ length (cooldownTimers s) ≤ 1.
Proof.
  eassert (Hex : exec initial Samples.driftRun = Some (_, _))
    by (vm_compute; reflexivity).
  eexists _, _. split; [exact Hex|].
  destruct (monitor_tristate _ _ _ Hex) as (H1 & H2 & _).
  split; [exact H1|exact H2].
Defined.

Lemma scheduled_pass_runs_witness :
  exec initial [] = Some (initial, [])
  ∧ user (Samples.salaried ∅) = Some Samples.alice
  ∧ achievements (Samples.salaried ∅) ≠ []
  ∧ ∃ s',
      commit 0 (Samples.salaried ∅) initial = (s', [])
      ∧ ∃ s'',
          step s' (FireEngine 3000 0)
          = Some (s'', [(3000, LPass (closureOf Samples.alice (Samples.salaried ∅)));
                        (3000, LAct (unlockUserAchievement "alice" "a1" 100))]).
Proof.
  assert (Hne : achievements (Samples.salaried ∅) ≠ []) by discriminate.
  split_and!; [reflexivity|reflexivity|exact Hne|].
  eassert (Hc : commit 0 (Samples.salaried ∅) initial = (_, _))
    by (vm_compute; reflexivity).
  eexists. split; [exact Hc|].
  destruct (proj2 (scheduled_pass_runs [] initial [] 0 (Samples.salaried ∅)
                     Samples.alice _ _ 3000 eq_refl eq_refl Hne Hc))
    as (s'' & Hs & _); [vm_compute; lia|].
  exists s''. exact Hs.
Defined.

Lemma repair_retried_after_cooldown_witness :
  ∃ s tr,
    exec initial MoreSamples.coolingRun = Some (s, tr)
    ∧ monitorPhase s = Some (Cooldown (500 + 2000))
    ∧ step s (FireCooldown 2000 0) = None
    ∧ ∃ s', step s (FireCooldown 2500 0) = Some (s', [])
            ∧ monitorPhase s' = Some Idle.
Proof.
  eassert (Hex : exec initial MoreSamples.coolingRun = Some (_, _))
    by (vm_compute; reflexivity).
  eexists _, _. split; [exact Hex|]. split; [reflexivity|].
  split.
  - apply (proj1 (repair_retried_after_cooldown _ _ _ (500 + 2000) 2000
                    Hex eq_refl)).
    vm_compute. lia.
  - destruct (proj2 (repair_retried_after_cooldown _ _ _ (500 + 2000) 2500
                       Hex eq_refl)) as (s' & Hs & Hidle & _).
    + vm_compute. lia.
    + vm_compute. lia.
    + exists s'. split; [exact Hs|exact Hidle].
Defined.

Lemma toast_not_dismissed_early_witness :
  ∃ s m s',
    Toast.exec Toast.initial
      [Toast.Show 0 "Meta criada!" success;
       Toast.Show 100 "Recorrente agendada!" success] = Some s
    ∧ Toast.toast s = Some m
    ∧ Toast.toast_message m = "Recorrente agendada!"
    ∧ Toast.step s (Toast.Fire 5000 0) = Some s'
    ∧ Toast.toast s' = Some m.
Proof.
  eassert (Hex : Toast.exec Toast.initial
                   [Toast.Show 0 "Meta criada!" success;
                    Toast.Show 100 "Recorrente agendada!" success] = Some _)
    by (vm_compute; reflexivity).
  eexists _, _, _. split; [exact Hex|]. split; [reflexivity|].
  split; [reflexivity|].
  match type of Hex with
  | _ = Some ?s =>
      eassert (Hs : Toast.step s (Toast.Fire 5000 0) = Some _)
        by (vm_compute; reflexivity)
  end.
  split; [exact Hs|].
  destruct (toast_not_dismissed_early _ _ _ _ _ _ Hex eq_refl Hs)
    as (t0 & t1 & Hid & Hk & _ & _ & Hstay).
  apply Hstay. intros ->.
  assert (H0 : pretty 0 = "0") by (vm_compute; reflexivity).
  assert (H100 : pretty 100 = "100") by (vm_compute; reflexivity).
  simpl in Hid, Hk. injection Hk as _ Hk.
  vm_compute in H0, H100.
  assert (Ht0 : pretty t0 = pretty 0) by (rewrite <- Hk; vm_compute; reflexivity).
  assert (Ht100 : pretty t0 = pretty 100) by (rewrite <- Hid; vm_compute; reflexivity).
  apply (inj pretty) in Ht0, Ht100. congruence.
Defined.

Lemma visible_toast_has_timer_witness :
  ∃ s m,
    Toast.exec Toast.initial [Toast.Show 100 "Meta criada!" success] = Some s
    ∧ Toast.toast s = Some m
    ∧ ∃ t0 k, Toast.toast_id m = pretty t0
              ∧ Toast.timers s !! k = Some (t0 + 5000, Toast.toast_id m).
Proof.
  eassert (Hex : Toast.exec Toast.initial
                   [Toast.Show 100 "Meta criada!" success] = Some _)
    by (vm_compute; reflexivity).
  eexists _, _. split; [exact Hex|]. split; [reflexivity|].
  destruct (visible_toast_has_timer _ _ _ Hex eq_refl) as (t0 & k & H1 & H2 & _).
  exists t0, k. split; [exact H1|exact H2].
Defined.

Lemma logout_locked_after_sign_in_witness :
  ∃ s tr,
    Auth.exec Auth.initial MoreSamples.bobRun = Some (s, tr)
    ∧ Auth.now s ≤ 2000
    ∧ ∃ s', Auth.step s (Auth.LogoutClick 2000) = Some (s', [])
            ∧ Auth.user s' = Auth.user s.
Proof.
  eassert (Hex : Auth.exec Auth.initial MoreSamples.bobRun = Some (_, _))
    by (vm_compute; reflexivity).
  eexists _, _. split; [exact Hex|].
  assert (Hnow : 1100 ≤ 2000) by lia.
  split; [exact Hnow|].
  destruct (proj1 (proj2 (logout_locked_after_sign_in Auth.initial 1000
                            MoreSamples.bob _ _ _ 2000 Hex eq_refl Hnow)))
    as (s' & Hs & Hu & _); [lia|].
  exists s'. split; [exact Hs|exact Hu].
Defined.

Lemma user_uid_is_firebase_uid_witness :
  ∃ s tr u,
    Auth.exec Auth.initial MoreSamples.bobRun = Some (s, tr)
    ∧ Auth.user s = Some u
    ∧ ∃ fu, Auth.profileSubscription s = Some fu ∧ uid u = Auth.fu_uid fu.
Proof.
  eassert (Hex : Auth.exec Auth.initial MoreSamples.bobRun = Some (_, _))
    by (vm_compute; reflexivity).
  eexists _, _, _. split; [exact Hex|]. split; [reflexivity|].
  exact (user_uid_is_firebase_uid _ _ _ _ Hex eq_refl).
Defined.

Lemma admin_only_from_database_witness :
  ∃ s tr u,
    Auth.exec Auth.initial MoreSamples.bobRun = Some (s, tr)
    ∧ Auth.user s = Some u
    ∧ isAdministrator u = Some true
    ∧ ∃ t p, Auth.ProfileSnapshot t (Some p) ∈ MoreSamples.bobRun
             ∧ Auth.db_isAdministrator p = Some true.
Proof.
  eassert (Hex : Auth.exec Auth.initial MoreSamples.bobRun = Some (_, _))
    by (vm_compute; reflexivity).
  eexists _, _, _. split; [exact Hex|]. split; [reflexivity|].
  split; [reflexivity|].
  exact (admin_only_from_database _ _ _ _ Hex eq_refl eq_refl).
Defined.

Lemma profile_saved_once_witness :
  ∃ s tr fu tr2,
    Auth.exec (Auth.authStateChanged 1000 (Some MoreSamples.bob) Auth.initial)
      [Auth.ProfileSnapshot 1100 None; Auth.ProfileSnapshot 1200 None]
    = Some (s, tr)
    ∧ tr = [(1100, Auth.saveUserProfileToDB fu)] ++ tr2
    ∧ ∀ t' a, (t', a) ∈ tr2 → Auth.isSave a = false.
Proof.
  eassert (Hex : Auth.exec
                   (Auth.authStateChanged 1000 (Some MoreSamples.bob) Auth.initial)
                   [Auth.ProfileSnapshot 1100 None; Auth.ProfileSnapshot 1200 None]
                 = Some (_, _))
    by (vm_compute; reflexivity).
  destruct (profile_saved_once _ _ _ _ _ _ Hex eq_refl)
    as (fu & tr2 & _ & Htr & Hno).
  eexists _, _, fu, tr2. split; [exact Hex|]. split; [exact Htr|exact Hno].
Defined.
